(** * Raptor editor: selection tools ([src/tools/selection.js])

    A shallow embedding of the selection helpers of the Raptor editor and of
    the part of the DOM, jQuery and rangy interfaces they are written
    against, followed by the properties established about them. *)

From Stdlib Require Import List String Ascii Arith Bool Lia PeanoNat Sorted.
Import ListNotations.
Local Open Scope list_scope.

(** ** Outcomes of JavaScript computations

    A call either returns, throws (a [TypeError] on a property access
    through [null] or [undefined], a DOM exception), or has not finished
    within the supplied number of loop iterations. *)

Inductive outcome (A : Type) : Type :=
| Ret (a : A)
| Throws (e : string)
| OutOfFuel.

Arguments Ret {A} a.
Arguments Throws {A} e.
Arguments OutOfFuel {A}.

Definition bind {A B : Type} (m : outcome A) (k : A -> outcome B) : outcome B :=
  match m with
  | Ret a => k a
  | Throws e => Throws e
  | OutOfFuel => OutOfFuel
  end.

Declare Scope js_scope.
Delimit Scope js_scope with js.
Notation "'let*' x ':=' m 'in' k" := (bind m (fun x => k))
  (at level 10, x pattern, m at level 100, k at level 200) : js_scope.
Local Open Scope js_scope.

Definition returns {A : Type} (m : outcome A) : Prop := exists a, m = Ret a.

(** ** [selectionEachRange]: the loop

    [while (range = selection.getAllRanges()[i++]) callback.call(context, range);]
    The range array is requested from the selection again before every
    test of the loop condition; [i] only ever grows.  The callback acts on
    a state [St] (the captured variables of the closure together with the
    page). *)

Section EachRangeLoop.
Context {St R : Type}.
Variable getAllRanges : St -> list R.
Variable callback : R -> St -> outcome St.

Fixpoint eachRange_from (fuel i : nat) (s : St) : outcome St :=
  match fuel with
  | 0 => OutOfFuel
  | S fuel' =>
      match nth_error (getAllRanges s) i with
      | None => Ret s
      | Some range => let* s' := callback range s in eachRange_from fuel' (S i) s'
      end
  end.

End EachRangeLoop.

(** ** The document tree

    A node is a text node or an element.  Every node carries an identity
    [nid]: JavaScript holds nodes by reference, and a reference survives
    the node being moved, renamed or given other children.  [classList] is
    the [class] attribute split into its tokens. *)

#[warnings="-register-all"]
Inductive node : Type :=
| Text (nid : nat) (data : string)
| Elem (nid : nat) (tagName : string) (classList : list string)
       (attributes : list (string * string)) (childNodes : list node).

Definition NodeRef := nat.

Definition node_id (n : node) : NodeRef :=
  match n with Text i _ => i | Elem i _ _ _ _ => i end.

Definition TEXT_NODE : nat := 3.
Definition ELEMENT_NODE : nat := 1.

Definition nodeType (n : node) : nat :=
  match n with Text _ _ => TEXT_NODE | Elem _ _ _ _ _ => ELEMENT_NODE end.

Definition is_element (n : node) : bool :=
  match n with Text _ _ => false | Elem _ _ _ _ _ => true end.

Definition kids (n : node) : list node :=
  match n with Text _ _ => [] | Elem _ _ _ _ ks => ks end.

Definition set_kids (ks : list node) (n : node) : node :=
  match n with Text _ _ => n | Elem i t c a _ => Elem i t c a ks end.

Definition tag_of (n : node) : string :=
  match n with Text _ _ => EmptyString | Elem _ t _ _ _ => t end.

Definition classes_of (n : node) : list string :=
  match n with Text _ _ => [] | Elem _ _ c _ _ => c end.

Definition attrs_of (n : node) : list (string * string) :=
  match n with Text _ _ => [] | Elem _ _ _ a _ => a end.

(** [textContent]: the character data of the subtree, in document order. *)
Fixpoint textContent (n : node) : string :=
  match n with
  | Text _ d => d
  | Elem _ _ _ _ ks => String.concat EmptyString (map textContent ks)
  end.

(** [node.length]: characters of a text node, children of an element. *)
Definition node_length (n : node) : nat :=
  match n with Text _ d => String.length d | Elem _ _ _ _ ks => List.length ks end.

(** *** Paths

    A path is the list of child indices leading from the root to a node. *)

Fixpoint node_at (p : list nat) (n : node) : option node :=
  match p with
  | [] => Some n
  | k :: p' => match nth_error (kids n) k with
               | Some c => node_at p' c
               | None => None
               end
  end.

Fixpoint first_some {A : Type} (l : list (option A)) : option (nat * A) :=
  match l with
  | [] => None
  | Some a :: _ => Some (0, a)
  | None :: r => match first_some r with
                 | Some (k, a) => Some (S k, a)
                 | None => None
                 end
  end.

(** The path of the first node, in document order, whose identity is [i]. *)
Fixpoint locate (i : NodeRef) (n : node) : option (list nat) :=
  if node_id n =? i then Some [] else
  match n with
  | Text _ _ => None
  | Elem _ _ _ _ ks =>
      match first_some (map (locate i) ks) with
      | Some (k, p) => Some (k :: p)
      | None => None
      end
  end.

Definition getNode (d : node) (i : NodeRef) : option node :=
  match locate i d with Some p => node_at p d | None => None end.

(** Identities of a subtree, in document order. *)
Fixpoint ids (n : node) : list NodeRef :=
  match n with
  | Text i _ => [i]
  | Elem i _ _ _ ks => i :: flat_map ids ks
  end.

Fixpoint list_modify {A : Type} (k : nat) (f : A -> A) (l : list A) : list A :=
  match l, k with
  | [], _ => []
  | a :: r, 0 => f a :: r
  | a :: r, S k' => a :: list_modify k' f r
  end.

(** Rewrite the node at path [p]. *)
Fixpoint modify_at (p : list nat) (f : node -> node) (n : node) : node :=
  match p with
  | [] => f n
  | k :: p' => set_kids (list_modify k (modify_at p' f) (kids n)) n
  end.

Definition modify_node (i : NodeRef) (f : node -> node) (d : node) : node :=
  match locate i d with Some p => modify_at p f d | None => d end.

(** [parentNode], [nextSibling], [previousSibling], by reference. *)
Definition parent_path (p : list nat) : option (list nat) :=
  match p with [] => None | _ => Some (removelast p) end.

Definition parentNode (d : node) (i : NodeRef) : option node :=
  match locate i d with
  | Some p => match parent_path p with
              | Some q => node_at q d
              | None => None
              end
  | None => None
  end.

(** [parentElement] is the parent when that is an element. *)
Definition parentElement (d : node) (i : NodeRef) : option node :=
  match parentNode d i with
  | Some n => if is_element n then Some n else None
  | None => None
  end.

Definition child_index (p : list nat) : nat := last p 0.

Definition nextSibling (d : node) (i : NodeRef) : option node :=
  match locate i d with
  | Some p => match parent_path p with
              | Some q => node_at (q ++ [S (child_index p)]) d
              | None => None
              end
  | None => None
  end.

Definition previousSibling (d : node) (i : NodeRef) : option node :=
  match locate i d with
  | Some p => match parent_path p, child_index p with
              | Some q, S k => node_at (q ++ [k]) d
              | _, _ => None
              end
  | None => None
  end.

(** Following and preceding siblings, nearest first. *)
Definition following_siblings (d : node) (i : NodeRef) : list node :=
  match locate i d with
  | Some p => match parentNode d i with
              | Some par => skipn (S (child_index p)) (kids par)
              | None => []
              end
  | None => []
  end.

Definition preceding_siblings (d : node) (i : NodeRef) : list node :=
  match locate i d with
  | Some p => match parentNode d i with
              | Some par => rev (firstn (child_index p) (kids par))
              | None => []
              end
  | None => []
  end.

(** Ancestors of a path, nearest first (the root last). *)
Fixpoint proper_prefixes (p : list nat) : list (list nat) :=
  match p with
  | [] => []
  | k :: p' => [] :: map (cons k) (proper_prefixes p')
  end.

Definition option_list {A : Type} (o : option A) : list A :=
  match o with Some a => [a] | None => [] end.

Definition ancestors (d : node) (i : NodeRef) : list node :=
  match locate i d with
  | Some p => flat_map (fun q => option_list (node_at q d)) (rev (proper_prefixes p))
  | None => []
  end.

(** All descendants of a node, in document order. *)
Fixpoint descendants (n : node) : list node :=
  match n with
  | Text _ _ => []
  | Elem _ _ _ _ ks => flat_map (fun c => c :: descendants c) ks
  end.

(** *** Boundary points and document order

    A boundary point (container, offset) is placed by the path of its
    container followed by the offset; boundary points compare
    lexicographically, a point on a node coming before the points inside
    the child it precedes. *)

Definition boundary_pos (d : node) (c : NodeRef) (o : nat) : option (list nat) :=
  match locate c d with Some p => Some (p ++ [o]) | None => None end.

Fixpoint compare_pos (a b : list nat) : comparison :=
  match a, b with
  | [], [] => Eq
  | [], _ :: _ => Lt
  | _ :: _, [] => Gt
  | x :: a', y :: b' =>
      match x ?= y with
      | Eq => compare_pos a' b'
      | c => c
      end
  end.

(** [dom.comparePoints(nodeA, offsetA, nodeB, offsetB)]. *)
Definition comparePoints (d : node) (a : NodeRef) (ao : nat) (b : NodeRef) (bo : nat)
  : option comparison :=
  match boundary_pos d a ao, boundary_pos d b bo with
  | Some pa, Some pb => Some (compare_pos pa pb)
  | _, _ => None
  end.

Fixpoint common_prefix (a b : list nat) : list nat :=
  match a, b with
  | x :: a', y :: b' => if x =? y then x :: common_prefix a' b' else []
  | _, _ => []
  end.

Fixpoint is_prefix (a b : list nat) : bool :=
  match a, b with
  | [], _ => true
  | x :: a', y :: b' => (x =? y) && is_prefix a' b'
  | _ :: _, [] => false
  end.

(** [a.contains(b)] for [a <> b]: [b] is a proper descendant of [a]. *)
Definition strictly_contains (d : node) (a b : NodeRef) : bool :=
  match locate a d, locate b d with
  | Some pa, Some pb => is_prefix pa pb && (List.length pa <? List.length pb)
  | _, _ => false
  end.

(** ** Markup

    A markup string ([innerHTML], the [html] arguments, the result of
    [fragmentToHtml]) is represented by the forest it denotes, without
    node identities.  Serialising a node list merges adjacent text and
    drops empty text, as the concatenated string does; parsing allocates
    new nodes. *)

#[warnings="-register-all"]
Inductive markup : Type :=
| MText (s : string)
| MElem (tag : string) (classes : list string) (attrs : list (string * string))
        (children : list markup).

Definition html := list markup.

Fixpoint outer (n : node) : markup :=
  match n with
  | Text _ d => MText d
  | Elem _ t c a ks => MElem t c a (map outer ks)
  end.

Fixpoint squash (l : list markup) : list markup :=
  match l with
  | [] => []
  | MText s :: r =>
      match s with
      | EmptyString => squash r
      | _ => match squash r with
             | MText s' :: r' => MText (s ++ s') :: r'
             | r' => MText s :: r'
             end
      end
  | m :: r => m :: squash r
  end.

Fixpoint normalize (m : markup) : markup :=
  match m with
  | MText s => MText s
  | MElem t c a ks => MElem t c a (squash (map normalize ks))
  end.

Definition serialize (ns : list node) : html :=
  squash (map (fun n => normalize (outer n)) ns).

Definition innerHTML (n : node) : html := serialize (kids n).
Definition outerHTML (n : node) : html := serialize [n].

(** Character data of markup: what [.text()] returns for the parsed nodes. *)
Fixpoint markup_text (m : markup) : string :=
  match m with
  | MText s => s
  | MElem _ _ _ ks => String.concat EmptyString (map markup_text ks)
  end.

Definition html_text (h : html) : string :=
  String.concat EmptyString (map markup_text h).

(** Parsing: one new node per markup node, numbered from [fresh] in
    document order. *)
Fixpoint instantiate (m : markup) (fresh : nat) : node * nat :=
  match m with
  | MText s => (Text fresh s, S fresh)
  | MElem t c a ks =>
      let '(ks', fresh') :=
        (fix go (ks : list markup) (f : nat) : list node * nat :=
           match ks with
           | [] => ([], f)
           | k :: r =>
               let '(n, f1) := instantiate k f in
               let '(ns, f2) := go r f1 in
               (n :: ns, f2)
           end) ks (S fresh) in
      (Elem fresh t c a ks', fresh')
  end.

Fixpoint parse (h : html) (fresh : nat) : list node * nat :=
  match h with
  | [] => ([], fresh)
  | m :: r =>
      let '(n, f1) := instantiate m fresh in
      let '(ns, f2) := parse r f1 in
      (n :: ns, f2)
  end.

(** The markup string itself, for display. *)
Definition dquote : string := String (ascii_of_nat 34) EmptyString.

Definition render_attr (a : string * string) : string :=
  (" " ++ fst a ++ "=" ++ dquote ++ snd a ++ dquote)%string.

Definition render_class (c : list string) : string :=
  match c with
  | [] => EmptyString
  | _ => (" class=" ++ dquote ++ String.concat " " c ++ dquote)%string
  end.

Fixpoint render (m : markup) : string :=
  match m with
  | MText s => s
  | MElem t c a ks =>
      ("<" ++ t ++ render_class c ++ String.concat EmptyString (map render_attr a) ++ ">"
        ++ String.concat EmptyString (map render ks) ++ "</" ++ t ++ ">")%string
  end.

Definition render_html (h : html) : string :=
  String.concat EmptyString (map render h).

(** ** rangy: ranges and selections *)

Record Range : Type := mkRange {
  startContainer : NodeRef;
  startOffset : nat;
  endContainer : NodeRef;
  endOffset : nat
}.

Definition range_eqb (a b : Range) : bool :=
  (startContainer a =? startContainer b) && (startOffset a =? startOffset b)
  && (endContainer a =? endContainer b) && (endOffset a =? endOffset b).

Definition collapsed (r : Range) : bool :=
  (startContainer r =? endContainer r) && (startOffset r =? endOffset r).

(** [range.commonAncestorContainer]. *)
Definition commonAncestorContainer (d : node) (r : Range) : option node :=
  match locate (startContainer r) d, locate (endContainer r) d with
  | Some ps, Some pe => node_at (common_prefix ps pe) d
  | _, _ => None
  end.

Record Selection : Type := mkSelection {
  anchorNode : option NodeRef;
  anchorOffset : nat;
  focusNode : option NodeRef;
  focusOffset : nat;
  ranges : list Range
}.

Definition rangeCount (s : Selection) : nat := List.length (ranges s).

Definition emptySelection : Selection := mkSelection None 0 None 0 [].

(** Anchor and focus are those of the last range; [backwards] exchanges
    its two ends. *)
Definition selection_of (rs : list Range) (backwards : bool) : Selection :=
  match rev rs with
  | [] => emptySelection
  | r :: _ =>
      if backwards
      then mkSelection (Some (endContainer r)) (endOffset r)
                       (Some (startContainer r)) (startOffset r) rs
      else mkSelection (Some (startContainer r)) (startOffset r)
                       (Some (endContainer r)) (endOffset r) rs
  end.

(** [selection.isBackwards()]: the anchor lies after the focus. *)
Definition isBackwards (d : node) (s : Selection) : bool :=
  match anchorNode s, focusNode s with
  | Some a, Some f =>
      match comparePoints d a (anchorOffset s) f (focusOffset s) with
      | Some Gt => true
      | _ => false
      end
  | _, _ => false
  end.

(** Markers left in the document by [rangy.saveSelection]. *)
Record RangeInfo : Type := mkRangeInfo {
  startMarkerId : string;
  endMarkerId : string;
  info_collapsed : bool
}.

(** ** The page: document, selections, the module variable [savedSelection]

    [rangy.getSelection()] is the selection of the main window; selections
    of other windows (frames) are distinct objects. *)

Inductive SelRef : Type := Win | Frame (k : nat).

Record World : Type := mkWorld {
  document : node;
  fresh : nat;
  windowSelection : Selection;
  frameSelections : list Selection;
  savedSelection : option (list RangeInfo)
}.

Definition get_sel (w : World) (s : SelRef) : Selection :=
  match s with
  | Win => windowSelection w
  | Frame k => nth k (frameSelections w) emptySelection
  end.

Fixpoint list_set {A : Type} (k : nat) (a : A) (l : list A) : list A :=
  match l, k with
  | [], _ => []
  | _ :: r, 0 => a :: r
  | x :: r, S k' => x :: list_set k' a r
  end.

Definition set_sel (w : World) (s : SelRef) (v : Selection) : World :=
  match s with
  | Win => mkWorld (document w) (fresh w) v (frameSelections w) (savedSelection w)
  | Frame k => mkWorld (document w) (fresh w) (windowSelection w)
                       (list_set k v (frameSelections w)) (savedSelection w)
  end.

Definition set_document (w : World) (d : node) : World :=
  mkWorld d (fresh w) (windowSelection w) (frameSelections w) (savedSelection w).

Definition set_fresh (w : World) (f : nat) : World :=
  mkWorld (document w) f (windowSelection w) (frameSelections w) (savedSelection w).

Definition set_saved (w : World) (s : option (list RangeInfo)) : World :=
  mkWorld (document w) (fresh w) (windowSelection w) (frameSelections w) s.

(** [rangy.getSelection()] always answers with a selection object. *)
Definition rangy_getSelection (w : World) : option SelRef := Some Win.

(** [a || b] on possibly absent objects. *)
Definition js_or {A : Type} (a b : option A) : option A :=
  match a with Some _ => a | None => b end.

(** [selection.getAllRanges()], [getRangeAt], [removeRange],
    [removeAllRanges], [addRange], [setSingleRange]. *)
Definition getAllRanges (w : World) (s : SelRef) : list Range := ranges (get_sel w s).

Definition getRangeAt (w : World) (s : SelRef) (i : nat) : outcome Range :=
  match nth_error (ranges (get_sel w s)) i with
  | Some r => Ret r
  | None => Throws "INDEX_SIZE_ERR"
  end.

Definition removeRange (s : SelRef) (r : Range) (w : World) : World :=
  set_sel w s (selection_of (filter (fun x => negb (range_eqb x r)) (ranges (get_sel w s))) false).

Definition removeAllRanges (s : SelRef) (w : World) : World := set_sel w s emptySelection.

Definition addRange (s : SelRef) (r : Range) (w : World) : World :=
  set_sel w s (selection_of (ranges (get_sel w s) ++ [r]) false).

Definition setSingleRange (s : SelRef) (r : Range) (w : World) : World :=
  set_sel w s (selection_of [r] false).

(** A property access on a reference: the node must be in the document. *)
Definition deref (w : World) (i : NodeRef) : outcome node :=
  match getNode (document w) i with
  | Some n => Ret n
  | None => Throws "node is not in the document"
  end.

(** A property access through a value that may be [null]. *)
Definition nonnull {A : Type} (o : option A) : outcome A :=
  match o with
  | Some a => Ret a
  | None => Throws "TypeError"
  end.

(** ** jQuery objects: lists of node references *)

Definition jq := list NodeRef.

Definition jq_of (o : option node) : jq :=
  match o with Some n => [node_id n] | None => [] end.

(** [$(x)[0]]: [undefined] for an empty object. *)
Definition jq_first (j : jq) : option NodeRef := hd_error j.

(** ** DOM ranges: extracting, cloning and inserting content

    Positions are paths that end in an offset. *)

Fixpoint str_take (k : nat) (s : string) : string :=
  match k, s with
  | S k', String c r => String c (str_take k' r)
  | _, _ => EmptyString
  end.

Fixpoint str_drop (k : nat) (s : string) : string :=
  match k, s with
  | S k', String c r => str_drop k' r
  | _, _ => s
  end.

(** [split_node keep_left p n fresh] cuts [n] at position [p] into the part
    before and the part after [p].  The nodes cut through exist twice
    afterwards: the original keeps the left part when [keep_left] (the
    right part otherwise) and the other part hangs under clones, numbered
    from [fresh]. *)
Fixpoint split_node (keep_left : bool) (p : list nat) (n : node) (fresh : nat)
  : node * node * nat :=
  let here (k : nat) :=
    match n with
    | Text i d =>
        if keep_left
        then (Text i (str_take k d), Text fresh (str_drop k d), S fresh)
        else (Text fresh (str_take k d), Text i (str_drop k d), S fresh)
    | Elem i t c a ks =>
        if keep_left
        then (Elem i t c a (firstn k ks), Elem fresh t c a (skipn k ks), S fresh)
        else (Elem fresh t c a (firstn k ks), Elem i t c a (skipn k ks), S fresh)
    end in
  match p with
  | [] => here 0
  | [k] => here k
  | k :: p' =>
      match n with
      | Text _ _ => here k
      | Elem i t c a ks =>
          match nth_error ks k with
          | None => here k
          | Some child =>
              let '(l, r, f) := split_node keep_left p' child (S fresh) in
              if keep_left
              then (Elem i t c a (firstn k ks ++ [l]), Elem fresh t c a (r :: skipn (S k) ks), f)
              else (Elem fresh t c a (firstn k ks ++ [l]), Elem i t c a (r :: skipn (S k) ks), f)
          end
      end
  end.

(** The contents between two positions of a node are taken out of it
    ([Range.extractContents], for a range that is not collapsed).  Fully
    contained nodes move to the fragment; a partially contained node
    stays, and a clone of it receives its contained part.  The result is
    the node that remains, the fragment, and the position to which the
    range collapses. *)
Fixpoint extract_in (s e : list nat) (n : node) (fresh : nat) {struct s}
  : node * list node * list nat * nat :=
  let unchanged := (n, [], s, fresh) in
  match s, e with
  | [a], [b] =>
      match n with
      | Text i d =>
          (Text i (str_take a d ++ str_drop b d),
           [Text fresh (str_take (b - a) (str_drop a d))], [a], S fresh)
      | Elem i t c at_ ks =>
          (Elem i t c at_ (firstn a ks ++ skipn b ks),
           firstn (b - a) (skipn a ks), [a], fresh)
      end
  | [a], j :: e' =>
      match nth_error (kids n) j with
      | Some cj =>
          let '(l, r, f) := split_node false e' cj fresh in
          (set_kids (firstn a (kids n) ++ r :: skipn (S j) (kids n)) n,
           firstn (j - a) (skipn a (kids n)) ++ [l], [a], f)
      | None => unchanged
      end
  | i :: s', [b] =>
      match nth_error (kids n) i with
      | Some ci =>
          let '(l, r, f) := split_node true s' ci fresh in
          (set_kids (firstn i (kids n) ++ l :: skipn b (kids n)) n,
           r :: firstn (b - S i) (skipn (S i) (kids n)), [S i], f)
      | None => unchanged
      end
  | i :: s', j :: e' =>
      match nth_error (kids n) i, nth_error (kids n) j with
      | Some ci, Some cj =>
          if i =? j then
            let '(ci', frag, pos, f) := extract_in s' e' ci fresh in
            (set_kids (list_set i ci' (kids n)) n, frag, i :: pos, f)
          else if i <? j then
            let '(l1, r1, f1) := split_node true s' ci fresh in
            let '(l2, r2, f2) := split_node false e' cj f1 in
            (set_kids (firstn i (kids n) ++ l1 :: r2 :: skipn (S j) (kids n)) n,
             r1 :: firstn (j - S i) (skipn (S i) (kids n)) ++ [l2], [S i], f2)
          else unchanged
      | _, _ => unchanged
      end
  | _, _ => unchanged
  end.

(** A position as a boundary point of document [d]. *)
Definition boundary_of_pos (d : node) (pos : list nat) : option (NodeRef * nat) :=
  match pos with
  | [] => None
  | _ => match node_at (removelast pos) d with
         | Some c => Some (node_id c, last pos 0)
         | None => None
         end
  end.

Definition collapsed_at (b : NodeRef * nat) : Range :=
  mkRange (fst b) (snd b) (fst b) (snd b).

(** [range.extractContents()]: the fragment, the range afterwards (it is
    collapsed), the page afterwards. *)
Definition extractContents (r : Range) (w : World) : outcome (list node * Range * World) :=
  if collapsed r then Ret ([], r, w) else
  match boundary_pos (document w) (startContainer r) (startOffset r),
        boundary_pos (document w) (endContainer r) (endOffset r) with
  | Some s, Some e =>
      let '(d', frag, pos, f) := extract_in s e (document w) (fresh w) in
      match boundary_of_pos d' pos with
      | Some b => Ret (frag, collapsed_at b, set_fresh (set_document w d') f)
      | None => Throws "range is not in the document"
      end
  | _, _ => Throws "range is not in the document"
  end.

(** [node.cloneNode(true)] of each node of a list. *)
Definition clone_nodes (ns : list node) (fresh : nat) : list node * nat :=
  parse (map outer ns) fresh.

(** [range.cloneContents()]: a copy of what [extractContents] would take
    out; the document is left as it is. *)
Definition cloneContents (r : Range) (w : World) : outcome (list node * World) :=
  if collapsed r then Ret ([], w) else
  match boundary_pos (document w) (startContainer r) (startOffset r),
        boundary_pos (document w) (endContainer r) (endOffset r) with
  | Some s, Some e =>
      let '(_, frag, _, f) := extract_in s e (document w) (fresh w) in
      let '(copy, f') := clone_nodes frag f in
      Ret (copy, set_fresh w f')
  | _, _ => Throws "range is not in the document"
  end.

(** Insert nodes at a position.  In an element they go between its
    children; a text node is split at the offset (its second part becomes
    a new text node) and the nodes go between the two parts.  The result
    also gives the position just after the inserted nodes. *)
Definition insert_nodes_at (pos : list nat) (ns : list node) (d : node) (fresh : nat)
  : option (node * list nat * nat) :=
  match pos with
  | [] => None
  | _ =>
      let q := removelast pos in
      let o := last pos 0 in
      match node_at q d with
      | Some (Elem _ _ _ _ _) =>
          Some (modify_at q (fun c => set_kids (firstn o (kids c) ++ ns ++ skipn o (kids c)) c) d,
                q ++ [o + List.length ns], fresh)
      | Some (Text i dat) =>
          match q with
          | [] => None
          | _ =>
              let pq := removelast q in
              let k := last q 0 in
              Some (modify_at pq (fun c =>
                      set_kids (firstn k (kids c)
                                ++ Text i (str_take o dat) :: ns
                                ++ Text fresh (str_drop o dat) :: skipn (S k) (kids c)) c) d,
                    pq ++ [S k + List.length ns], S fresh)
          end
      | None => None
      end
  end.

(** [range.insertNode(node)] ([node] may be a fragment): insertion at the
    start of the range; a collapsed range then ends after the inserted
    nodes. *)
Definition insertNode (r : Range) (ns : list node) (w : World) : outcome (Range * World) :=
  match boundary_pos (document w) (startContainer r) (startOffset r) with
  | Some pos =>
      match insert_nodes_at pos ns (document w) (fresh w) with
      | Some (d', after, f) =>
          let w' := set_fresh (set_document w d') f in
          if collapsed r then
            match boundary_of_pos d' after with
            | Some b => Ret (mkRange (startContainer r) (startOffset r) (fst b) (snd b), w')
            | None => Ret (r, w')
            end
          else Ret (r, w')
      | None => Throws "HIERARCHY_REQUEST_ERR"
      end
  | None => Throws "range is not in the document"
  end.

(** The boundary points just before and just after a node. *)
Definition point_before (d : node) (i : NodeRef) : option (NodeRef * nat) :=
  match locate i d, parentNode d i with
  | Some p, Some par => Some (node_id par, child_index p)
  | _, _ => None
  end.

Definition point_after (d : node) (i : NodeRef) : option (NodeRef * nat) :=
  match locate i d, parentNode d i with
  | Some p, Some par => Some (node_id par, S (child_index p))
  | _, _ => None
  end.

Definition point_leb (d : node) (a b : NodeRef * nat) : bool :=
  match comparePoints d (fst a) (snd a) (fst b) (snd b) with
  | Some Gt => false
  | Some _ => true
  | None => false
  end.

(** [range.setStart], [range.setEnd]: a boundary set beyond the other one
    collapses the range onto it. *)
Definition setStart (d : node) (r : Range) (b : NodeRef * nat) : Range :=
  if point_leb d b (endContainer r, endOffset r)
  then mkRange (fst b) (snd b) (endContainer r) (endOffset r)
  else collapsed_at b.

Definition setEnd (d : node) (r : Range) (b : NodeRef * nat) : Range :=
  if point_leb d (startContainer r, startOffset r) b
  then mkRange (startContainer r) (startOffset r) (fst b) (snd b)
  else collapsed_at b.

Definition setEndAfter (r : Range) (i : NodeRef) (w : World) : outcome Range :=
  match point_after (document w) i with
  | Some b => Ret (setEnd (document w) r b)
  | None => Throws "INVALID_NODE_TYPE_ERR"
  end.

Definition setStartBefore (r : Range) (i : NodeRef) (w : World) : outcome Range :=
  match point_before (document w) i with
  | Some b => Ret (setStart (document w) r b)
  | None => Throws "INVALID_NODE_TYPE_ERR"
  end.

Definition collapseAfter (i : NodeRef) (w : World) : outcome Range :=
  match point_after (document w) i with
  | Some b => Ret (collapsed_at b)
  | None => Throws "INVALID_NODE_TYPE_ERR"
  end.

(** [range.selectNodeContents(node)] and [range.collapse(toStart)]. *)
Definition selectNodeContents (n : node) : Range :=
  mkRange (node_id n) 0 (node_id n) (node_length n).

Definition collapse (r : Range) (toStart : bool) : Range :=
  if toStart then collapsed_at (startContainer r, startOffset r)
  else collapsed_at (endContainer r, endOffset r).

(** ** rangy: saving and restoring the selection with marker elements

    [rangy.saveSelection] puts an invisible [span] at each boundary of each
    range (the later ranges first, the end of a range before its start) and
    then sets each range between its markers.  [rangy.restoreSelection]
    finds the markers by their [id] attribute, sets the ranges where the
    markers are and takes the markers out.  (It also merges the text nodes
    that meet at the boundaries; the markup is the same with and without
    that step, which is left out.) *)

Definition zwnbsp : string :=
  String (ascii_of_nat 239) (String (ascii_of_nat 187) (String (ascii_of_nat 191) EmptyString)).

Fixpoint digits (fuel n : nat) (acc : string) : string :=
  match fuel with
  | 0 => acc
  | S fuel' =>
      let acc' := String (ascii_of_nat (48 + n mod 10)) acc in
      if n / 10 =? 0 then acc' else digits fuel' (n / 10) acc'
  end.

Definition marker_id (k : nat) : string :=
  ("selectionBoundary_" ++ digits (S k) k EmptyString)%string.

Definition marker_class : string := "rangySelectionBoundary".

Definition new_marker (fresh : nat) : node * nat :=
  (Elem fresh "span" [marker_class]
     [("id", marker_id fresh); ("style", "line-height: 0; display: none;")]
     [Text (S fresh) zwnbsp],
   S (S fresh))%string.

Definition attr_lookup (name : string) (a : list (string * string)) : option string :=
  match find (fun kv => String.eqb (fst kv) name) a with
  | Some kv => Some (snd kv)
  | None => None
  end.

(** [document.getElementById]. *)
Definition getElementById (d : node) (id : string) : option node :=
  find (fun n => match attr_lookup "id" (attrs_of n) with
                 | Some v => String.eqb v id
                 | None => false
                 end) (d :: descendants d).

Definition insertRangeBoundaryMarker (r : Range) (atStart : bool) (w : World)
  : outcome (string * World) :=
  let boundaryRange := collapse r atStart in
  let '(markerEl, f) := new_marker (fresh w) in
  let* (_, w') := insertNode boundaryRange [markerEl] (set_fresh w f) in
  Ret (marker_id (fresh w), w').

Definition saveRange (r : Range) (w : World) : outcome (RangeInfo * World) :=
  if collapsed r then
    let* (endId, w1) := insertRangeBoundaryMarker r false w in
    Ret (mkRangeInfo endId endId true, w1)
  else
    let* (endId, w1) := insertRangeBoundaryMarker r false w in
    let* (startId, w2) := insertRangeBoundaryMarker r true w1 in
    Ret (mkRangeInfo startId endId false, w2).

(** [ranges.sort(compareRanges)]: the later starts first. *)
Definition starts_after (d : node) (a b : Range) : bool :=
  match comparePoints d (startContainer a) (startOffset a) (startContainer b) (startOffset b) with
  | Some Gt => true
  | _ => false
  end.

Fixpoint insert_sorted (d : node) (r : Range) (l : list Range) : list Range :=
  match l with
  | [] => [r]
  | x :: l' => if starts_after d x r then x :: insert_sorted d r l' else r :: x :: l'
  end.

Definition sort_latest_first (d : node) (l : list Range) : list Range :=
  fold_right (insert_sorted d) [] l.

Fixpoint saveRanges_mark (rs : list Range) (w : World) : outcome (list RangeInfo * World) :=
  match rs with
  | [] => Ret ([], w)
  | r :: rest =>
      let* (info, w1) := saveRange r w in
      let* (infos, w2) := saveRanges_mark rest w1 in
      Ret (info :: infos, w2)
  end.

(** The range between the markers of [info]. *)
Definition range_between_markers (d : node) (info : RangeInfo) : option Range :=
  match getElementById d (startMarkerId info), getElementById d (endMarkerId info) with
  | Some sm, Some em =>
      if info_collapsed info then
        match point_after d (node_id em) with
        | Some b => Some (collapsed_at b)
        | None => None
        end
      else
        match point_after d (node_id sm), point_before d (node_id em) with
        | Some bs, Some be => Some (mkRange (fst bs) (snd bs) (fst be) (snd be))
        | _, _ => None
        end
  | _, _ => None
  end.

Definition rangy_saveSelection (w : World) : outcome (list RangeInfo * World) :=
  let rs := sort_latest_first (document w) (getAllRanges w Win) in
  let* (infos, w1) := saveRanges_mark rs w in
  let adjusted := flat_map (fun i => option_list (range_between_markers (document w1) i)) (rev infos) in
  Ret (infos, set_sel w1 Win (selection_of adjusted false)).

(** Take a node out of its parent. *)
Definition remove_node (i : NodeRef) (d : node) : node :=
  match locate i d with
  | Some p =>
      match parent_path p with
      | Some q => modify_at q (fun c => set_kids (firstn (child_index p) (kids c)
                                                    ++ skipn (S (child_index p)) (kids c)) c) d
      | None => d
      end
  | None => d
  end.

(** [setRangeBoundary]: the boundary is set before the marker and the
    marker removed; without the marker nothing happens. *)
Definition setRangeBoundary (r : Range) (markerId : string) (atStart : bool) (d : node)
  : Range * node :=
  match getElementById d markerId with
  | Some m =>
      match point_before d (node_id m) with
      | Some b => (if atStart then setStart d r b else setEnd d r b, remove_node (node_id m) d)
      | None => (r, d)
      end
  | None => (r, d)
  end.

Definition restoreRange (info : RangeInfo) (d : node) : Range * node :=
  let range := collapsed_at (node_id d, 0) in
  if info_collapsed info then
    match getElementById d (endMarkerId info) with
    | Some m =>
        match previousSibling d (node_id m) with
        | Some (Text i dat) =>
            (collapsed_at (i, String.length dat), remove_node (node_id m) d)
        | _ =>
            match point_before d (node_id m) with
            | Some b => (collapsed_at b, remove_node (node_id m) d)
            | None => (range, d)
            end
        end
    | None => (range, d)
    end
  else
    let '(r1, d1) := setRangeBoundary range (startMarkerId info) true d in
    setRangeBoundary r1 (endMarkerId info) false d1.

(** The ranges are restored earliest first, that is, last saved first. *)
Fixpoint restoreRanges (infos : list RangeInfo) (d : node) : list Range * node :=
  match infos with
  | [] => ([], d)
  | info :: rest =>
      let '(r, d1) := restoreRange info d in
      let '(rs, d2) := restoreRanges rest d1 in
      (r :: rs, d2)
  end.

Definition rangy_restoreSelection (infos : list RangeInfo) (w : World) : World :=
  let '(rs, d) := restoreRanges (rev infos) (document w) in
  set_sel (set_document w d) Win (selection_of rs false).

(** [rangy.removeMarkers]. *)
Definition rangy_removeMarkers (infos : list RangeInfo) (w : World) : World :=
  let drop (id : string) (d : node) :=
    match getElementById d id with
    | Some m => remove_node (node_id m) d
    | None => d
    end in
  set_document w
    (fold_left (fun d info => drop (endMarkerId info) (drop (startMarkerId info) d))
               infos (document w)).

(** ** jQuery traversal and manipulation *)

Definition jq_mem (i : NodeRef) (j : jq) : bool := existsb (Nat.eqb i) j.

(** [a.is(b)] for a jQuery object or an element [b]. *)
Definition jq_is (a b : jq) : bool := existsb (fun i => jq_mem i b) a.

(** A selector that is a comma-separated list of tag names. *)
Definition selector := list string.

(** Tag names are compared without regard to case. *)
Definition ascii_lower (c : ascii) : ascii :=
  let k := nat_of_ascii c in
  if (65 <=? k) && (k <=? 90) then ascii_of_nat (k + 32) else c.

Fixpoint string_lower (s : string) : string :=
  match s with
  | EmptyString => EmptyString
  | String c r => String (ascii_lower c) (string_lower r)
  end.

Definition matches (sel : selector) (n : node) : bool :=
  is_element n
  && existsb (fun t => String.eqb (string_lower (tag_of n)) (string_lower t)) sel.

Definition elements_only (l : list node) : list node := filter is_element l.

(** [$(n).filter(selector)]. *)
Definition jq_filter (d : node) (sel : selector) (j : jq) : jq :=
  flat_map (fun i => match getNode d i with
                     | Some n => if matches sel n then [i] else []
                     | None => []
                     end) j.

Fixpoint take_until {A : Type} (stop : A -> bool) (l : list A) : list A :=
  match l with
  | [] => []
  | a :: r => if stop a then [] else a :: take_until stop r
  end.

(** [$(n).parentsUntil(until, selector)]: the ancestors below the first one
    that is [until], nearest first, those matching the selector. *)
Definition jq_parentsUntil (d : node) (i : NodeRef) (until : jq) (sel : selector) : jq :=
  map node_id
    (filter (matches sel)
       (take_until (fun n => jq_mem (node_id n) until) (elements_only (ancestors d i)))).

(** [$(n).find(selector)]. *)
Definition jq_find (d : node) (i : NodeRef) (sel : selector) : jq :=
  match getNode d i with
  | Some n => map node_id (filter (matches sel) (descendants n))
  | None => []
  end.

(** [$(n).next()], [$(n).prevAll()], [$(n).nextUntil(until)]. *)
Definition jq_next (d : node) (i : NodeRef) : jq :=
  match elements_only (following_siblings d i) with
  | n :: _ => [node_id n]
  | [] => []
  end.

Definition jq_prevAll (d : node) (i : NodeRef) : jq :=
  map node_id (elements_only (preceding_siblings d i)).

Definition jq_nextUntil (d : node) (i : NodeRef) (until : jq) : jq :=
  map node_id
    (take_until (fun n => jq_mem (node_id n) until) (elements_only (following_siblings d i))).

(** [j.has(target)]: the members that contain [target]. *)
Definition jq_has (d : node) (j : jq) (target : NodeRef) : jq :=
  filter (fun i => strictly_contains d i target) j.

(** [jQuery.unique]: no duplicates, document order. *)
Definition doc_leb (d : node) (a b : NodeRef) : bool :=
  match locate a d, locate b d with
  | Some pa, Some pb => match compare_pos pa pb with Gt => false | _ => true end
  | _, _ => true
  end.

Fixpoint insert_doc (d : node) (i : NodeRef) (l : jq) : jq :=
  match l with
  | [] => [i]
  | x :: l' => if doc_leb d i x then i :: x :: l' else x :: insert_doc d i l'
  end.

Definition jq_unique (d : node) (j : jq) : jq :=
  fold_right (insert_doc d) [] (nodup Nat.eq_dec j).

(** [a.add(b)]; [andSelf] adds the set the traversal started from. *)
Definition jq_add (d : node) (a b : jq) : jq := jq_unique d (a ++ b).

(** [$(n).parent()]. *)
Definition jq_parent (d : node) (j : jq) : jq :=
  nodup Nat.eq_dec (flat_map (fun i => jq_of (parentNode d i)) j).

(** Classes.  [value] is a string of class names separated by white space. *)
Definition is_space (c : ascii) : bool :=
  let k := nat_of_ascii c in
  (k =? 32) || (k =? 9) || (k =? 10) || (k =? 13) || (k =? 12).

Fixpoint words_from (cur : string) (s : string) : list string :=
  let flush (rest : list string) :=
    match cur with EmptyString => rest | _ => cur :: rest end in
  match s with
  | EmptyString => flush []
  | String c r =>
      if is_space c then flush (words_from EmptyString r)
      else words_from (cur ++ String c EmptyString) r
  end.

Definition words (s : string) : list string := words_from EmptyString s.

(** [classes.join(' ')]. *)
Definition join_space (l : list string) : string := String.concat " " l.

Definition has_class (n : node) (c : string) : bool :=
  existsb (String.eqb c) (classes_of n).

Definition hasClass (d : node) (i : NodeRef) (c : string) : bool :=
  match getNode d i with
  | Some n => has_class n c
  | None => false
  end.

Definition set_classes (cs : list string) (n : node) : node :=
  match n with Text _ _ => n | Elem i t _ a ks => Elem i t cs a ks end.

Definition add_classes (cs : list string) (n : node) : node :=
  set_classes (fold_left (fun acc c => if existsb (String.eqb c) acc then acc else acc ++ [c])
                         cs (classes_of n)) n.

Definition remove_classes (cs : list string) (n : node) : node :=
  set_classes (filter (fun c => negb (existsb (String.eqb c) cs)) (classes_of n)) n.

Definition jq_addClass (value : string) (j : jq) (d : node) : node :=
  fold_left (fun d i => modify_node i (add_classes (words value)) d) j d.

Definition jq_removeClass (value : string) (j : jq) (d : node) : node :=
  fold_left (fun d i => modify_node i (remove_classes (words value)) d) j d.

(** Attributes. *)
Definition set_attr (name value : string) (n : node) : node :=
  match n with
  | Text _ _ => n
  | Elem i t c a ks =>
      Elem i t c
        (match attr_lookup name a with
         | Some _ => map (fun kv => if String.eqb (fst kv) name then (name, value) else kv) a
         | None => a ++ [(name, value)]
         end) ks
  end.

Definition remove_attr (name : string) (n : node) : node :=
  match n with
  | Text _ _ => n
  | Elem i t c a ks => Elem i t c (filter (fun kv => negb (String.eqb (fst kv) name)) a) ks
  end.

Definition set_tag (t : string) (n : node) : node :=
  match n with Text _ _ => n | Elem i _ c a ks => Elem i t c a ks end.

(** [$(n).html()]: the inner markup of an element, nothing for a text
    node. *)
Definition jq_html (n : node) : option html :=
  match n with
  | Elem _ _ _ _ ks => Some (serialize ks)
  | Text _ _ => None
  end.

(** [jQuery.contains(a, b)]; the access [a.nodeType] fails on
    [undefined]. *)
Definition jq_contains (d : node) (a : option NodeRef) (b : option NodeRef) : outcome bool :=
  match a with
  | None => Throws "TypeError"
  | Some a' => match b with
               | Some b' => Ret (strictly_contains d a' b')
               | None => Ret false
               end
  end.

(** ** Helpers of the editor that live outside [selection.js] *)

(** Modelled from the spec: [elementClosestBlock] ([element.js] is not among
    the sources).  Walk up from the element towards the limit until a
    block-level element is found, block-level being any element whose
    [display] is not [inline]; nothing is found once the limit is
    reached. *)
Fixpoint closest_block (css_display : node -> string) (limit : jq) (chain : list node)
  : option jq :=
  match chain with
  | [] => None
  | n :: up =>
      if jq_mem (node_id n) limit then None
      else if is_element n && negb (String.eqb (css_display n) "inline") then Some [node_id n]
      else closest_block css_display limit up
  end.

Definition elementClosestBlock (css_display : node -> string) (d : node)
    (element limitElement : jq) : option jq :=
  match jq_first element with
  | Some i =>
      match getNode d i with
      | Some n => closest_block css_display limitElement (n :: ancestors d i)
      | None => None
      end
  | None => None
  end.

(** The tag a wrapper gets from an optional tag name: string
    concatenation turns [undefined] into the text [undefined]. *)
Definition wrapper_tag (tag : option string) : string :=
  match tag with Some t => t | None => "undefined"%string end.

(** Modelled from the spec: [elementWrapInner] ([element.js] is not among
    the sources).  The entire content of the element is wrapped in a new
    element of the given tag; the result is that wrapper. *)
Definition elementWrapInner (element : jq) (tag : option string) (w : World)
  : outcome (NodeRef * World) :=
  match jq_first element with
  | Some l =>
      match getNode (document w) l with
      | Some (Elem _ _ _ _ ks) =>
          let wrapper := Elem (fresh w) (wrapper_tag tag) [] [] ks in
          Ret (fresh w,
               set_fresh (set_document w (modify_node l (set_kids [wrapper]) (document w)))
                         (S (fresh w)))
      | _ => Throws "TypeError"
      end
  | None => Throws "TypeError"
  end.

(** Modelled from the spec: [elementIsValid] ([element.js] is not among the
    sources): the tag of the element is a member of the valid tag
    names. *)
Definition elementIsValid (element : option NodeRef) (validTagNames : list string) (w : World)
  : outcome bool :=
  let* i := nonnull element in
  let* n := deref w i in
  Ret (existsb (String.eqb (tag_of n)) validTagNames).

(** Modelled from the spec: [elementChangeTag] ([element.js] is not among
    the sources): every element of the set gets the new tag name and keeps
    its attributes and children. *)
Definition elementChangeTag (elements : jq) (newTag : string) (w : World) : World :=
  set_document w (fold_left (fun d i => modify_node i (set_tag newTag) d) elements (document w)).

(** Modelled from the spec: [fragmentToHtml] and [elementOuterHtml]
    ([fragment.js], [element.js] are not among the sources): the markup of
    a node list. *)
Definition fragmentToHtml (fragment : list node) : html := serialize fragment.
Definition elementOuterHtml (elements : list node) : html := serialize elements.

(** Concatenation of markup strings. *)
Definition html_concat (a b : html) : html := squash (a ++ b).

(** A range object changed in place is the range the selections hold. *)
Definition update_selection_range (old new : Range) (s : Selection) : Selection :=
  mkSelection (anchorNode s) (anchorOffset s) (focusNode s) (focusOffset s)
    (map (fun r => if range_eqb r old then new else r) (ranges s)).

Definition update_range (old new : Range) (w : World) : World :=
  mkWorld (document w) (fresh w)
    (update_selection_range old new (windowSelection w))
    (map (update_selection_range old new) (frameSelections w))
    (savedSelection w).

(** Modelled from the spec: [rangeReplace] ([range.js] is not among the
    sources).  The contents of the range are extracted and discarded, the
    content is inserted at the former start, the range collapses to just
    after the inserted content; the result is the inserted nodes. *)
Definition rangeReplace (content : html) (r : Range) (w : World) : outcome (jq * World) :=
  let* (_, r1, w1) := extractContents r w in
  let '(ns, f) := parse content (fresh w1) in
  let* (r2, w2) := insertNode r1 ns (set_fresh w1 f) in
  let r3 := collapse r2 false in
  Ret (map node_id ns, update_range r r3 w2).

(** Modelled from the spec: [rangeExpandToParent] ([range.js] is not among
    the sources): the range is widened to enclose the nearest containing
    element that is not empty. *)
Definition rangeExpandToParent (r : Range) (w : World) : Range :=
  match getNode (document w) (startContainer r) with
  | Some n =>
      match find (fun a => is_element a && negb (List.length (kids a) =? 0))
                 (n :: ancestors (document w) (startContainer r)) with
      | Some a =>
          match point_before (document w) (node_id a), point_after (document w) (node_id a) with
          | Some b, Some e => mkRange (fst b) (snd b) (fst e) (snd e)
          | _, _ => r
          end
      | None => r
      end
  | None => r
  end.

(** ** [selection.js] *)

(** [selectionSave(overwrite)]. *)
Definition selectionSave (overwrite : bool) (w : World) : outcome World :=
  match savedSelection w with
  | Some _ => if overwrite
              then let* (infos, w') := rangy_saveSelection w in Ret (set_saved w' (Some infos))
              else Ret w
  | None => let* (infos, w') := rangy_saveSelection w in Ret (set_saved w' (Some infos))
  end.

(** [selectionRestore()]. *)
Definition selectionRestore (w : World) : World :=
  match savedSelection w with
  | Some infos => set_saved (rangy_restoreSelection infos w) None
  | None => w
  end.

(** [selectionDestroy()]. *)
Definition selectionDestroy (w : World) : World :=
  match savedSelection w with
  | Some infos => set_saved (rangy_removeMarkers infos w) None
  | None => set_saved w None
  end.

(** [selectionSaved()]. *)
Definition selectionSaved (w : World) : bool :=
  match savedSelection w with Some _ => true | None => false end.

(** [selectionEachRange(callback, selection, context)].  [L] holds the
    variables the callback closes over. *)
Definition selectionEachRange {L : Type}
    (callback : Range -> L * World -> outcome (L * World))
    (selection : option SelRef) (fuel : nat) (st : L * World) : outcome (L * World) :=
  match js_or selection (rangy_getSelection (snd st)) with
  | Some sel => eachRange_from (fun st => getAllRanges (snd st) sel) callback fuel 0 st
  | None => Throws "TypeError"
  end.

(** A callback that also records the range it is called with, in a
    further variable of the closure. *)
Definition with_log {L : Type} (callback : Range -> L * World -> outcome (L * World))
    (range : Range) (st : (L * list Range) * World) : outcome ((L * list Range) * World) :=
  let* st' := callback range (fst (fst st), snd st) in
  Ret ((fst st', snd (fst st) ++ [range]), snd st').

(** [selectionSet(mixed)]. *)
Definition selectionSet (mixed : Range) (w : World) : World := setSingleRange Win mixed w.

(** [Array.prototype.concat]: a new array; the receiver stays as it is. *)
Definition Array_concat {A : Type} (a b : list A) : list A := a ++ b.

(** [selectionReplace(html, selection)].  The value of [result.concat(...)]
    is not stored. *)
Definition selectionReplace (content : html) (selection : option SelRef) (fuel : nat)
    (w : World) : outcome (list NodeRef * World) :=
  let result : list NodeRef := [] in
  selectionEachRange
    (fun range st =>
       let result := fst st in
       let* (replaced, w') := rangeReplace content range (snd st) in
       let _ := Array_concat result replaced in
       Ret (result, w'))
    selection fuel (result, w).

(** [selectionSelectEdge(element, selection, start)]. *)
Definition selectionSelectEdge (element : jq) (selection : option SelRef) (start : bool)
    (w : World) : outcome World :=
  let* sel := nonnull (js_or selection (rangy_getSelection w)) in
  let w0 := removeAllRanges sel w in
  Ret (fold_left
         (fun w i =>
            match getNode (document w) i with
            | Some n => addRange sel (collapse (selectNodeContents n) start) w
            | None => w
            end) element w0).

(** [selectionSelectEnd(element, selection)]. *)
Definition selectionSelectEnd (element : jq) (selection : option SelRef) (w : World)
  : outcome World :=
  selectionSelectEdge element selection false w.

(** [selectionSelectStart(element, selection)]. *)
Definition selectionSelectStart (element : jq) (selection : option SelRef) (w : World)
  : outcome World :=
  selectionSelectEdge element selection true w.

(** [selectionGetElement(range)]. *)
Definition selectionGetElement (range : option Range) (w : World) : outcome jq :=
  let* range :=
    match range with
    | Some r => Ret r
    | None => let* sel := nonnull (rangy_getSelection w) in getRangeAt w sel 0
    end in
  match commonAncestorContainer (document w) range with
  | Some cac =>
      let commonAncestor :=
        if nodeType cac =? TEXT_NODE
        then parentNode (document w) (node_id cac)
        else Some cac in
      Ret (jq_of commonAncestor)
  | None => Throws "range is not in the document"
  end.

(** [selectionGetElements(selection)]: one entry per range, [undefined]
    where [selectionGetElement] gave an empty object. *)
Definition selectionGetElements (selection : option SelRef) (fuel : nat) (w : World)
  : outcome (list (option NodeRef) * World) :=
  let result : list (option NodeRef) := [] in
  selectionEachRange
    (fun range st =>
       let* e := selectionGetElement (Some range) (snd st) in
       Ret (fst st ++ [jq_first e], snd st))
    selection fuel (result, w).

(** [selectionGetStartElement()]: [null] without a selection. *)
Definition selectionGetStartElement (w : World) : outcome (option jq) :=
  let* sel := nonnull (rangy_getSelection w) in
  let selection := get_sel w sel in
  match anchorNode selection with
  | None => Ret None
  | Some anchor =>
      if isBackwards (document w) selection then
        let* focus := nonnull (focusNode selection) in
        let* n := deref w focus in
        Ret (Some (if nodeType n =? TEXT_NODE
                   then jq_of (parentElement (document w) focus)
                   else [focus]))
      else
        let* n := deref w anchor in
        Ret (Some (if nodeType n =? TEXT_NODE
                   then jq_of (parentElement (document w) anchor)
                   else [anchor]))
  end.

(** [selectionGetEndElement()]. *)
Definition selectionGetEndElement (w : World) : outcome (option jq) :=
  let* sel := nonnull (rangy_getSelection w) in
  let selection := get_sel w sel in
  match anchorNode selection with
  | None => Ret None
  | Some anchor =>
      if isBackwards (document w) selection then
        let* n := deref w anchor in
        Ret (Some (if nodeType n =? TEXT_NODE
                   then jq_of (parentElement (document w) anchor)
                   else [anchor]))
      else
        let* focus := nonnull (focusNode selection) in
        let* n := deref w focus in
        Ret (Some (if nodeType n =? TEXT_NODE
                   then jq_of (parentElement (document w) focus)
                   else [focus]))
  end.

(** [!previous || $(previous).html() === ''] *)
Definition absent_or_empty (sibling : option node) : bool :=
  match sibling with
  | None => true
  | Some n => match jq_html n with
              | Some [] => true
              | _ => false
              end
  end.

(** [selectionAtEndOfElement()]. *)
Definition selectionAtEndOfElement (w : World) : outcome bool :=
  let* sel := nonnull (rangy_getSelection w) in
  let selection := get_sel w sel in
  let focusNode_ :=
    if isBackwards (document w) selection then anchorNode selection else focusNode selection in
  let focusOffset_ :=
    if isBackwards (document w) selection then focusOffset selection else anchorOffset selection in
  let* f := nonnull focusNode_ in
  let* n := deref w f in
  if negb (focusOffset_ =? String.length (textContent n)) then Ret false
  else
    let previous := nextSibling (document w) f in
    if absent_or_empty previous then Ret true else Ret false.

(** [selectionAtStartOfElement()].  The condition reads
    [isBackwards() ? focusOffset : (anchorOffset !== 0)]; a number is true
    when it is not zero. *)
Definition selectionAtStartOfElement (w : World) : outcome bool :=
  let* sel := nonnull (rangy_getSelection w) in
  let selection := get_sel w sel in
  let anchorNode_ :=
    if isBackwards (document w) selection then focusNode selection else anchorNode selection in
  if (if isBackwards (document w) selection
      then negb (focusOffset selection =? 0)
      else negb (anchorOffset selection =? 0))
  then Ret false
  else
    let* a := nonnull anchorNode_ in
    let* _ := deref w a in
    let previous := previousSibling (document w) a in
    if absent_or_empty previous then Ret true else Ret false.

(** What [selectionReplaceWithinValidTags] hands back: nothing, the array
    of [selectionReplace], or the jQuery object of the split. *)
Inductive replace_result : Type :=
| RUndefined
| RArray (l : list NodeRef)
| RJq (j : jq).

(** [rangy.createRange()]: collapsed at the start of the document. *)
Definition createRange (w : World) : Range := collapsed_at (node_id (document w), 0).

(** [$(n).replaceWith(nodes)]. *)
Definition replaceWith (i : NodeRef) (ns : list node) (d : node) : node :=
  match locate i d with
  | Some p =>
      match parent_path p with
      | Some q => modify_at q (fun c => set_kids (firstn (child_index p) (kids c) ++ ns
                                                    ++ skipn (S (child_index p)) (kids c)) c) d
      | None => d
      end
  | None => d
  end.

Definition has_attr (name : string) (n : node) : bool :=
  match attr_lookup name (attrs_of n) with Some _ => true | None => false end.

(** [selectionReplaceSplittingSelectedElement(html, selection)]. *)
Definition selectionReplaceSplittingSelectedElement (content : html)
    (selection : option SelRef) (fuel : nat) (w : World) : outcome (jq * World) :=
  let* sel := nonnull (js_or selection (rangy_getSelection w)) in
  let* selectionRange := getRangeAt w sel 0 in
  let* (elements, w) := selectionGetElements None fuel w in
  let* selectedElement := nonnull (nth 0 elements None) in
  (* from the start of the selected element to the start of the selection *)
  let* startRange := setStartBefore (createRange w) selectedElement w in
  let startRange :=
    setEnd (document w) startRange (startContainer selectionRange, startOffset selectionRange) in
  let* (startFragment, w) := cloneContents startRange w in
  (* from the end of the selection to the end of the selected element *)
  let endRange :=
    setStart (document w) (createRange w) (endContainer selectionRange, endOffset selectionRange) in
  let* endRange := setEndAfter endRange selectedElement w in
  let* (endFragment, w) := cloneContents endRange w in
  let replacement :=
    html_concat
      (html_concat (elementOuterHtml (fst (parse (fragmentToHtml startFragment) (fresh w))))
                   (elementOuterHtml
                      (map (set_attr "data-replacement" "true") (fst (parse content (fresh w))))))
      (elementOuterHtml (fst (parse (fragmentToHtml endFragment) (fresh w)))) in
  let '(replacement, f) := parse replacement (fresh w) in
  let d1 := replaceWith selectedElement replacement (document w) in
  let parents := jq_parent d1 (map node_id replacement) in
  let marked :=
    flat_map (fun p => match getNode d1 p with
                       | Some n => map node_id (filter (has_attr "data-replacement") (descendants n))
                       | None => []
                       end) parents in
  let d2 := fold_left (fun d i => modify_node i (remove_attr "data-replacement") d) marked d1 in
  Ret (marked, set_fresh (set_document w d2) f).

(** [selectionReplaceWithinValidTags(html, validTagNames, selection)]. *)
Definition selectionReplaceWithinValidTags (content : html) (validTagNames : list string)
    (selection : option SelRef) (fuel : nat) (w : World) : outcome (replace_result * World) :=
  let* sel := nonnull (js_or selection (rangy_getSelection w)) in
  if rangeCount (get_sel w sel) =? 0 then Ret (RUndefined, w)
  else
    let* s := selectionGetStartElement w in
    let* s := nonnull s in
    let startElement := jq_first s in
    let* e := selectionGetEndElement w in
    let* e := nonnull e in
    let endElement := jq_first e in
    let* (elements, w) := selectionGetElements None fuel w in
    let selectedElement := nth 0 elements None in
    let* selectedElementValid := elementIsValid selectedElement validTagNames w in
    let* startElementValid := elementIsValid startElement validTagNames w in
    let* endElementValid := elementIsValid endElement validTagNames w in
    if selectedElementValid && startElementValid && endElementValid then
      let* (r, w) := selectionReplace content None fuel w in
      Ret (RArray r, w)
    else
      let* (r, w) := selectionReplaceSplittingSelectedElement content (Some sel) fuel w in
      Ret (RJq r, w).

(** One [callback(blocks[i])] per entry, in the order of the list. *)
Fixpoint for_each {L : Type} (callback : NodeRef -> L * World -> outcome (L * World))
    (blocks : jq) (st : L * World) : outcome (L * World) :=
  match blocks with
  | [] => Ret st
  | b :: rest => let* st' := callback b st in for_each callback rest st'
  end.

(** The function [selectionEachBlock] hands to [selectionEachRange]. *)
Definition eachBlock_range {L : Type} (css_display : node -> string)
    (callback : NodeRef -> L * World -> outcome (L * World))
    (limitElement : jq) (blockContainer : option string)
    (range : Range) (st : L * World) : outcome (L * World) :=
  let d := document (snd st) in
  let startBlock := elementClosestBlock css_display d [startContainer range] limitElement in
  let endBlock := elementClosestBlock css_display d [endContainer range] limitElement in
  match startBlock, endBlock with
  | Some startBlock, Some endBlock =>
      let blocks :=
        if jq_is startBlock endBlock then startBlock
        else jq_add d (jq_add d (flat_map (fun i => jq_nextUntil d i endBlock) startBlock)
                                startBlock)
                      endBlock in
      for_each callback blocks st
  | _, _ =>
      let* (wrapper, w') := elementWrapInner limitElement blockContainer (snd st) in
      callback wrapper (fst st, w')
  end.

(** [selectionEachBlock(callback, limitElement, blockContainer)].  The
    three argument checks are checks of types that hold here by typing. *)
Definition selectionEachBlock {L : Type} (css_display : node -> string)
    (callback : NodeRef -> L * World -> outcome (L * World))
    (limitElement : jq) (blockContainer : option string)
    (fuel : nat) (st : L * World) : outcome (L * World) :=
  selectionEachRange (eachBlock_range css_display callback limitElement blockContainer)
                     None fuel st.

(** The callback of [selectionToggleBlockClasses]; its variables are
    [apply] and [blocks]. *)
Definition toggle_collect (addClasses : list string) (block : NodeRef)
    (st : (bool * jq) * World) : outcome ((bool * jq) * World) :=
  let '((apply, blocks), w) := st in
  let blocks := blocks ++ [block] in
  let apply :=
    if negb apply
    then fold_left (fun apply c => if negb (hasClass (document w) block c) then true else apply)
                   addClasses apply
    else apply in
  Ret ((apply, blocks), w).

(** [selectionToggleBlockClasses(addClasses, removeClasses, limitElement,
    blockContainer)]. *)
Definition selectionToggleBlockClasses (css_display : node -> string)
    (addClasses removeClasses : list string) (limitElement : jq)
    (blockContainer : option string) (fuel : nat) (w : World) : outcome World :=
  let* (vars, w) :=
    selectionEachBlock css_display (toggle_collect addClasses) limitElement blockContainer
                       fuel ((false, []), w) in
  let '(apply, blocks) := vars in
  let d := jq_removeClass (join_space removeClasses) blocks (document w) in
  if apply
  then Ret (set_document w (jq_addClass (join_space addClasses) blocks d))
  else Ret (set_document w (jq_removeClass (join_space addClasses) blocks d)).

(** [selectionConstrain(element, selection)]. *)
Definition constrain_range (element : option NodeRef) (sel : SelRef) (range : Range)
    (w : World) : outcome World :=
  match commonAncestorContainer (document w) range with
  | Some cac =>
      let commonAncestor :=
        if nodeType cac =? TEXT_NODE
        then jq_first (jq_parent (document w) [node_id cac])
        else Some (node_id cac) in
      let differs :=
        match element, commonAncestor with
        | Some a, Some b => negb (a =? b)
        | None, None => false
        | _, _ => true
        end in
      if differs then
        let* inside := jq_contains (document w) element commonAncestor in
        if negb inside then Ret (removeRange sel range w) else Ret w
      else Ret w
  | None => Throws "range is not in the document"
  end.

Fixpoint jq_each {A : Type} (f : A -> World -> outcome World) (l : list A) (w : World)
  : outcome World :=
  match l with
  | [] => Ret w
  | a :: r => let* w' := f a w in jq_each f r w'
  end.

Definition selectionConstrain (element : jq) (selection : option SelRef) (w : World)
  : outcome World :=
  let element_ := jq_first element in
  match js_or selection (rangy_getSelection w) with
  | None => selectionSelectStart (option_list element_) None w
  | Some sel => jq_each (constrain_range element_ sel) (getAllRanges w sel) w
  end.

(** The loop [while (parent && parent.parentNode != limitNode) parent =
    parent.parentNode] along a node and its ancestors. *)
Fixpoint child_of_limit (limitNode : NodeRef) (chain : list node) : option node :=
  match chain with
  | n :: ((p :: _) as up) =>
      if negb (node_id p =? limitNode) then child_of_limit limitNode up else Some n
  | _ => None
  end.

(** [selectionClearFormatting(limitNode, selection)]; [document.body] is
    the root of the document. *)
Definition selectionClearFormatting (limitNode : option NodeRef) (selection : option SelRef)
    (w : World) : outcome World :=
  let limitNode := match limitNode with Some l => l | None => node_id (document w) end in
  let* sel := nonnull (js_or selection (rangy_getSelection w)) in
  if 0 <? rangeCount (get_sel w sel) then
    let* range := getRangeAt w sel 0 in
    let* (content, range, w) := extractContents range w in
    let* (content, range, w) :=
      match fragmentToHtml content with
      | [] =>
          let range := rangeExpandToParent range w in
          let w := setSingleRange sel range w in
          extractContents range w
      | _ => Ret (content, range, w)
      end in
    let content := html_text (fragmentToHtml content) in
    match commonAncestorContainer (document w) range with
    | None => Throws "range is not in the document"
    | Some cac =>
        match child_of_limit limitNode (cac :: ancestors (document w) (node_id cac)) with
        | Some parent =>
            let* range := setEndAfter range (node_id parent) w in
            let* (contentAfterRangeStart, _, w) := extractContents range w in
            let* range := collapseAfter (node_id parent) w in
            let* (_, w) := insertNode range contentAfterRangeStart w in
            let* range := collapseAfter (node_id parent) w in
            let* (_, w) := insertNode range [Text (fresh w) content] (set_fresh w (S (fresh w))) in
            Ret w
        | None =>
            let* (_, w) := insertNode range [Text (fresh w) content] (set_fresh w (S (fresh w))) in
            Ret w
        end
    end
  else Ret w.

(** The loop [while (n.nodeType === Node.TEXT_NODE) n = n.parentNode]. *)
Fixpoint first_non_text (chain : list node) : outcome node :=
  match chain with
  | [] => Throws "TypeError"
  | n :: up => if nodeType n =? TEXT_NODE then first_non_text up else Ret n
  end.

Definition push_unless_limit (limitElement : jq) (result : jq) (found : jq) : jq :=
  fold_left (fun result this => if jq_is limitElement [this] then result else result ++ [this])
            found result.

(** The [do ... while] loop of [selectionFindWrappingAndInnerElements],
    with at most [steps] further rounds. *)
Fixpoint find_scan (steps : nat) (d : node) (sel : selector) (limitElement : jq)
    (endNode : NodeRef) (startNode : NodeRef) (result : jq) : outcome jq :=
  let result := push_unless_limit limitElement result (jq_filter d sel [startNode]) in
  let result :=
    if negb (jq_is limitElement [startNode])
    then push_unless_limit limitElement result (jq_parentsUntil d startNode limitElement sel)
    else result in
  let result := push_unless_limit limitElement result (jq_find d startNode sel) in
  if jq_is [endNode] [startNode] then Ret result
  else
    match jq_next d startNode with
    | next :: _ =>
        if List.length (jq_has d (jq_prevAll d next) endNode) =? 0 then
          match steps with
          | S steps' => find_scan steps' d sel limitElement endNode next result
          | 0 => OutOfFuel
          end
        else Ret result
    | [] => Ret result
    end.

(** [selectionFindWrappingAndInnerElements(selector, limitElement)]. *)
Definition selectionFindWrappingAndInnerElements (sel : selector) (limitElement : jq)
    (fuel : nat) (w : World) : outcome (jq * World) :=
  let result : jq := [] in
  selectionEachRange
    (fun range st =>
       let d := document (snd st) in
       let* s := deref (snd st) (startContainer range) in
       let* startNode := first_non_text (s :: ancestors d (startContainer range)) in
       let* e := deref (snd st) (endContainer range) in
       let* endNode := first_non_text (e :: ancestors d (endContainer range)) in
       let* result :=
         find_scan (List.length (following_siblings d (node_id startNode))) d sel limitElement
                   (node_id endNode) (node_id startNode) (fst st) in
       Ret (result, snd st))
    None fuel (result, w).

(** The string ['<' + changeTo + '>' + limitNode.innerHTML + '</' +
    changeTo + '>'] is put together from pieces and given to the HTML
    parser of the browser, which is no part of the program:
    [parser context tag inner] stands for the markup of the nodes that the
    parser builds, for the content of a [context] element, from
    ['<' + tag + '>' + inner + '</' + tag + '>']. *)
Definition HtmlParser := string -> string -> html -> html.

(** [selectionChangeTags(changeTo, changeFrom, limitElement)]; the selector
    [changeFrom.join(',')] is the list of tag names itself. *)
Definition selectionChangeTags (parser : HtmlParser) (changeTo : string)
    (changeFrom : list string)
    (limitElement : jq) (fuel : nat) (w : World) : outcome World :=
  let* w := selectionSave false w in
  let* (elements, w) := selectionFindWrappingAndInnerElements changeFrom limitElement fuel w in
  let* w :=
    if negb (List.length elements =? 0) then Ret (elementChangeTag elements changeTo w)
    else
      let* limitNode := nonnull (jq_first limitElement) in
      let* n := deref w limitNode in
      let '(ns, f) := parse (parser (tag_of n) changeTo (innerHTML n)) (fresh w) in
      Ret (set_fresh (set_document w (modify_node limitNode (set_kids ns) (document w))) f) in
  Ret (selectionRestore w).

(** [range.selectNode(node)]: the range around the node, in its parent; a
    node without a parent cannot be selected. *)
Definition selectNode (i : NodeRef) (w : World) : outcome Range :=
  match point_before (document w) i, point_after (document w) i with
  | Some b, Some e => Ret (mkRange (fst b) (snd b) (fst e) (snd e))
  | _, _ => Throws "INVALID_NODE_TYPE_ERR"
  end.

(** [selectionSelectInner(element, selection)]; [contents()] are the child
    nodes of the elements of the set, text nodes too. *)
Definition selectionSelectInner (element : jq) (selection : option SelRef) (w : World)
  : outcome World :=
  let* sel := nonnull (js_or selection (rangy_getSelection w)) in
  let w0 := removeAllRanges sel w in
  Ret (fold_left
         (fun w this => addRange sel (selectNodeContents this) w)
         (flat_map (fun i => match getNode (document w0) i with
                             | Some n => kids n
                             | None => []
                             end) element)
         w0).

(** [selectionSelectOuter(element, selection)]. *)
Definition selectionSelectOuter (element : jq) (selection : option SelRef) (w : World)
  : outcome World :=
  let* sel := nonnull (js_or selection (rangy_getSelection w)) in
  let w0 := removeAllRanges sel w in
  jq_each (fun this w => let* range := selectNode this w in Ret (addRange sel range w))
          element w0.

(** [selection.toHtml()]: the markup of the cloned contents of all the
    ranges, one after the other. *)
Fixpoint clone_ranges (rs : list Range) (w : World) : outcome (list node * World) :=
  match rs with
  | [] => Ret ([], w)
  | r :: rest =>
      let* (c, w1) := cloneContents r w in
      let* (cs, w2) := clone_ranges rest w1 in
      Ret (c ++ cs, w2)
  end.

Definition toHtml (sel : SelRef) (w : World) : outcome (html * World) :=
  let* (ns, w') := clone_ranges (getAllRanges w sel) w in
  Ret (serialize ns, w').

(** [selectionGetHtml(selection)]. *)
Definition selectionGetHtml (selection : option SelRef) (w : World) : outcome (html * World) :=
  let* sel := nonnull (js_or selection (rangy_getSelection w)) in
  toHtml sel w.

(** [selectionIsEmpty()]. *)
Definition selectionIsEmpty (w : World) : outcome (bool * World) :=
  let* sel := nonnull (rangy_getSelection w) in
  let* (h, w') := toHtml sel w in
  Ret (match h with [] => true | _ => false end, w').

(** * Notions used to state the properties

    Relations, invariants, induction principles and example pages. *)

(** [visits gar cb i s log s']: started at index [i] in state [s], the
    loop calls the callback with the ranges [log], one after the other, and
    stops in state [s'].  Each range is the entry at the current index of
    the array fetched from the state the previous call left. *)
Inductive visits {St R : Type} (gar : St -> list R) (cb : R -> St -> outcome St)
  : nat -> St -> list R -> St -> Prop :=
| visits_stop : forall i s, nth_error (gar s) i = None -> visits gar cb i s [] s
| visits_step : forall i s r s1 log s2,
    nth_error (gar s) i = Some r ->
    cb r s = Ret s1 ->
    visits gar cb (S i) s1 log s2 ->
    visits gar cb i s (r :: log) s2.

Definition selection_or_window (selection : option SelRef) : SelRef :=
  match selection with Some s => s | None => Win end.

Local Open Scope string_scope.
Local Open Scope list_scope.
Local Open Scope nat_scope.

Definition two_paragraphs : node :=
  Elem 0 "body" [] []
    [Elem 1 "p" [] [] [Text 2 "ab"]; Elem 3 "p" [] [] [Text 4 "cd"]].

Definition two_ranges : World :=
  mkWorld two_paragraphs 5 (selection_of [mkRange 2 0 2 1; mkRange 4 0 4 1] false) [] None.

(** A callback that only looks at its range. *)
Definition inspect_range (range : Range) (st : unit * World) : outcome (unit * World) :=
  Ret st.

(** A callback that does [selection.removeRange(range)]. *)
Definition drop_range (range : Range) (st : unit * World) : outcome (unit * World) :=
  Ret (fst st, removeRange Win range (snd st)).

Definition one_paragraph : node :=
  Elem 0 "body" [] [] [Elem 1 "p" [] [] [Text 2 "ABC"]].

(** The selection covers the [B] of [<p>ABC</p>]. *)
Definition b_selected : World :=
  mkWorld one_paragraph 3 (selection_of [mkRange 2 1 2 2] false) [] None.

Section node_induction.
Variable P : node -> Prop.
Hypothesis P_text : forall i d, P (Text i d).
Hypothesis P_elem : forall i t c a ks, Forall P ks -> P (Elem i t c a ks).

Fixpoint node_induction (n : node) : P n :=
  match n with
  | Text i d => P_text i d
  | Elem i t c a ks =>
      P_elem i t c a ks
        ((fix all (l : list node) : Forall P l :=
            match l with
            | [] => Forall_nil P
            | x :: r => Forall_cons x (node_induction x) (all r)
            end) ks)
  end.
End node_induction.

(** A jQuery object that holds exactly one node, an element of the
    document. *)
Definition element_of (d : node) (j : jq) : Prop :=
  exists n, j = [node_id n] /\ getNode d (node_id n) = Some n /\ is_element n = true.

Ltac distinct_ids :=
  simpl; repeat (apply NoDup_cons; [simpl; intuition discriminate|]); apply NoDup_nil.

(** The selection runs forwards from offset 1 to the end of [abc]. *)
Definition abc_forwards : World :=
  mkWorld (Elem 0 "body" [] [] [Elem 1 "p" [] [] [Text 2 "abc"]]) 3
          (mkSelection (Some 2) 1 (Some 2) 3 [mkRange 2 1 2 3]) [] None.

(** The same selection made backwards: the anchor is its end. *)
Definition abc_backwards : World :=
  mkWorld (Elem 0 "body" [] [] [Elem 1 "p" [] [] [Text 2 "abc"]]) 3
          (mkSelection (Some 2) 3 (Some 2) 1 [mkRange 2 1 2 3]) [] None.

(** The selection starts at the end of [ab] and ends inside [cd]. *)
Definition ab_cd : World :=
  mkWorld (Elem 0 "body" [] [] [Elem 1 "p" [] [] [Text 2 "ab"; Elem 3 "b" [] [] [Text 4 "cd"]]]) 5
          (mkSelection (Some 2) 2 (Some 4) 1 [mkRange 2 2 4 1]) [] None.

(** The decision [selectionConstrain] takes for a range: its common
    ancestor container, or the parent of that when it is a text node, is
    the element or lies inside the element. *)
Definition range_kept (d : node) (element : NodeRef) (r : Range) : bool :=
  match commonAncestorContainer d r with
  | Some cac =>
      match (if is_element cac then Some (node_id cac)
             else option_map node_id (parentNode d (node_id cac))) with
      | Some ca => (element =? ca) || strictly_contains d element ca
      | None => false
      end
  | None => false
  end.

Definition inside_and_outside : node :=
  Elem 0 "body" [] []
    [Elem 1 "div" [] [] [Text 2 "in"]; Elem 3 "p" [] [] [Text 4 "out"]].

(** One range in the [div], one in the paragraph after it. *)
Definition in_and_out_selected : World :=
  mkWorld inside_and_outside 5 (selection_of [mkRange 2 0 2 2; mkRange 4 0 4 3] false) [] None.

(** Only the paragraph outside the [div] is selected. *)
Definition out_selected : World :=
  mkWorld inside_and_outside 5 (selection_of [mkRange 4 0 4 3] false) [] None.



(** A callback that also records the block it is called with. *)
Definition with_blocks {L : Type} (cb : NodeRef -> L * World -> outcome (L * World))
    (b : NodeRef) (st : (L * jq) * World) : outcome ((L * jq) * World) :=
  let* st' := cb b (fst (fst st), snd st) in
  Ret ((fst st', snd (fst st) ++ [b]), snd st').

(** The [display] of the user agent style sheet. *)
Definition ua_display (n : node) : string :=
  if existsb (String.eqb (tag_of n)) ["a"; "b"; "i"; "em"; "strong"; "span"; "u"; "code"]
  then "inline" else "block".

Definition no_callback (b : NodeRef) (st : unit * World) : outcome (unit * World) := Ret st.


(** Three paragraphs and a [span] in a [div], selected from the first
    paragraph to the third. *)
Definition three_blocks : World :=
  mkWorld (Elem 0 "body" [] []
             [Elem 1 "div" [] []
                [Elem 2 "p" [] [] [Text 3 "one"]; Text 4 " ";
                 Elem 5 "span" [] [] [Text 6 "two"];
                 Elem 7 "p" [] [] [Text 8 "three"];
                 Elem 9 "p" [] [] [Text 10 "four"]]])
          11 (selection_of [mkRange 3 1 8 2] false) [] None.

Definition three_blocks_div : node :=
  Elem 1 "div" [] []
    [Elem 2 "p" [] [] [Text 3 "one"]; Text 4 " ";
     Elem 5 "span" [] [] [Text 6 "two"];
     Elem 7 "p" [] [] [Text 8 "three"];
     Elem 9 "p" [] [] [Text 10 "four"]].


(** A paragraph, a list and a paragraph, selected from the first paragraph
    into the first list item. *)
Definition paragraph_and_list : World :=
  mkWorld (Elem 0 "body" [] []
             [Elem 1 "div" [] []
                [Elem 2 "p" [] [] [Text 3 "x"];
                 Elem 4 "ul" [] [] [Elem 5 "li" [] [] [Text 6 "a"]; Elem 7 "li" [] [] [Text 8 "b"]];
                 Elem 9 "p" [] [] [Text 10 "z"]]])
          11 (selection_of [mkRange 3 0 6 1] false) [] None.

(** A class name: not empty, no white space. *)
Definition is_class_token (s : string) : bool :=
  negb (String.eqb s EmptyString)
  && forallb (fun c => negb (is_space c)) (list_ascii_of_string s).

Definition label : Type := NodeRef * bool * list string.

Definition label_of (n : node) : label := (node_id n, is_element n, classes_of n).

Definition label_id (x : label) : NodeRef := fst (fst x).

Fixpoint labels (n : node) : list label :=
  match n with
  | Text i _ => [(i, false, [])]
  | Elem i _ c _ ks => (i, true, c) :: flat_map labels ks
  end.

(** The reference is to an element of the document. *)
Definition elem_in (d : node) (i : NodeRef) : bool :=
  match getNode d i with Some n => is_element n | None => false end.

Definition classes_at (d : node) (i : NodeRef) : list string :=
  match getNode d i with Some n => classes_of n | None => [] end.

(** A function that rewrites the classes of an element and leaves the rest
    of the node alone. *)
Definition reclass (g : list string -> list string) (n : node) : node :=
  set_classes (g (classes_of n)) n.

(** Nodes are distinct and were all created before [fresh]. *)
Definition wf_doc (w : World) : Prop :=
  NoDup (ids (document w)) /\ Forall (fun i => i < fresh w) (ids (document w)).

(** A block lacks one of the classes to add. *)
Definition missing_class (d : node) (addClasses : list string) (b : NodeRef) : bool :=
  existsb (fun c => negb (hasClass d b c)) addClasses.

(** What holds of [apply] and [blocks] while the blocks are collected: the
    blocks are elements of the document, and [apply] tells whether one of
    them lacks one of the classes to add. *)
Definition collected (addClasses : list string) (limit : NodeRef)
    (st : (bool * jq) * World) : Prop :=
  wf_doc (snd st)
  /\ elem_in (document (snd st)) limit = true
  /\ Forall (fun b => elem_in (document (snd st)) b = true) (snd (fst st))
  /\ fst (fst st) = existsb (missing_class (document (snd st)) addClasses) (snd (fst st)).

(** Two paragraphs in a [div], the first with the class [hl]; both are
    selected, each by a range of its own. *)
Definition one_highlighted : World :=
  mkWorld (Elem 0 "body" [] []
             [Elem 1 "div" [] []
                [Elem 2 "p" ["hl"; "old"] [] [Text 3 "one"];
                 Elem 4 "p" [] [] [Text 5 "two"]]])
          6 (selection_of [mkRange 3 0 3 3; mkRange 5 0 5 3] false) [] None.

(** Every element whose reference is in [els] gets the tag [t]; identities,
    classes, attributes and children stay. *)
Fixpoint rename_tags (els : jq) (t : string) (n : node) : node :=
  match n with
  | Text _ _ => n
  | Elem i tg c a ks =>
      Elem i (if jq_mem i els then t else tg) c a (map (rename_tags els t) ks)
  end.

Section markup_induction.
Variable P : markup -> Prop.
Hypothesis P_text : forall s, P (MText s).
Hypothesis P_elem : forall t c a ks, Forall P ks -> P (MElem t c a ks).

Fixpoint markup_induction (m : markup) : P m :=
  match m with
  | MText s => P_text s
  | MElem t c a ks =>
      P_elem t c a ks
        ((fix all (l : list markup) : Forall P l :=
            match l with
            | [] => Forall_nil P
            | x :: r => Forall_cons x (markup_induction x) (all r)
            end) ks)
  end.
End markup_induction.

(** [<p>Hello <b>world</b></p>] with [world] selected. *)
Definition hello_world : World :=
  mkWorld (Elem 0 "body" [] []
             [Elem 1 "p" [] [] [Text 2 "Hello "; Elem 3 "b" [] [] [Text 4 "world"]]])
          5 (selection_of [mkRange 4 0 4 5] false) [] None.

(** The markup of the node behind a reference. *)
Definition markup_at (w : World) (i : NodeRef) : option string :=
  match getNode (document w) i with
  | Some n => Some (render_html (outerHTML n))
  | None => None
  end.

(** The text of a list of nodes. *)
Definition text_of (ns : list node) : string :=
  String.concat EmptyString (map textContent ns).

(** Two nodes of the same kind, with the same tag, classes and
    attributes. *)
Definition same_element (a b : node) : Prop :=
  is_element a = is_element b /\ tag_of a = tag_of b
  /\ classes_of a = classes_of b /\ attrs_of a = attrs_of b.

(** The document in which the element at [q] has the children [X]. *)
Definition with_children (q : list nat) (X : list node) (d : node) : node :=
  modify_at q (set_kids X) d.

(** [<p>A<b>B</b>C</p><p>D</p>] in a [div], with the [b] element selected. *)
Definition bold_b_selected : World :=
  mkWorld (Elem 0 "body" [] []
             [Elem 1 "div" [] []
                [Elem 2 "p" [] [] [Text 3 "A"; Elem 4 "b" [] [] [Text 5 "B"]; Text 6 "C"];
                 Elem 7 "p" [] [] [Text 8 "D"]]])
          9 (selection_of [mkRange 2 1 2 2] false) [] None.

Definition div_and_paragraph : node :=
  Elem 0 "body" [] [] [Elem 1 "div" [] [] [Text 2 "xy"]; Elem 3 "p" [] [] [Text 4 "ABC"]].

(** The selection of a frame covers the [B] of [<p>ABC</p>]; the window has
    no selection. *)
Definition frame_only : World :=
  mkWorld div_and_paragraph 5 emptySelection [selection_of [mkRange 4 1 4 2] false] None.

(** The same frame selection; the caret of the window is between the [x]
    and the [y] of the [div]. *)
Definition window_and_frame : World :=
  mkWorld div_and_paragraph 5 (selection_of [mkRange 2 1 2 1] false)
          [selection_of [mkRange 4 1 4 2] false] None.

(** The [B] of [<p>ABC</p>] is the selection of the window. *)
Definition window_only : World :=
  mkWorld div_and_paragraph 5 (selection_of [mkRange 4 1 4 2] false) [] None.

Definition bold_x : html := [MElem "b" [] [] [MText "x"]].

(** A page on which nothing is selected. *)
Definition nothing_selected : World := mkWorld one_paragraph 3 emptySelection [] None.

(** The selection object is one of the page: the selection of the window
    or of one of its frames. *)
Definition sel_exists (w : World) (s : SelRef) : Prop :=
  match s with Win => True | Frame k => k < List.length (frameSelections w) end.

(** The same selection made in the other direction: anchor and focus
    change places. *)
Definition reversed (s : Selection) : Selection :=
  mkSelection (focusNode s) (focusOffset s) (anchorNode s) (anchorOffset s) (ranges s).

(** The parser puts the markup between the start tag and the end tag into
    one element. *)
Definition nests (parser : HtmlParser) (context tag : string) (inner : html) : Prop :=
  parser context tag inner = [MElem tag [] [] inner].

(** The void elements of HTML: a start tag only, and no content. *)
Definition void_tags : list string :=
  ["area"; "base"; "br"; "col"; "embed"; "hr"; "img"; "input"; "link"; "meta";
   "source"; "track"; "wbr"].

Definition is_void (tag : string) : bool :=
  existsb (String.eqb (string_lower tag)) void_tags.

(** A parser that knows the void elements, as every browser does: the
    start tag of a void element makes an element without content, what
    follows comes after it, and the end tag, which closes nothing, is
    dropped.  Any other tag holds what is between its start tag and its end
    tag. *)
Definition void_aware : HtmlParser :=
  fun _ tag inner =>
    if is_void tag then MElem tag [] [] [] :: inner else [MElem tag [] [] inner].

(** What one round of the loop of [selectionFindWrappingAndInnerElements]
    adds for the node [v]: of [v] itself, of its ancestors below the limit
    element (when [v] is not the limit element) and of its descendants,
    those that match the selector, the limit element left out. *)
Definition found_at (d : node) (sel : selector) (limitElement : jq) (v : NodeRef) : jq :=
  filter (fun x => negb (jq_is limitElement [x]))
    (jq_filter d sel [v]
     ++ (if negb (jq_is limitElement [v]) then jq_parentsUntil d v limitElement sel else [])
     ++ jq_find d v sel).

(** The nodes the loop goes through: the start node, then the element
    siblings that follow it, in order, as long as no sibling before the next
    one holds the end node, the last one being the end node when the loop gets
    there. *)
Fixpoint scan_on (d : node) (endNode : NodeRef) (siblings : list node) : list NodeRef :=
  match siblings with
  | [] => []
  | x :: rest =>
      if List.length (jq_has d (jq_prevAll d (node_id x)) endNode) =? 0
      then node_id x :: (if node_id x =? endNode then [] else scan_on d endNode rest)
      else []
  end.

Definition scanned (d : node) (endNode startNode : NodeRef) : list NodeRef :=
  startNode ::
  (if startNode =? endNode then []
   else scan_on d endNode (elements_only (following_siblings d startNode))).

(** The node the loop starts from, or ends at, for a boundary container:
    the container, or its nearest ancestor that is not a text node. *)
Definition scan_node (d : node) (container : NodeRef) : option NodeRef :=
  match getNode d container with
  | Some c =>
      match first_non_text (c :: ancestors d container) with
      | Ret n => Some (node_id n)
      | _ => None
      end
  | None => None
  end.

Definition range_scanned (d : node) (range : Range) : option (list NodeRef) :=
  match scan_node d (startContainer range), scan_node d (endContainer range) with
  | Some a, Some b => Some (scanned d b a)
  | _, _ => None
  end.

(** What is found for a list of ranges: range after range, node after
    node. *)
Definition selection_found (d : node) (sel : selector) (limitElement : jq)
    (ranges : list Range) : jq :=
  flat_map (fun range => match range_scanned d range with
                         | Some l => flat_map (found_at d sel limitElement) l
                         | None => []
                         end) ranges.

(** The elements of the page keep their classes while the blocks are
    collected. *)
Definition kept_classes (w : World) (st : (bool * jq) * World) : Prop :=
  forall j, elem_in (document w) j = true ->
    elem_in (document (snd st)) j = true
    /\ forall x, hasClass (document (snd st)) j x = hasClass (document w) j x.

(** Two paragraphs in a [div], both with the class [a]; both are selected,
    each by a range of its own. *)
Definition both_marked : World :=
  mkWorld (Elem 0 "body" [] []
             [Elem 1 "div" [] []
                [Elem 2 "p" ["a"] [] [Text 3 "one"];
                 Elem 4 "p" ["a"] [] [Text 5 "two"]]])
          6 (selection_of [mkRange 3 0 3 3; mkRange 5 0 5 3] false) [] None.

(** [<p><b>x</b><i><B>y</B></i><b>z</b></p>], selected from before [x] to
    after [z]. *)
Definition bold_run : World :=
  mkWorld (Elem 0 "body" [] []
             [Elem 1 "p" [] []
                [Elem 2 "b" [] [] [Text 3 "x"];
                 Elem 4 "i" [] [] [Elem 8 "B" [] [] [Text 5 "y"]];
                 Elem 6 "b" [] [] [Text 7 "z"]]])
          9 (selection_of [mkRange 3 0 7 1] false) [] None.

(** The blocks of a range whose two ends have a block below the limit
    element: that block when it is the same for both, and otherwise the
    start block, the element siblings after it up to the end block, and the
    end block, in document order. *)
Definition blocks_between (css_display : node -> string) (d : node) (limitElement : jq)
    (range : Range) : jq :=
  match elementClosestBlock css_display d [startContainer range] limitElement,
        elementClosestBlock css_display d [endContainer range] limitElement with
  | Some startBlock, Some endBlock =>
      if jq_is startBlock endBlock then startBlock
      else jq_add d (jq_add d (flat_map (fun i => jq_nextUntil d i endBlock) startBlock)
                              startBlock)
                    endBlock
  | _, _ => []
  end.

(** Both ends of the range have a block below the limit element. *)
Definition has_blocks (css_display : node -> string) (d : node) (limitElement : jq)
    (range : Range) : Prop :=
  elementClosestBlock css_display d [startContainer range] limitElement <> None
  /\ elementClosestBlock css_display d [endContainer range] limitElement <> None.

(** A text node that is in no parent: the tree is that node. *)
Definition lone_text : World := mkWorld (Text 0 "abc") 1 emptySelection [] None.

(** * Properties *)

(** ** The loop of [selectionEachRange] *)

Lemma bind_Ret_inv {A B : Type} (m : outcome A) (k : A -> outcome B) (b : B) :
  bind m k = Ret b -> exists a, m = Ret a /\ k a = Ret b.
Proof.
  destruct m as [a| |]; simpl; intros H; try discriminate.
  exists a; split; [reflexivity | exact H].
Qed.

Section EachRangeFacts.
Context {St R : Type}.
Variable gar : St -> list R.
Variable cb : R -> St -> outcome St.

Lemma eachRange_from_visits fuel : forall i s s',
  eachRange_from gar cb fuel i s = Ret s' -> exists log, visits gar cb i s log s'.
Proof.
  induction fuel as [|fuel IH]; intros i s s' H; simpl in H; [discriminate|].
  destruct (nth_error (gar s) i) as [r|] eqn:E.
  - apply bind_Ret_inv in H. destruct H as [s1 [H1 H2]].
    destruct (IH _ _ _ H2) as [log Hlog].
    exists (r :: log). eapply visits_step; eauto.
  - inversion H; subst. exists []. now apply visits_stop.
Qed.

Lemma visits_eachRange_from i s log s' :
  visits gar cb i s log s' ->
  forall fuel, List.length log < fuel -> eachRange_from gar cb fuel i s = Ret s'.
Proof.
  induction 1 as [i s E | i s r s1 log s2 E Hcb _ IH]; intros fuel Hf.
  - destruct fuel; [inversion Hf|]. simpl. now rewrite E.
  - destruct fuel; [inversion Hf|]. simpl. rewrite E, Hcb. simpl.
    apply IH. simpl in Hf. lia.
Qed.

(** A callback that leaves the array of ranges as it is gets every range
    from the current index on, once each, in order. *)
Lemma visits_stable i s log s' :
  (forall r a a', cb r a = Ret a' -> gar a' = gar a) ->
  visits gar cb i s log s' -> log = skipn i (gar s) /\ gar s' = gar s.
Proof.
  intros Hst. induction 1 as [i s E | i s r s1 log s2 E Hcb _ IH].
  - split; [|reflexivity]. symmetry. apply skipn_all2.
    now apply nth_error_None.
  - destruct IH as [IH1 IH2]. rewrite (Hst _ _ _ Hcb) in IH1, IH2.
    split; [|exact IH2]. subst log.
    clear - E. revert i E. induction (gar s) as [|x l IHl]; intros [|i] E; simpl in *;
      try discriminate.
    + now inversion E.
    + now apply IHl.
Qed.

(** A property of the state that every call of the callback keeps holds
    when the loop is left. *)
Lemma eachRange_from_invariant (P : St -> Prop) :
  (forall r a a', P a -> cb r a = Ret a' -> P a') ->
  forall fuel i s s', P s -> eachRange_from gar cb fuel i s = Ret s' -> P s'.
Proof.
  intros Hinv. induction fuel as [|fuel IH]; intros i s s' HP H; simpl in H; [discriminate|].
  destruct (nth_error (gar s) i) as [r|] eqn:E.
  - apply bind_Ret_inv in H. destruct H as [s1 [H1 H2]]. eauto.
  - now inversion H; subst.
Qed.

End EachRangeFacts.

(** The recording callback runs the loop of the callback it wraps and
    collects its arguments. *)
Lemma with_log_visits {L : Type} (cb : Range -> L * World -> outcome (L * World))
    (sel : SelRef) fuel : forall i l log0 w l' log w',
  eachRange_from (fun st => getAllRanges (snd st) sel) (with_log cb) fuel i ((l, log0), w)
    = Ret ((l', log), w') ->
  exists vs, log = log0 ++ vs /\
    visits (fun st => getAllRanges (snd st) sel) cb i (l, w) vs (l', w').
Proof.
  induction fuel as [|fuel IH]; intros i l log0 w l' log w' H; simpl in H; [discriminate|].
  destruct (nth_error (getAllRanges w sel) i) as [r|] eqn:E.
  - apply bind_Ret_inv in H. destruct H as [[[l1 log1] w1] [H1 H2]].
    unfold with_log in H1. simpl in H1.
    apply bind_Ret_inv in H1. destruct H1 as [[l1' w1'] [H1 H1']].
    inversion H1'; subst; clear H1'. simpl in H2.
    destruct (IH _ _ _ _ _ _ _ H2) as [vs [Hlog Hv]].
    exists (r :: vs). split.
    + rewrite Hlog, <- app_assoc. reflexivity.
    + eapply visits_step; eauto.
  - inversion H; subst. exists []. split; [now rewrite app_nil_r|].
    apply visits_stop. exact E.
Qed.

Lemma with_log_complete {L : Type} (cb : Range -> L * World -> outcome (L * World))
    (sel : SelRef) i st vs st' :
  visits (fun st => getAllRanges (snd st) sel) cb i st vs st' ->
  forall fuel log0, List.length vs < fuel ->
    eachRange_from (fun st => getAllRanges (snd st) sel) (with_log cb) fuel i
                   ((fst st, log0), snd st)
    = Ret ((fst st', log0 ++ vs), snd st').
Proof.
  induction 1 as [i s E | i s r s1 log s2 E Hcb _ IH]; intros fuel log0 Hf.
  - destruct fuel; [inversion Hf|]. simpl in *. rewrite E. now rewrite app_nil_r.
  - destruct fuel; [inversion Hf|]. simpl in *. rewrite E.
    unfold with_log at 1. simpl. destruct s as [l w]. simpl. rewrite Hcb. simpl.
    rewrite IH by lia. now rewrite <- app_assoc.
Qed.

Lemma visits_exists_stable {St R : Type} (gar : St -> list R) (cb : R -> St -> outcome St) :
  (forall r a a', cb r a = Ret a' -> gar a' = gar a) ->
  (forall r a, returns (cb r a)) ->
  forall n i s, List.length (gar s) - i <= n -> exists log s', visits gar cb i s log s'.
Proof.
  intros Hst Hret. induction n as [|n IH]; intros i s Hn.
  - exists [], s. apply visits_stop. apply nth_error_None. lia.
  - destruct (nth_error (gar s) i) as [r|] eqn:E.
    + destruct (Hret r s) as [s1 Hs1].
      assert (Hlt : i < List.length (gar s)) by (apply nth_error_Some; congruence).
      destruct (IH (S i) s1) as [log [s' Hv]].
      { rewrite (Hst _ _ _ Hs1). lia. }
      exists (r :: log), s'. eapply visits_step; eauto.
    + exists [], s. now apply visits_stop.
Qed.

(** [selectionEachRange] asks the selection for its ranges again before
    every step: the k-th call of the callback gets entry k of the array
    fetched from the state the previous call left, and the loop ends at the
    first index the fetched array does not have, so no range of an earlier
    fetch is ever used.  When the callback returns and leaves the array of
    ranges as it is, the loop returns and the callback has been called
    exactly once for each range, in order. *)
Theorem selectionEachRange_refetches :
  forall (L : Type) (cb : Range -> L * World -> outcome (L * World))
         (selection : option SelRef) (l : L) (w : World),
    let sel := selection_or_window selection in
    (forall fuel l' log w',
        selectionEachRange (with_log cb) selection fuel ((l, []), w) = Ret ((l', log), w') ->
        visits (fun st => getAllRanges (snd st) sel) cb 0 (l, w) log (l', w'))
    /\ ((forall r a a', cb r a = Ret a' -> getAllRanges (snd a') sel = getAllRanges (snd a) sel) ->
        (forall r a, returns (cb r a)) ->
        exists l' w',
          selectionEachRange (with_log cb) selection (S (List.length (getAllRanges w sel)))
                             ((l, []), w)
          = Ret ((l', getAllRanges w sel), w')).
Proof.
  intros L cb selection l w sel. split.
  - intros fuel l' log w' H. unfold selectionEachRange in H.
    assert (E : js_or selection (rangy_getSelection (snd ((l, @nil Range), w))) = Some sel)
      by (destruct selection; reflexivity).
    rewrite E in H. apply with_log_visits in H. destruct H as [vs [Hlog Hv]].
    simpl in Hlog. now subst.
  - intros Hst Hret.
    destruct (@visits_exists_stable _ _ (fun st => getAllRanges (snd st) sel) cb Hst Hret
                (List.length (getAllRanges w sel)) 0 (l, w)) as [log [[l' w'] Hv]].
    { simpl. lia. }
    destruct (visits_stable _ _ _ _ _ _ Hst Hv) as [Hlog _]. simpl in Hlog.
    exists l', w'. unfold selectionEachRange.
    assert (E : js_or selection (rangy_getSelection (snd ((l, @nil Range), w))) = Some sel)
      by (destruct selection; reflexivity).
    rewrite E.
    pose proof (@with_log_complete _ _ _ _ _ _ _ Hv
                  (S (List.length (getAllRanges w sel))) []) as Hc.
    cbn [fst snd app] in Hc. rewrite Hc; [now rewrite Hlog | subst log; lia].
Qed.

Lemma selectionEachRange_refetches_witness :
  exists l' w',
    selectionEachRange (with_log inspect_range) None 3 ((tt, []), two_ranges)
    = Ret ((l', [mkRange 2 0 2 1; mkRange 4 0 4 1]), w').
Proof.
  apply (proj2 (selectionEachRange_refetches unit inspect_range None tt two_ranges)).
  - intros r a a' H. unfold inspect_range in H. inversion H. reflexivity.
  - intros r a. exists a. reflexivity.
Defined.

(** C1: the code does not do what the claim, and its own description, say.
    The array of ranges is fetched again before every step, but the index
    into it only grows.  With two ranges in the selection and a callback
    that removes the range it is given, the second range moves to index 0,
    which is passed: the callback is called for the first range only; the
    second range is in the selection before and after the loop and the
    callback is never called with it. *)
Theorem selectionEachRange_skips_a_range :
  exists w',
    selectionEachRange (with_log drop_range) None 5 ((tt, []), two_ranges)
    = Ret ((tt, [mkRange 2 0 2 1]), w')
    /\ In (mkRange 4 0 4 1) (getAllRanges two_ranges Win)
    /\ getAllRanges w' Win = [mkRange 4 0 4 1]
    /\ ~ In (mkRange 4 0 4 1) [mkRange 2 0 2 1].
Proof.
  eexists. split; [vm_compute; reflexivity|].
  split; [vm_compute; auto|].
  split; [reflexivity|].
  intros [H|[]]. discriminate H.
Qed.

(** ** [selectionReplace] *)

(** C9: the code does not do what the claim says.  [selectionReplace]
    returns the empty array whatever the selection is: with the [B] of
    [<p>ABC</p>] selected, the one [rangeReplace] puts the new element in
    and returns it, and [selectionReplace] returns no entry for it. *)
Theorem selectionReplace_returns_nothing :
  (forall content selection fuel w,
      match selectionReplace content selection fuel w with
      | Ret (result, _) => result = []
      | _ => True
      end)
  /\ (exists w', rangeReplace [MElem "b" [] [] [MText "x"]] (mkRange 2 1 2 2) b_selected
                 = Ret ([4], w'))
  /\ (exists w', selectionReplace [MElem "b" [] [] [MText "x"]] None 2 b_selected = Ret ([], w')
                 /\ render_html (outerHTML (document w')) = "<body><p>A<b>x</b>C</p></body>").
Proof.
  split; [|split].
  - intros content selection fuel w.
    destruct (selectionReplace content selection fuel w) as [[result w']| |] eqn:E; auto.
    unfold selectionReplace, selectionEachRange in E.
    destruct (js_or selection (rangy_getSelection (snd (@nil NodeRef, w)))) as [sel|];
      [|discriminate].
    eapply eachRange_from_invariant with (P := fun st => fst st = []) in E; auto.
    intros r a a' Ha H. apply bind_Ret_inv in H. destruct H as [[replaced w1] [_ H]].
    inversion H; subst. exact Ha.
  - eexists. vm_compute. reflexivity.
  - eexists. split; vm_compute; reflexivity.
Qed.

(** ** The document tree: paths and identities *)

Lemma first_some_Some {A : Type} (l : list (option A)) k a :
  first_some l = Some (k, a) ->
  nth_error l k = Some (Some a) /\ forall j, j < k -> nth_error l j = Some None.
Proof.
  revert k. induction l as [|[x|] l IH]; intros k H; simpl in H; try discriminate.
  - inversion H; subst. split; [reflexivity | intros j Hj; lia].
  - destruct (first_some l) as [[k' a']|] eqn:E; [|discriminate].
    inversion H; subst. destruct (IH _ eq_refl) as [H1 H2]. split; [exact H1|].
    intros [|j] Hj; simpl; [reflexivity | apply H2; lia].
Qed.

Lemma first_some_None {A : Type} (l : list (option A)) :
  first_some l = None -> forall o, In o l -> o = None.
Proof.
  induction l as [|[x|] l IH]; simpl; intros H o Ho; try discriminate; [contradiction|].
  destruct (first_some l) as [[k a]|] eqn:E; [discriminate|].
  destruct Ho as [<-|Ho]; auto.
Qed.

Lemma first_some_found {A : Type} (l : list (option A)) k a :
  nth_error l k = Some (Some a) -> (forall j, j < k -> nth_error l j = Some None) ->
  first_some l = Some (k, a).
Proof.
  revert k. induction l as [|o l IH]; intros [|k] H Hb; simpl in *; try discriminate.
  - now inversion H.
  - pose proof (Hb 0 ltac:(lia)) as H0. simpl in H0. inversion H0; subst.
    rewrite (IH k H); [reflexivity|]. intros j Hj. apply (Hb (S j)). lia.
Qed.

Lemma locate_sound i : forall n p,
  locate i n = Some p -> exists m, node_at p n = Some m /\ node_id m = i.
Proof.
  induction n as [j d | j t c a ks IH] using node_induction; intros p H; simpl in H.
  - destruct (j =? i) eqn:E; [|discriminate]. inversion H; subst.
    exists (Text j d). split; [reflexivity|]. now apply Nat.eqb_eq.
  - destruct (j =? i) eqn:E.
    + inversion H; subst. exists (Elem j t c a ks). split; [reflexivity|]. now apply Nat.eqb_eq.
    + destruct (first_some (map (locate i) ks)) as [[k q]|] eqn:F; [|discriminate].
      inversion H; subst. apply first_some_Some in F. destruct F as [F _].
      rewrite nth_error_map in F. destruct (nth_error ks k) as [child|] eqn:N; [|discriminate].
      simpl in F. inversion F as [F'].
      rewrite Forall_forall in IH.
      destruct (IH child (nth_error_In _ _ N) _ F') as [m [Hm1 Hm2]].
      exists m. split; [|exact Hm2]. simpl. now rewrite N.
Qed.

Lemma node_at_in_ids : forall p n m, node_at p n = Some m -> In (node_id m) (ids n).
Proof.
  induction p as [|k p IH]; intros n m H; simpl in H.
  - inversion H; subst. destruct m; simpl; auto.
  - destruct (nth_error (kids n) k) as [child|] eqn:N; [|discriminate].
    destruct n as [j d | j t c a ks]; simpl in *; [destruct k; discriminate|].
    right. apply in_flat_map. exists child. split; [now apply nth_error_In in N | now apply IH].
Qed.

Lemma locate_in_ids i n p : locate i n = Some p -> In i (ids n).
Proof.
  intros H. destruct (locate_sound _ _ _ H) as [m [Hm <-]]. eapply node_at_in_ids; eauto.
Qed.

Lemma locate_None i : forall n, ~ In i (ids n) -> locate i n = None.
Proof.
  induction n as [j d | j t c a ks IH] using node_induction; intros H; simpl in *.
  - destruct (j =? i) eqn:E; [|reflexivity]. apply Nat.eqb_eq in E. tauto.
  - destruct (j =? i) eqn:E; [apply Nat.eqb_eq in E; tauto|].
    destruct (first_some (map (locate i) ks)) as [[k q]|] eqn:F; [|reflexivity].
    exfalso. apply first_some_Some in F. destruct F as [F _].
    rewrite nth_error_map in F. destruct (nth_error ks k) as [child|] eqn:N; [|discriminate].
    simpl in F. inversion F as [F'].
    apply H. right. apply in_flat_map. exists child.
    split; [now apply nth_error_In in N | eapply locate_in_ids; eauto].
Qed.

Lemma NoDup_flat_map_nth {A B : Type} (f : A -> list B) (l : list A) :
  NoDup (flat_map f l) ->
  forall j k a b x, nth_error l j = Some a -> nth_error l k = Some b ->
    In x (f a) -> In x (f b) -> j = k.
Proof.
  induction l as [|y l IH]; intros ND j k a b x Hj Hk Ha Hb.
  - destruct j; discriminate.
  - simpl in ND. destruct j as [|j], k as [|k]; simpl in *.
    + reflexivity.
    + exfalso. inversion Hj; subst.
      apply NoDup_app_remove_l in ND as ND2.
      assert (In x (flat_map f l)) by (apply in_flat_map; exists b; split;
        [eapply nth_error_In; eauto | exact Hb]).
      clear - ND Ha H. induction (f a) as [|z r IHr]; [contradiction|].
      simpl in ND. inversion ND; subst. destruct Ha as [->|Ha]; [|auto].
      apply H2. apply in_or_app. now right.
    + exfalso. inversion Hk; subst.
      assert (In x (flat_map f l)) by (apply in_flat_map; exists a; split;
        [eapply nth_error_In; eauto | exact Ha]).
      clear - ND Hb H. induction (f b) as [|z r IHr]; [contradiction|].
      simpl in ND. inversion ND; subst. destruct Hb as [->|Hb]; [|auto].
      apply H2. apply in_or_app. now right.
    + f_equal. apply NoDup_app_remove_l in ND. eapply IH; eauto.
Qed.

Lemma NoDup_flat_map_each {A B : Type} (f : A -> list B) (l : list A) :
  NoDup (flat_map f l) -> forall a, In a l -> NoDup (f a).
Proof.
  induction l as [|y l IH]; intros ND a Ha; [contradiction|].
  simpl in ND. destruct Ha as [->|Ha].
  - now apply NoDup_app_remove_r in ND.
  - apply IH; [|exact Ha]. now apply NoDup_app_remove_l in ND.
Qed.

(** With distinct identities a node is found where it is. *)
Lemma locate_unique : forall p n m,
  NoDup (ids n) -> node_at p n = Some m -> locate (node_id m) n = Some p.
Proof.
  induction p as [|k p IH]; intros n m ND H; simpl in H.
  - inversion H; subst. destruct m; simpl; now rewrite Nat.eqb_refl.
  - destruct (nth_error (kids n) k) as [child|] eqn:N; [|discriminate].
    destruct n as [j d | j t c a ks]; simpl in N; [destruct k; discriminate|].
    simpl in ND. inversion ND as [|? ? Hnotin ND']; subst.
    assert (Hin : In (node_id m) (ids child)) by (eapply node_at_in_ids; eauto).
    simpl. destruct (j =? node_id m) eqn:E.
    { apply Nat.eqb_eq in E. exfalso. apply Hnotin. apply in_flat_map.
      exists child. split; [eapply nth_error_In; eauto | now rewrite E]. }
    rewrite (@first_some_found _ (map (locate (node_id m)) ks) k p); [reflexivity| |].
    + rewrite nth_error_map, N. simpl. f_equal. apply IH; [|exact H].
      eapply NoDup_flat_map_each; eauto. eapply nth_error_In; eauto.
    + intros i Hi. rewrite nth_error_map.
      destruct (nth_error ks i) as [ci|] eqn:Ni.
      * simpl. f_equal. apply locate_None. intros Hc.
        assert (i = k) by (eapply (NoDup_flat_map_nth ids ks ND'); eauto). lia.
      * exfalso. apply nth_error_None in Ni.
        assert (k < List.length ks) by (apply nth_error_Some; congruence). lia.
Qed.

Lemma getNode_id d i n : getNode d i = Some n -> node_id n = i.
Proof.
  unfold getNode. destruct (locate i d) as [p|] eqn:E; [|discriminate].
  intros H. destruct (locate_sound _ _ _ E) as [m [Hm Hi]]. congruence.
Qed.

Lemma getNode_unique d p m :
  NoDup (ids d) -> node_at p d = Some m -> getNode d (node_id m) = Some m.
Proof.
  intros ND H. unfold getNode. now rewrite (locate_unique _ _ _ ND H).
Qed.

Lemma node_at_app : forall p q n,
  node_at (p ++ q) n = match node_at p n with Some m => node_at q m | None => None end.
Proof.
  induction p as [|k p IH]; intros q n; simpl; [reflexivity|].
  destruct (nth_error (kids n) k); [apply IH | reflexivity].
Qed.

Lemma node_at_parent p d m :
  p <> [] -> node_at p d = Some m ->
  exists par, node_at (removelast p) d = Some par /\ is_element par = true
              /\ nth_error (kids par) (last p 0) = Some m.
Proof.
  intros Hp H. rewrite (app_removelast_last 0 Hp) in H at 1.
  rewrite node_at_app in H.
  destruct (node_at (removelast p) d) as [par|]; [|discriminate].
  simpl in H. destruct (nth_error (kids par) (last p 0)) as [c|] eqn:N; [|discriminate].
  inversion H; subst. exists par. split; [reflexivity|]. split; [|exact N].
  destruct par; simpl in N; [destruct (last p 0); discriminate | reflexivity].
Qed.

(** ** The elements of a selection *)

Lemma deref_Ret w i n : deref w i = Ret n -> getNode (document w) i = Some n.
Proof.
  unfold deref. destruct (getNode (document w) i); intros H; inversion H; reflexivity.
Qed.

Lemma nodeType_text n : (nodeType n =? TEXT_NODE) = negb (is_element n).
Proof. destruct n; reflexivity. Qed.

(** The parent of a node of the document is an element of the document. *)
Lemma parentNode_element d i n :
  NoDup (ids d) -> is_element d = true ->
  getNode d i = Some n -> is_element n = false ->
  exists par, parentNode d i = Some par /\ getNode d (node_id par) = Some par
              /\ is_element par = true.
Proof.
  intros ND Hroot Hn Htext. unfold getNode in Hn. unfold parentNode.
  destruct (locate i d) as [p|] eqn:E; [|discriminate].
  destruct p as [|k p].
  { simpl in Hn. inversion Hn; subst. congruence. }
  destruct (node_at_parent (k :: p) d n ltac:(discriminate) Hn) as [par [H1 [H2 _]]].
  exists par. unfold parent_path. rewrite H1. split; [reflexivity|]. split; [|exact H2].
  eapply getNode_unique; eauto.
Qed.

Lemma boundary_element w i n :
  NoDup (ids (document w)) -> is_element (document w) = true ->
  deref w i = Ret n ->
  element_of (document w)
    (if nodeType n =? TEXT_NODE then jq_of (parentElement (document w) i) else [i]).
Proof.
  intros ND Hroot H. apply deref_Ret in H. rewrite nodeType_text.
  destruct (is_element n) eqn:En; simpl.
  - exists n. rewrite (getNode_id _ _ _ H). auto.
  - destruct (parentNode_element _ _ _ ND Hroot H En) as [par [H1 [H2 H3]]].
    unfold parentElement. rewrite H1, H3. simpl. exists par. auto.
Qed.

Lemma common_prefix_is_prefix : forall a b, exists r, a = common_prefix a b ++ r.
Proof.
  induction a as [|x a IH]; intros [|y b]; simpl; try (eexists; reflexivity).
  destruct (x =? y); [|eexists; reflexivity].
  destruct (IH b) as [r Hr]. exists r. simpl. now f_equal.
Qed.

Lemma parent_is_element d i par :
  NoDup (ids d) -> parentNode d i = Some par ->
  is_element par = true /\ getNode d (node_id par) = Some par
  /\ parentElement d i = Some par.
Proof.
  intros ND H. unfold parentElement. rewrite H. unfold parentNode, parent_path in H.
  destruct (locate i d) as [p|] eqn:L; [|discriminate].
  destruct p as [|k p]; [discriminate|].
  destruct (locate_sound _ _ _ L) as [m [Hm _]].
  destruct (node_at_parent (k :: p) d m ltac:(discriminate) Hm) as [par' [H1 [H2 _]]].
  assert (par' = par) by congruence. subst par'.
  rewrite H2. split; [reflexivity|]. split; [|reflexivity].
  now apply (getNode_unique d (removelast (k :: p))).
Qed.

(** C10 (amended).  Without an anchor node [selectionGetStartElement] and
    [selectionGetEndElement] return [null].  Otherwise the start element
    is taken from the end of the selection that comes first in the document
    (the focus of a backwards selection, the anchor otherwise), the end
    element from the other end, and [selectionGetElement] from the common
    ancestor container of the range: the result is that node itself when it
    is not a text node, and the parent of a text node.  The parent of a
    text node is an element of the document, so in a document whose root is
    an element every result is an element; a text node without a parent
    gives an empty object. *)
Theorem selection_elements_text_to_parent :
  forall w : World,
    let d := document w in
    let s := windowSelection w in
    (anchorNode s = None ->
       selectionGetStartElement w = Ret None /\ selectionGetEndElement w = Ret None)
    /\ (forall a f n,
          anchorNode s = Some a -> focusNode s = Some f ->
          deref w (if isBackwards d s then f else a) = Ret n ->
          selectionGetStartElement w
          = Ret (Some (if is_element n then [if isBackwards d s then f else a]
                       else jq_of (parentElement d (if isBackwards d s then f else a)))))
    /\ (forall a f n,
          anchorNode s = Some a -> focusNode s = Some f ->
          deref w (if isBackwards d s then a else f) = Ret n ->
          selectionGetEndElement w
          = Ret (Some (if is_element n then [if isBackwards d s then a else f]
                       else jq_of (parentElement d (if isBackwards d s then a else f)))))
    /\ (forall range cac,
          commonAncestorContainer d range = Some cac ->
          selectionGetElement (Some range) w
          = Ret (if is_element cac then [node_id cac]
                 else jq_of (parentNode d (node_id cac))))
    /\ (NoDup (ids d) ->
        forall i par, parentNode d i = Some par ->
          jq_of (parentNode d i) = [node_id par] /\ jq_of (parentElement d i) = [node_id par]
          /\ element_of d [node_id par])
    /\ (forall i, parentNode d i = None ->
          jq_of (parentNode d i) = [] /\ jq_of (parentElement d i) = [])
    /\ (NoDup (ids d) -> is_element d = true ->
        (forall j, selectionGetStartElement w = Ret (Some j) -> element_of d j)
        /\ (forall j, selectionGetEndElement w = Ret (Some j) -> element_of d j)
        /\ (forall range j, selectionGetElement range w = Ret j -> element_of d j)).
Proof.
  intros w d s. subst d s.
  split; [|split; [|split; [|split; [|split; [|split]]]]].
  - intros H. unfold selectionGetStartElement, selectionGetEndElement.
    cbn [rangy_getSelection nonnull bind get_sel]. now rewrite H.
  - intros a f n Ha Hf Hn. unfold selectionGetStartElement.
    cbn [rangy_getSelection nonnull bind get_sel]. rewrite Ha, Hf.
    destruct (isBackwards (document w) (windowSelection w)); cbn [nonnull bind];
      rewrite Hn; cbn [bind]; rewrite nodeType_text; now destruct (is_element n).
  - intros a f n Ha Hf Hn. unfold selectionGetEndElement.
    cbn [rangy_getSelection nonnull bind get_sel]. rewrite Ha, Hf.
    destruct (isBackwards (document w) (windowSelection w)); cbn [nonnull bind];
      rewrite Hn; cbn [bind]; rewrite nodeType_text; now destruct (is_element n).
  - intros range cac C. unfold selectionGetElement. cbn [bind]. rewrite C.
    rewrite nodeType_text. now destruct (is_element cac).
  - intros ND i par H. destruct (parent_is_element _ _ _ ND H) as [H1 [H2 H3]].
    rewrite H, H3. cbn [jq_of]. split; [reflexivity|]. split; [reflexivity|].
    exists par. auto.
  - intros i H. unfold parentElement. now rewrite H.
  - intros ND Hroot. split; [|split].
    + intros j H. unfold selectionGetStartElement in H. simpl in H.
      destruct (anchorNode (windowSelection w)) as [anchor|]; [|discriminate].
      destruct (isBackwards (document w) (windowSelection w)).
      * apply bind_Ret_inv in H. destruct H as [focus [H1 H]].
        apply bind_Ret_inv in H. destruct H as [n [H2 H]].
        inversion H; subst. now apply boundary_element.
      * apply bind_Ret_inv in H. destruct H as [n [H2 H]].
        inversion H; subst. now apply boundary_element.
    + intros j H. unfold selectionGetEndElement in H. simpl in H.
      destruct (anchorNode (windowSelection w)) as [anchor|]; [|discriminate].
      destruct (isBackwards (document w) (windowSelection w)).
      * apply bind_Ret_inv in H. destruct H as [n [H2 H]].
        inversion H; subst. now apply boundary_element.
      * apply bind_Ret_inv in H. destruct H as [focus [H1 H]].
        apply bind_Ret_inv in H. destruct H as [n [H2 H]].
        inversion H; subst. now apply boundary_element.
    + intros range j H. unfold selectionGetElement in H.
      apply bind_Ret_inv in H. destruct H as [r [_ H]].
      destruct (commonAncestorContainer (document w) r) as [cac|] eqn:C; [|discriminate].
      inversion H; subst; clear H.
      unfold commonAncestorContainer in C.
      destruct (locate (startContainer r) (document w)) as [ps|]; [|discriminate].
      destruct (locate (endContainer r) (document w)) as [pe|]; [|discriminate].
      pose proof (getNode_unique _ _ _ ND C) as G.
      rewrite nodeType_text. destruct (is_element cac) eqn:Ec; simpl.
      * exists cac. auto.
      * destruct (parentNode_element _ _ _ ND Hroot G Ec) as [par [H1 [H2 H3]]].
        rewrite H1. simpl. exists par. auto.
Qed.

(** The selection of [ab_cd] starts in the text [ab] of the paragraph and
    ends in the text [cd] of the [b] element: the start element is the
    paragraph, the end element the [b] element. *)
Lemma selection_elements_text_to_parent_witness :
  selectionGetStartElement ab_cd = Ret (Some [1])
  /\ selectionGetEndElement ab_cd = Ret (Some [3])
  /\ element_of (document ab_cd) [3].
Proof.
  destruct (selection_elements_text_to_parent ab_cd) as [_ [H2 [H3 [_ [H5 _]]]]].
  split; [exact (H2 2 4 (Text 2 "ab") eq_refl eq_refl eq_refl)|].
  split; [exact (H3 2 4 (Text 4 "cd") eq_refl eq_refl eq_refl)|].
  exact (proj2 (proj2 (H5 ltac:(distinct_ids) 4 (Elem 3 "b" [] [] [Text 4 "cd"]) eq_refl))).
Defined.

(** C10, as stated, fails: for a range in a text node that has no parent
    [selectionGetElement] returns an empty object, which holds no element. *)
Lemma selectionGetElement_of_a_lone_text_node :
  commonAncestorContainer (document lone_text) (mkRange 0 0 0 3) = Some (Text 0 "abc")
  /\ selectionGetElement (Some (mkRange 0 0 0 3)) lone_text = Ret []
  /\ ~ element_of (document lone_text) [].
Proof.
  split; [reflexivity|]. split; [reflexivity|].
  intros [n [H _]]. discriminate H.
Qed.

(** ** The caret at the edge of an element *)

(** C7: the code does not do what the claim says.  [selectionAtEndOfElement]
    takes the node of the end of the selection and the offset of its start.
    A selection that ends at the end of its text node, with nothing after
    it, is reported as not at the end, forwards and backwards; a selection
    that ends in the middle of [cd] is reported as at the end. *)
Theorem selectionAtEndOfElement_takes_start_offset :
  (isBackwards (document abc_forwards) (windowSelection abc_forwards) = false
   /\ focusOffset (windowSelection abc_forwards) = String.length "abc"
   /\ nextSibling (document abc_forwards) 2 = None
   /\ selectionAtEndOfElement abc_forwards = Ret false)
  /\ (isBackwards (document abc_backwards) (windowSelection abc_backwards) = true
      /\ anchorOffset (windowSelection abc_backwards) = String.length "abc"
      /\ selectionAtEndOfElement abc_backwards = Ret false)
  /\ (isBackwards (document ab_cd) (windowSelection ab_cd) = false
      /\ focusOffset (windowSelection ab_cd) <> String.length "cd"
      /\ selectionAtEndOfElement ab_cd = Ret true).
Proof.
  repeat split; try reflexivity. simpl. discriminate.
Qed.

(** The other three queries take node and offset from the same end. *)
Lemma selectionAtStartOfElement_forwards w a n :
  isBackwards (document w) (windowSelection w) = false ->
  anchorNode (windowSelection w) = Some a ->
  deref w a = Ret n ->
  selectionAtStartOfElement w
  = Ret ((anchorOffset (windowSelection w) =? 0)
         && absent_or_empty (previousSibling (document w) a)).
Proof.
  intros Hb Ha Hn. unfold selectionAtStartOfElement. simpl. rewrite Hb, Ha. simpl.
  destruct (anchorOffset (windowSelection w) =? 0); simpl; [|reflexivity].
  rewrite Hn. simpl. now destruct (absent_or_empty _).
Qed.

Lemma selectionAtStartOfElement_backwards w f n :
  isBackwards (document w) (windowSelection w) = true ->
  focusNode (windowSelection w) = Some f ->
  deref w f = Ret n ->
  selectionAtStartOfElement w
  = Ret ((focusOffset (windowSelection w) =? 0)
         && absent_or_empty (previousSibling (document w) f)).
Proof.
  intros Hb Hf Hn. unfold selectionAtStartOfElement. simpl. rewrite Hb, Hf. simpl.
  destruct (focusOffset (windowSelection w) =? 0); simpl; [|reflexivity].
  rewrite Hn. simpl. now destruct (absent_or_empty _).
Qed.

(** ** [selectionConstrain] *)

Lemma range_eqb_eq a b : range_eqb a b = true <-> a = b.
Proof.
  unfold range_eqb. destruct a, b; simpl. rewrite !andb_true_iff, !Nat.eqb_eq.
  split; [intros [[[-> ->] ->] ->]; reflexivity | intros H; inversion H; auto].
Qed.

Lemma ranges_selection_of rs b : ranges (selection_of rs b) = rs.
Proof.
  unfold selection_of. destruct (rev rs) eqn:E.
  - apply (f_equal (@rev Range)) in E. rewrite rev_involutive in E. now subst.
  - now destruct b.
Qed.

Lemma nth_list_set {A : Type} (k : nat) (a : A) (l : list A) (dflt : A) :
  k < List.length l -> nth k (list_set k a l) dflt = a.
Proof.
  revert k. induction l as [|x l IH]; intros [|k] H; simpl in *; try lia; [reflexivity|].
  apply IH. lia.
Qed.

Lemma list_set_overflow {A : Type} (k : nat) (a : A) (l : list A) :
  List.length l <= k -> list_set k a l = l.
Proof.
  revert k. induction l as [|x l IH]; intros [|k] H; simpl in *; try lia; try reflexivity.
  f_equal. apply IH. lia.
Qed.

Lemma ranges_removeRange s r w :
  getAllRanges (removeRange s r w) s
  = filter (fun x => negb (range_eqb x r)) (getAllRanges w s).
Proof.
  unfold getAllRanges, removeRange. destruct s as [|k]; simpl.
  - apply ranges_selection_of.
  - destruct (Nat.lt_ge_cases k (List.length (frameSelections w))) as [H|H].
    + rewrite nth_list_set by exact H. apply ranges_selection_of.
    + rewrite list_set_overflow by exact H. rewrite nth_overflow by exact H. reflexivity.
Qed.

Lemma document_removeRange s r w : document (removeRange s r w) = document w.
Proof. unfold removeRange. now destruct s. Qed.

Lemma constrain_range_spec e sel r w :
  commonAncestorContainer (document w) r <> None ->
  constrain_range (Some e) sel r w
  = Ret (if range_kept (document w) e r then w else removeRange sel r w).
Proof.
  intros H. unfold constrain_range, range_kept.
  destruct (commonAncestorContainer (document w) r) as [cac|]; [clear H | congruence].
  rewrite nodeType_text. destruct (is_element cac); simpl.
  - destruct (e =? node_id cac); simpl; [reflexivity|].
    now destruct (strictly_contains _ _ _).
  - unfold jq_parent. simpl.
    destruct (parentNode (document w) (node_id cac)) as [par|]; simpl; [|reflexivity].
    destruct (e =? node_id par); simpl; [reflexivity|].
    now destruct (strictly_contains _ _ _).
Qed.

Lemma filter_filter {A : Type} (f g : A -> bool) (l : list A) :
  filter f (filter g l) = filter (fun x => g x && f x) l.
Proof.
  induction l as [|x l IH]; simpl; [reflexivity|].
  destruct (g x); simpl; [destruct (f x); now rewrite IH | exact IH].
Qed.

Lemma constrain_each e sel : forall (l : list Range) (w : World),
  (forall r, In r l -> commonAncestorContainer (document w) r <> None) ->
  exists w',
    jq_each (constrain_range (Some e) sel) l w = Ret w'
    /\ document w' = document w
    /\ getAllRanges w' sel
       = filter (fun x => forallb (fun r => range_kept (document w) e r || negb (range_eqb x r)) l)
                (getAllRanges w sel).
Proof.
  induction l as [|r l IH]; intros w Hwf.
  - exists w. simpl. repeat split.
    induction (getAllRanges w sel) as [|x rs IHrs]; simpl; congruence.
  - simpl. rewrite constrain_range_spec by (apply Hwf; now left). simpl.
    set (w1 := if range_kept (document w) e r then w else removeRange sel r w).
    assert (Hd : document w1 = document w).
    { unfold w1. destruct (range_kept _ _ _); [reflexivity | apply document_removeRange]. }
    destruct (IH w1) as [w' [H1 [H2 H3]]].
    { intros x Hx. rewrite Hd. apply Hwf. now right. }
    exists w'. split; [exact H1|]. split; [congruence|].
    rewrite H3, Hd. unfold w1. destruct (range_kept (document w) e r) eqn:K; simpl.
    + reflexivity.
    + rewrite ranges_removeRange, filter_filter. reflexivity.
Qed.

(** C8 (amended).  [selectionConstrain] removes from the selection exactly
    the ranges whose common ancestor container (the parent, for a text node)
    is neither the element nor strictly inside it, and keeps the others; it
    does nothing else, so a selection that loses all its ranges is left
    without a range.  The move to the start of the element is taken only
    when there is no selection object, and [rangy.getSelection] always
    gives one. *)
Theorem selectionConstrain_keeps_contained_ranges :
  forall (e : NodeRef) (rest : jq) (selection : option SelRef) (w : World),
    let sel := selection_or_window selection in
    (forall r, In r (getAllRanges w sel) -> commonAncestorContainer (document w) r <> None) ->
    exists w',
      selectionConstrain (e :: rest) selection w = Ret w'
      /\ document w' = document w
      /\ getAllRanges w' sel = filter (range_kept (document w) e) (getAllRanges w sel).
Proof.
  intros e rest selection w sel Hwf. unfold selectionConstrain.
  assert (E : js_or selection (rangy_getSelection w) = Some sel) by (destruct selection; reflexivity).
  rewrite E. simpl.
  destruct (constrain_each e sel (getAllRanges w sel) w Hwf) as [w' [H1 [H2 H3]]].
  exists w'. split; [exact H1|]. split; [exact H2|]. rewrite H3.
  apply filter_ext_in. intros x Hx.
  destruct (range_kept (document w) e x) eqn:K.
  - apply forallb_forall. intros r Hr. destruct (range_eqb x r) eqn:Q.
    + apply range_eqb_eq in Q. subst. now rewrite K.
    + now rewrite orb_true_r.
  - apply not_true_is_false. intros F. rewrite forallb_forall in F.
    specialize (F x Hx). rewrite K in F. simpl in F.
    rewrite (proj2 (range_eqb_eq x x) eq_refl) in F. discriminate.
Qed.

Lemma selectionConstrain_keeps_contained_ranges_witness :
  exists w',
    selectionConstrain [1] None in_and_out_selected = Ret w'
    /\ document w' = document in_and_out_selected
    /\ getAllRanges w' Win = [mkRange 2 0 2 2].
Proof.
  apply (selectionConstrain_keeps_contained_ranges 1 [] None in_and_out_selected).
  intros r [<-|[<-|[]]]; vm_compute; discriminate.
Defined.

(** C8, as stated, fails: constrained to the [div], a selection of the
    paragraph outside it loses its only range and is left without any; the
    collapsed range at the start of the [div], which [selectionSelectStart]
    would set, is not there. *)
Lemma selectionConstrain_leaves_no_range :
  exists w',
    selectionConstrain [1] None out_selected = Ret w'
    /\ getAllRanges w' Win = []
    /\ (exists w2, selectionSelectStart [1] None out_selected = Ret w2
                   /\ getAllRanges w2 Win = [mkRange 1 0 1 0])
    /\ getAllRanges w' Win <> [mkRange 1 0 1 0].
Proof.
  eexists. split; [vm_compute; reflexivity|]. split; [reflexivity|].
  split; [|discriminate].
  eexists. split; [vm_compute; reflexivity | reflexivity].
Qed.

(** ** Siblings in document order *)

Lemma compare_pos_app q : forall a b, compare_pos (q ++ a) (q ++ b) = compare_pos a b.
Proof.
  induction q as [|x q IH]; intros a b; simpl; [reflexivity|].
  rewrite Nat.compare_refl. apply IH.
Qed.

Section Siblings.
Variable d : node.
Hypothesis distinct : NoDup (ids d).
Variable q : list nat.
Variable par : node.
Hypothesis par_at : node_at q d = Some par.

Lemma sibling_locate i n :
  nth_error (kids par) i = Some n -> locate (node_id n) d = Some (q ++ [i]).
Proof.
  intros H. apply locate_unique; [exact distinct|].
  rewrite node_at_app, par_at. simpl. now rewrite H.
Qed.

Lemma sibling_parent i n :
  nth_error (kids par) i = Some n -> parentNode d (node_id n) = Some par.
Proof.
  intros H. unfold parentNode. rewrite (sibling_locate _ _ H).
  unfold parent_path. destruct (q ++ [i]) eqn:E; [now destruct q|].
  rewrite <- E, removelast_last. exact par_at.
Qed.

Lemma sibling_following i n :
  nth_error (kids par) i = Some n ->
  following_siblings d (node_id n) = skipn (S i) (kids par).
Proof.
  intros H. unfold following_siblings.
  rewrite (sibling_locate _ _ H), (sibling_parent _ _ H).
  unfold child_index. now rewrite last_last.
Qed.


Lemma sibling_ids_differ i j a b :
  nth_error (kids par) i = Some a -> nth_error (kids par) j = Some b ->
  i <> j -> node_id a <> node_id b.
Proof.
  intros Ha Hb Hij E.
  pose proof (sibling_locate _ _ Ha) as La. pose proof (sibling_locate _ _ Hb) as Lb.
  rewrite E, Lb in La. inversion La as [La']. apply app_inv_head in La'.
  inversion La'. congruence.
Qed.




End Siblings.



(** *** [jQuery.unique] on lists that are in document order already *)









(** ** [selectionEachBlock] *)

Lemma for_each_with_blocks {L : Type} (cb : NodeRef -> L * World -> outcome (L * World)) :
  forall blocks l log0 w,
    for_each (with_blocks cb) blocks ((l, log0), w)
    = (let* st' := for_each cb blocks (l, w) in Ret ((fst st', log0 ++ blocks), snd st')).
Proof.
  induction blocks as [|b blocks IH]; intros l log0 w; simpl.
  - now rewrite app_nil_r.
  - unfold with_blocks at 1. simpl. destruct (cb b (l, w)) as [[l1 w1]| |]; simpl; try reflexivity.
    rewrite IH. rewrite <- app_assoc. reflexivity.
Qed.



Lemma nth_error_split_at {A : Type} : forall (l : list A) k b,
  nth_error l k = Some b ->
  firstn (S k) l = firstn k l ++ [b] /\ l = firstn k l ++ b :: skipn (S k) l.
Proof.
  induction l as [|x l IH]; intros [|k] b H; simpl in H; try discriminate.
  - inversion H; subst. split; reflexivity.
  - destruct (IH k b H) as [E1 E2]. split.
    + change (firstn (S (S k)) (x :: l)) with (x :: firstn (S k) l). rewrite E1. reflexivity.
    + change (firstn (S k) (x :: l)) with (x :: firstn k l).
      change (skipn (S (S k)) (x :: l)) with (skipn (S k) l).
      simpl. f_equal. exact E2.
Qed.

Lemma skipn_cons_nth {A : Type} : forall (l : list A) i a,
  nth_error l i = Some a -> skipn i l = a :: skipn (S i) l.
Proof.
  induction l as [|x l IH]; intros [|i] a H; simpl in H; try discriminate.
  - now inversion H.
  - apply (IH i a H).
Qed.


Lemma jq_mem_single a b : jq_mem a [b] = (a =? b).
Proof. unfold jq_mem. simpl. apply orb_false_r. Qed.





(** When the end block is not a sibling of the start block, all the
    siblings after the start block are visited, those after the end block
    too. *)
Lemma selectionEachBlock_beyond_the_end_block :
  elementClosestBlock ua_display (document paragraph_and_list) [3] [1] = Some [2]
  /\ elementClosestBlock ua_display (document paragraph_and_list) [6] [1] = Some [5]
  /\ eachBlock_range ua_display (with_blocks no_callback) [1] (Some "div") (mkRange 3 0 6 1)
                     ((tt, []), paragraph_and_list)
     = Ret ((tt, [2; 4; 5; 9]), paragraph_and_list).
Proof.
  repeat split; reflexivity.
Qed.

(** ** Class names *)

Lemma string_app_assoc (a b c : string) : ((a ++ b) ++ c)%string = (a ++ (b ++ c))%string.
Proof. induction a as [|x a IH]; simpl; [reflexivity | now rewrite IH]. Qed.

Lemma string_app_nil_r (a : string) : (a ++ EmptyString)%string = a.
Proof. induction a as [|x a IH]; simpl; [reflexivity | now rewrite IH]. Qed.

Lemma words_from_token t : forall cur rest,
  forallb (fun c => negb (is_space c)) (list_ascii_of_string t) = true ->
  words_from cur (t ++ rest)%string = words_from (cur ++ t)%string rest.
Proof.
  induction t as [|c t IH]; intros cur rest H; simpl.
  - now rewrite string_app_nil_r.
  - simpl in H. apply andb_true_iff in H. destruct H as [Hc Ht].
    apply negb_true_iff in Hc. rewrite Hc. rewrite IH by exact Ht.
    now rewrite string_app_assoc.
Qed.

(** Joining class names with a blank and splitting the string again gives
    the class names back. *)
Lemma words_join l :
  Forall (fun s => is_class_token s = true) l -> words (join_space l) = l.
Proof.
  induction 1 as [|x l Hx Hl IH]; [reflexivity|].
  unfold is_class_token in Hx. apply andb_true_iff in Hx. destruct Hx as [Hne Hsp].
  assert (Hx : x <> EmptyString).
  { intros ->. discriminate. }
  unfold words, join_space in *. destruct l as [|y r].
  - simpl. rewrite <- (string_app_nil_r x) at 1. rewrite words_from_token by exact Hsp.
    simpl. destruct x; [congruence | reflexivity].
  - change (String.concat " " (x :: y :: r))
      with (x ++ String " " (String.concat " " (y :: r)))%string.
    rewrite words_from_token by exact Hsp. simpl append at 1.
    change (words_from x (String " " (String.concat " " (y :: r))))
      with (match x with EmptyString => words_from EmptyString (String.concat " " (y :: r))
                       | _ => x :: words_from EmptyString (String.concat " " (y :: r)) end).
    rewrite IH. destruct x; [congruence | reflexivity].
Qed.

(** ** What a reference stands for: identity, kind and classes *)

Lemma labels_head n : labels n = label_of n :: flat_map labels (kids n).
Proof. destruct n; reflexivity. Qed.

Lemma ids_labels : forall n, ids n = map label_id (labels n).
Proof.
  induction n as [i d | i t c a ks IH] using node_induction; simpl; [reflexivity|].
  f_equal. induction IH as [|k ks Hk _ IHks]; simpl; [reflexivity|].
  now rewrite map_app, <- Hk, IHks.
Qed.

Lemma node_at_label : forall p d n, node_at p d = Some n -> In (label_of n) (labels d).
Proof.
  induction p as [|k p IH]; intros d n H; simpl in H.
  - inversion H; subst. rewrite labels_head. now left.
  - destruct (nth_error (kids d) k) as [child|] eqn:N; [|discriminate].
    rewrite labels_head. right. apply in_flat_map. exists child.
    split; [eapply nth_error_In; eauto | eapply IH; eauto].
Qed.

Lemma label_node_at : forall d x, In x (labels d) ->
  exists p n, node_at p d = Some n /\ label_of n = x.
Proof.
  induction d as [i s | i t c a ks IH] using node_induction; intros x H.
  - destruct H as [<-|[]]. exists [], (Text i s). split; reflexivity.
  - destruct H as [<-|H].
    + exists [], (Elem i t c a ks). split; reflexivity.
    + apply in_flat_map in H. destruct H as [child [Hc Hx]].
      rewrite Forall_forall in IH. destruct (IH child Hc x Hx) as [p [n [Hp Hn]]].
      apply In_nth_error in Hc. destruct Hc as [k Hk].
      exists (k :: p), n. split; [|exact Hn]. simpl. now rewrite Hk.
Qed.

Lemma label_lookup d j e c :
  NoDup (ids d) -> In (j, e, c) (labels d) ->
  elem_in d j = e /\ forall x, hasClass d j x = existsb (String.eqb x) c.
Proof.
  intros ND H. destruct (label_node_at d _ H) as [p [n [Hp Hn]]].
  unfold label_of in Hn. inversion Hn; subst.
  unfold elem_in, hasClass. rewrite (getNode_unique d p n ND Hp). split; reflexivity.
Qed.

Lemma absent_lookup d j :
  ~ In j (ids d) -> elem_in d j = false /\ forall x, hasClass d j x = false.
Proof.
  intros H. unfold elem_in, hasClass, getNode. rewrite (locate_None j d H). split; reflexivity.
Qed.

Lemma getNode_label d i n : getNode d i = Some n -> In (label_of n) (labels d).
Proof.
  unfold getNode. destruct (locate i d) as [p|]; [|discriminate]. apply node_at_label.
Qed.

Lemma present_label d j :
  In j (ids d) -> exists e c, In (j, e, c) (labels d).
Proof.
  rewrite ids_labels. intros H. apply in_map_iff in H. destruct H as [[[i e] c] [Hi Hin]].
  simpl in Hi. subst. eauto.
Qed.

(** Two documents in which a reference stands for the same thing. *)
Lemma labels_agree d d' j :
  NoDup (ids d) -> NoDup (ids d') ->
  (forall e c, In (j, e, c) (labels d) -> In (j, e, c) (labels d')) ->
  In j (ids d) ->
  elem_in d' j = elem_in d j /\ forall x, hasClass d' j x = hasClass d j x.
Proof.
  intros ND ND' H Hj. destruct (present_label d j Hj) as [e [c Hin]].
  destruct (label_lookup d j e c ND Hin) as [E1 E2].
  destruct (label_lookup d' j e c ND' (H _ _ Hin)) as [E1' E2'].
  split; [congruence|]. intros x. now rewrite E2, E2'.
Qed.

Lemma kids_set_kids ks n : kids (set_kids ks n) = if is_element n then ks else [].
Proof. destruct n; reflexivity. Qed.

Lemma label_of_set_kids ks n : label_of (set_kids ks n) = label_of n.
Proof. destruct n; reflexivity. Qed.

Lemma list_modify_split {A : Type} (f : A -> A) : forall (l : list A) k a,
  nth_error l k = Some a ->
  l = firstn k l ++ a :: skipn (S k) l
  /\ list_modify k f l = firstn k l ++ f a :: skipn (S k) l.
Proof.
  induction l as [|x l IH]; intros [|k] a H; simpl in H; try discriminate.
  - inversion H; subst. split; reflexivity.
  - destruct (IH k a H) as [E1 E2]. split.
    + change (firstn (S k) (x :: l)) with (x :: firstn k l).
      change (skipn (S (S k)) (x :: l)) with (skipn (S k) l). simpl. now f_equal.
    + change (firstn (S k) (x :: l)) with (x :: firstn k l).
      change (skipn (S (S k)) (x :: l)) with (skipn (S k) l). simpl. now f_equal.
Qed.

(** Rewriting the node at a path changes the part of the labels that
    belongs to that node and nothing else. *)
Lemma labels_modify_at : forall p d n,
  node_at p d = Some n ->
  exists pre post,
    labels d = pre ++ labels n ++ post
    /\ forall g, labels (modify_at p g d) = pre ++ labels (g n) ++ post.
Proof.
  induction p as [|k p IH]; intros d n H; simpl in H.
  - inversion H; subst. exists [], []. split; [now rewrite app_nil_r|].
    intros g. simpl. now rewrite app_nil_r.
  - destruct (nth_error (kids d) k) as [child|] eqn:N; [|discriminate].
    destruct (IH child n H) as [pre [post [E1 E2]]].
    destruct (list_modify_split (fun c => c) (kids d) k child N) as [S1 _].
    exists (label_of d :: flat_map labels (firstn k (kids d)) ++ pre),
           (post ++ flat_map labels (skipn (S k) (kids d))).
    split.
    + rewrite labels_head. rewrite S1 at 1. rewrite flat_map_app. simpl. rewrite E1.
      rewrite <- !app_assoc. reflexivity.
    + intros g. simpl. rewrite labels_head, label_of_set_kids, kids_set_kids.
      assert (El : is_element d = true).
      { destruct d; [destruct k; discriminate | reflexivity]. }
      rewrite El.
      destruct (list_modify_split (modify_at p g) (kids d) k child N) as [_ S2].
      rewrite S2, flat_map_app. simpl. rewrite E2. rewrite <- !app_assoc. reflexivity.
Qed.

(** ** Adding and removing classes *)

Lemma hasClass_classes_at d i x :
  hasClass d i x = elem_in d i && existsb (String.eqb x) (classes_at d i).
Proof.
  unfold hasClass, elem_in, classes_at, has_class.
  destruct (getNode d i) as [[|]|]; reflexivity.
Qed.

Lemma modify_classes_spec d i g :
  NoDup (ids d) ->
  ids (modify_node i (reclass g) d) = ids d
  /\ (forall j, elem_in (modify_node i (reclass g) d) j = elem_in d j)
  /\ (forall j x, hasClass (modify_node i (reclass g) d) j x
                  = if j =? i then elem_in d i && existsb (String.eqb x) (g (classes_at d i))
                    else hasClass d j x).
Proof.
  intros ND. unfold modify_node. destruct (locate i d) as [p|] eqn:L.
  - destruct (locate_sound i d p L) as [n [Hn Hid]].
    assert (G : getNode d i = Some n) by (unfold getNode; now rewrite L).
    destruct (labels_modify_at p d n Hn) as [pre [post [E1 E2]]].
    specialize (E2 (reclass g)).
    assert (Hf : labels (reclass g n)
                 = (i, is_element n, classes_of (reclass g n)) :: flat_map labels (kids n)).
    { rewrite labels_head. unfold label_of. destruct n; simpl in *; now subst. }
    rewrite Hf in E2. rewrite (labels_head n) in E1. unfold label_of in E1. rewrite Hid in E1.
    assert (Hids : ids (modify_at p (reclass g) d) = ids d).
    { rewrite !ids_labels, E1, E2, !map_app. reflexivity. }
    assert (ND' : NoDup (ids (modify_at p (reclass g) d))) by now rewrite Hids.
    split; [exact Hids|].
    assert (Hother : forall j, j <> i -> In j (ids d) ->
              elem_in (modify_at p (reclass g) d) j = elem_in d j
              /\ forall x, hasClass (modify_at p (reclass g) d) j x = hasClass d j x).
    { intros j Hji Hj. apply labels_agree; auto.
      intros e c Hin. rewrite E1 in Hin. rewrite E2.
      apply in_app_or in Hin. destruct Hin as [Hin|Hin]; [apply in_or_app; now left|].
      apply in_app_or in Hin. destruct Hin as [Hin|Hin]; [|apply in_or_app; right;
        apply in_or_app; now right].
      destruct Hin as [Hin|Hin]; [inversion Hin; congruence|].
      apply in_or_app. right. apply in_or_app. left. now right. }
    assert (Habs : forall j, ~ In j (ids d) ->
              elem_in (modify_at p (reclass g) d) j = elem_in d j
              /\ forall x, hasClass (modify_at p (reclass g) d) j x = hasClass d j x).
    { intros j Hj. destruct (absent_lookup d j Hj) as [A1 A2].
      destruct (absent_lookup (modify_at p (reclass g) d) j) as [B1 B2];
        [now rewrite Hids|].
      split; [congruence|]. intros x. now rewrite A2, B2. }
    assert (Hself : elem_in (modify_at p (reclass g) d) i = elem_in d i
              /\ forall x, hasClass (modify_at p (reclass g) d) i x
                           = elem_in d i && existsb (String.eqb x) (g (classes_at d i))).
    { destruct (label_lookup (modify_at p (reclass g) d) i (is_element n)
                  (classes_of (reclass g n)) ND') as [B1 B2].
      { rewrite E2. apply in_or_app. right. now left. }
      unfold elem_in at 2 3, classes_at. rewrite G. split; [exact B1|].
      intros x. rewrite B2. destruct n; reflexivity. }
    assert (Hin : In i (ids d)) by (eapply locate_in_ids; eauto).
    split.
    + intros j. destruct (Nat.eq_dec j i) as [->|Hji]; [apply Hself|].
      destruct (in_dec Nat.eq_dec j (ids d)); [now apply Hother | now apply Habs].
    + intros j x. destruct (j =? i) eqn:Q.
      * apply Nat.eqb_eq in Q. subst. apply Hself.
      * apply Nat.eqb_neq in Q.
        destruct (in_dec Nat.eq_dec j (ids d)); [now apply Hother | now apply Habs].
  - split; [reflexivity|]. split; [reflexivity|].
    intros j x. destruct (j =? i) eqn:Q; [|reflexivity].
    apply Nat.eqb_eq in Q. subst. unfold hasClass, elem_in, getNode. now rewrite L.
Qed.

Lemma existsb_filter_out (x : string) (cs l : list string) :
  existsb (String.eqb x) (filter (fun c => negb (existsb (String.eqb c) cs)) l)
  = existsb (String.eqb x) l && negb (existsb (String.eqb x) cs).
Proof.
  induction l as [|y l IH]; simpl; [reflexivity|].
  destruct (existsb (String.eqb y) cs) eqn:C; simpl; rewrite IH;
    destruct (String.eqb x y) eqn:E; simpl; try reflexivity;
    apply String.eqb_eq in E; subst; rewrite C; simpl; [now rewrite andb_false_r | reflexivity].
Qed.

Lemma existsb_add_missing (x : string) : forall (cs l : list string),
  existsb (String.eqb x)
    (fold_left (fun acc c => if existsb (String.eqb c) acc then acc else acc ++ [c]) cs l)
  = existsb (String.eqb x) l || existsb (String.eqb x) cs.
Proof.
  induction cs as [|c cs IH]; intros l; simpl; [now rewrite orb_false_r|].
  rewrite IH. destruct (existsb (String.eqb c) l) eqn:C.
  - destruct (String.eqb x c) eqn:E; simpl; [|reflexivity].
    apply String.eqb_eq in E. subst. now rewrite C.
  - rewrite existsb_app. simpl. rewrite orb_false_r. now rewrite orb_assoc.
Qed.

Lemma jq_removeClass_spec cs : forall blocks d,
  NoDup (ids d) ->
  ids (jq_removeClass (join_space cs) blocks d) = ids d
  /\ (forall j, elem_in (jq_removeClass (join_space cs) blocks d) j = elem_in d j)
  /\ (forall j x, hasClass (jq_removeClass (join_space cs) blocks d) j x
                  = hasClass d j x
                    && negb (jq_mem j blocks
                             && existsb (String.eqb x) (words (join_space cs)))).
Proof.
  unfold jq_removeClass. set (ws := words (join_space cs)).
  induction blocks as [|i blocks IH]; intros d ND; simpl.
  - repeat split. intros j x. now rewrite andb_true_r.
  - change (modify_node i (remove_classes ws) d)
      with (modify_node i (reclass (filter (fun c => negb (existsb (String.eqb c) ws)))) d).
    destruct (modify_classes_spec d i (filter (fun c => negb (existsb (String.eqb c) ws))) ND)
      as [S1 [S2 S3]].
    destruct (IH _ ltac:(now rewrite S1)) as [I1 [I2 I3]].
    split; [congruence|]. split; [intros j; now rewrite I2, S2|].
    intros j x. rewrite I3, S3. destruct (j =? i) eqn:Q; simpl.
    + apply Nat.eqb_eq in Q. subst. rewrite existsb_filter_out, andb_assoc.
      rewrite <- hasClass_classes_at.
      destruct (hasClass d i x), (existsb (String.eqb x) ws), (jq_mem i blocks); reflexivity.
    + reflexivity.
Qed.

Lemma jq_addClass_spec cs : forall blocks d,
  NoDup (ids d) ->
  ids (jq_addClass (join_space cs) blocks d) = ids d
  /\ (forall j, elem_in (jq_addClass (join_space cs) blocks d) j = elem_in d j)
  /\ (forall j x, hasClass (jq_addClass (join_space cs) blocks d) j x
                  = hasClass d j x
                    || (jq_mem j blocks && elem_in d j
                        && existsb (String.eqb x) (words (join_space cs)))).
Proof.
  unfold jq_addClass. set (ws := words (join_space cs)).
  induction blocks as [|i blocks IH]; intros d ND; simpl.
  - repeat split. intros j x. now rewrite orb_false_r.
  - change (modify_node i (add_classes ws) d)
      with (modify_node i (reclass (fold_left (fun acc c =>
              if existsb (String.eqb c) acc then acc else acc ++ [c]) ws)) d).
    destruct (modify_classes_spec d i (fold_left (fun acc c =>
              if existsb (String.eqb c) acc then acc else acc ++ [c]) ws) ND)
      as [S1 [S2 S3]].
    destruct (IH _ ltac:(now rewrite S1)) as [I1 [I2 I3]].
    split; [congruence|]. split; [intros j; now rewrite I2, S2|].
    intros j x. rewrite I3, S3, S2. destruct (j =? i) eqn:Q; simpl.
    + apply Nat.eqb_eq in Q. subst. rewrite existsb_add_missing.
      rewrite (hasClass_classes_at d i x).
      destruct (elem_in d i), (existsb (String.eqb x) (classes_at d i)),
        (existsb (String.eqb x) ws), (jq_mem i blocks); reflexivity.
    + reflexivity.
Qed.

(** ** Wrapping the content of the limit element *)

Lemma elem_in_ids d j : elem_in d j = true -> In j (ids d).
Proof.
  unfold elem_in, getNode. destruct (locate j d) as [p|] eqn:L; [|discriminate].
  intros _. eapply locate_in_ids; eauto.
Qed.

Lemma elementWrapInner_spec l rest tag w :
  wf_doc w -> elem_in (document w) l = true ->
  exists w1,
    elementWrapInner (l :: rest) tag w = Ret (fresh w, w1)
    /\ wf_doc w1
    /\ windowSelection w1 = windowSelection w
    /\ frameSelections w1 = frameSelections w
    /\ elem_in (document w1) (fresh w) = true
    /\ (forall x, hasClass (document w1) (fresh w) x = false)
    /\ (forall j, In j (ids (document w)) ->
          elem_in (document w1) j = elem_in (document w) j
          /\ forall x, hasClass (document w1) j x = hasClass (document w) j x).
Proof.
  intros [ND Hlt] Hl. unfold elementWrapInner. simpl jq_first. cbv iota.
  unfold elem_in in Hl. destruct (getNode (document w) l) as [n|] eqn:G; [|discriminate].
  destruct n as [|i t c a ks]; [discriminate|].
  eexists. split; [reflexivity|].
  pose proof (getNode_id _ _ _ G) as Hid. simpl in Hid. subst i.
  unfold getNode in G. unfold modify_node.
  destruct (locate l (document w)) as [p|] eqn:L; [|discriminate].
  destruct (labels_modify_at p (document w) _ G) as [pre [post [E1 E2]]].
  specialize (E2 (set_kids [Elem (fresh w) (wrapper_tag tag) [] [] ks])).
  simpl in E1, E2. rewrite app_nil_r in E2.
  set (d' := modify_at p (set_kids [Elem (fresh w) (wrapper_tag tag) [] [] ks]) (document w))
    in *.
  set (fr := fresh w) in *.
  assert (HAdd : Add (fr, true, @nil string) (labels (document w)) (labels d')).
  { assert (A1 : labels (document w)
                 = (pre ++ [(l, true, c)]) ++ (flat_map labels ks ++ post))
      by (rewrite E1, <- app_assoc; reflexivity).
    assert (A2 : labels d'
                 = (pre ++ [(l, true, c)]) ++ (fr, true, []) :: (flat_map labels ks ++ post))
      by (rewrite E2, <- app_assoc; reflexivity).
    rewrite A1, A2. apply Add_app. }
  assert (HAddI : Add fr (ids (document w)) (ids d')).
  { rewrite !ids_labels.
    clear - HAdd. induction HAdd; simpl; constructor. exact IHHAdd. }
  assert (Hfr : ~ In fr (ids (document w))).
  { intros F. rewrite Forall_forall in Hlt. specialize (Hlt _ F). unfold fr in Hlt. lia. }
  assert (ND' : NoDup (ids d')).
  { apply (NoDup_Add HAddI). split; assumption. }
  simpl. split; [|split; [reflexivity|split; [reflexivity|]]].
  - split; [exact ND'|]. simpl. apply Forall_forall. intros j Hj.
    apply (Add_in HAddI) in Hj. destruct Hj as [<-|Hj]; [unfold fr; lia|].
    rewrite Forall_forall in Hlt. specialize (Hlt _ Hj). lia.
  - destruct (label_lookup d' fr true [] ND') as [B1 B2].
    { apply (Add_in HAdd). now left. }
    split; [exact B1|]. split; [exact B2|].
    intros j Hj. apply labels_agree; auto.
    intros e cs Hin. apply (Add_in HAdd). now right.
Qed.

(** ** The blocks [selectionToggleBlockClasses] collects *)

Lemma take_until_In {A : Type} (stop : A -> bool) (l : list A) x :
  In x (take_until stop l) -> In x l.
Proof.
  induction l as [|a l IH]; simpl; [tauto|].
  destruct (stop a); simpl; [tauto|]. intros [->|H]; auto.
Qed.

Lemma insert_doc_In d i l x : In x (insert_doc d i l) -> x = i \/ In x l.
Proof.
  induction l as [|y l IH]; simpl.
  - intros [<-|[]]. now left.
  - destruct (doc_leb d i y); simpl.
    + intros [<-|H]; auto.
    + intros [<-|H]; [right; now left|]. destruct (IH H); auto.
Qed.

Lemma jq_unique_In d l x : In x (jq_unique d l) -> In x l.
Proof.
  unfold jq_unique. intros H. apply (nodup_In Nat.eq_dec).
  induction (nodup Nat.eq_dec l) as [|y m IH]; simpl in *; [contradiction|].
  apply insert_doc_In in H. destruct H as [->|H]; auto.
Qed.

Lemma node_at_elem_in d p n :
  NoDup (ids d) -> node_at p d = Some n -> elem_in d (node_id n) = is_element n.
Proof.
  intros ND H. unfold elem_in. now rewrite (getNode_unique d p n ND H).
Qed.

Lemma ancestors_node_at d i n :
  In n (ancestors d i) -> exists p, node_at p d = Some n.
Proof.
  unfold ancestors. destruct (locate i d) as [p|]; [|contradiction].
  intros H. apply in_flat_map in H. destruct H as [q [_ Hq]].
  destruct (node_at q d) as [m|] eqn:E; [|contradiction].
  destruct Hq as [<-|[]]. eauto.
Qed.

Lemma closest_block_elem css d limit : forall chain j,
  NoDup (ids d) ->
  (forall n, In n chain -> exists p, node_at p d = Some n) ->
  closest_block css limit chain = Some j ->
  exists b, j = [b] /\ elem_in d b = true.
Proof.
  induction chain as [|n up IH]; intros j ND Hc H; simpl in H; [discriminate|].
  destruct (jq_mem (node_id n) limit); [discriminate|].
  destruct (is_element n && negb (String.eqb (css n) "inline")) eqn:B.
  - inversion H; subst. exists (node_id n). split; [reflexivity|].
    destruct (Hc n (or_introl eq_refl)) as [p Hp].
    rewrite (node_at_elem_in d p n ND Hp). now apply andb_true_iff in B.
  - apply IH; auto. intros m Hm. apply Hc. now right.
Qed.

Lemma elementClosestBlock_elem css d element limit j :
  NoDup (ids d) ->
  elementClosestBlock css d element limit = Some j ->
  exists b, j = [b] /\ elem_in d b = true.
Proof.
  intros ND H. unfold elementClosestBlock in H.
  destruct (jq_first element) as [i|]; [|discriminate].
  destruct (getNode d i) as [n|] eqn:G; [|discriminate].
  eapply closest_block_elem; eauto.
  intros m [<-|Hm].
  - unfold getNode in G. destruct (locate i d) as [p|]; [eauto | discriminate].
  - eapply ancestors_node_at; eauto.
Qed.

Lemma following_siblings_node_at d i n :
  In n (following_siblings d i) -> exists p, node_at p d = Some n.
Proof.
  unfold following_siblings, parentNode.
  destruct (locate i d) as [p|]; [|contradiction].
  destruct (parent_path p) as [q|]; [|contradiction].
  destruct (node_at q d) as [par|] eqn:E; [|contradiction].
  intros H. apply In_nth_error in H. destruct H as [k Hk].
  rewrite nth_error_skipn in Hk.
  exists (q ++ [S (child_index p) + k]). rewrite node_at_app, E. cbn [node_at].
  now rewrite Hk.
Qed.

Lemma jq_nextUntil_elem d i until b :
  NoDup (ids d) -> In b (jq_nextUntil d i until) -> elem_in d b = true.
Proof.
  intros ND H. unfold jq_nextUntil in H. apply in_map_iff in H.
  destruct H as [n [<- Hn]]. apply take_until_In in Hn.
  apply filter_In in Hn. destruct Hn as [Hn He].
  destruct (following_siblings_node_at d i n Hn) as [p Hp].
  now rewrite (node_at_elem_in d p n ND Hp).
Qed.

(** Every block handed to the callback is an element of the document. *)
Lemma eachBlock_blocks_elem css d range limit sb eb b :
  NoDup (ids d) ->
  elementClosestBlock css d [startContainer range] limit = Some sb ->
  elementClosestBlock css d [endContainer range] limit = Some eb ->
  In b (if jq_is sb eb then sb
        else jq_add d (jq_add d (flat_map (fun i => jq_nextUntil d i eb) sb) sb) eb) ->
  elem_in d b = true.
Proof.
  intros ND Hs He Hb.
  destruct (elementClosestBlock_elem _ _ _ _ _ ND Hs) as [b1 [-> Hb1]].
  destruct (elementClosestBlock_elem _ _ _ _ _ ND He) as [b2 [-> Hb2]].
  destruct (jq_is [b1] [b2]).
  - destruct Hb as [<-|[]]. exact Hb1.
  - unfold jq_add in Hb. apply jq_unique_In in Hb. apply in_app_or in Hb.
    destruct Hb as [Hb|[<-|[]]]; [|exact Hb2].
    apply jq_unique_In in Hb. apply in_app_or in Hb.
    destruct Hb as [Hb|[<-|[]]]; [|exact Hb1].
    simpl in Hb. rewrite app_nil_r in Hb. eapply jq_nextUntil_elem; eauto.
Qed.

Lemma eachRange_from_total {St R : Type} (gar : St -> list R) (cb : R -> St -> outcome St)
    (P : St -> Prop) :
  (forall r a, P a -> exists a', cb r a = Ret a' /\ P a' /\ gar a' = gar a) ->
  forall n i s fuel, P s -> List.length (gar s) - i <= n -> n < fuel ->
    exists s', eachRange_from gar cb fuel i s = Ret s' /\ P s' /\ gar s' = gar s.
Proof.
  intros Hstep. induction n as [|n IH]; intros i s fuel HP Hn Hf.
  - destruct fuel; [lia|]. simpl.
    assert (E : nth_error (gar s) i = None) by (apply nth_error_None; lia).
    rewrite E. eauto.
  - destruct fuel; [lia|]. simpl.
    destruct (nth_error (gar s) i) as [r|] eqn:E; [|eauto].
    destruct (Hstep r s HP) as [s1 [H1 [H2 H3]]]. rewrite H1. simpl.
    assert (Hlt : i < List.length (gar s)) by (apply nth_error_Some; congruence).
    destruct (IH (S i) s1 fuel H2) as [s' [K1 [K2 K3]]]; [rewrite H3; lia | lia |].
    exists s'. split; [exact K1|]. split; [exact K2|]. congruence.
Qed.

Lemma toggle_apply d b addClasses apply :
  (if negb apply
   then fold_left (fun apply c => if negb (hasClass d b c) then true else apply)
                  addClasses apply
   else apply)
  = apply || missing_class d addClasses b.
Proof.
  destruct apply; simpl; [reflexivity|]. unfold missing_class.
  assert (H : forall acc, fold_left (fun apply c => if negb (hasClass d b c) then true else apply)
                                    addClasses acc
                          = acc || existsb (fun c => negb (hasClass d b c)) addClasses).
  { induction addClasses as [|c cs IH]; intros acc; simpl; [now rewrite orb_false_r|].
    rewrite IH. destruct (hasClass d b c), acc; reflexivity. }
  apply H.
Qed.

Lemma toggle_collect_spec addClasses b apply blocks w :
  toggle_collect addClasses b ((apply, blocks), w)
  = Ret ((apply || missing_class (document w) addClasses b, blocks ++ [b]), w).
Proof. unfold toggle_collect. now rewrite toggle_apply. Qed.

Lemma collected_push addClasses l apply blocks w b :
  collected addClasses l ((apply, blocks), w) ->
  elem_in (document w) b = true ->
  collected addClasses l
    ((apply || missing_class (document w) addClasses b, blocks ++ [b]), w).
Proof.
  intros [H1 [H2 [H3 H4]]] Hb. simpl in *. repeat split; try assumption; try apply H1.
  - apply Forall_app. split; [exact H3 | now constructor].
  - simpl. rewrite existsb_app. simpl. now rewrite orb_false_r, H4.
Qed.

Lemma for_each_collect addClasses l : forall bl st,
  collected addClasses l st ->
  Forall (fun b => elem_in (document (snd st)) b = true) bl ->
  exists st', for_each (toggle_collect addClasses) bl st = Ret st'
              /\ collected addClasses l st' /\ snd st' = snd st.
Proof.
  induction bl as [|b bl IH]; intros [[apply blocks] w] Hc Hbl; cbn [for_each].
  - eauto.
  - rewrite toggle_collect_spec. cbn [bind]. inversion Hbl as [|? ? Hb Hrest]; subst.
    cbn [snd] in Hb, Hrest.
    destruct (IH ((apply || missing_class (document w) addClasses b, blocks ++ [b]), w))
      as [st' [E1 [E2 E3]]].
    + now apply collected_push.
    + exact Hrest.
    + exists st'. auto.
Qed.

Lemma existsb_ext_in {A : Type} (f g : A -> bool) (l : list A) :
  (forall a, In a l -> f a = g a) -> existsb f l = existsb g l.
Proof.
  induction l as [|a l IH]; intros H; simpl; [reflexivity|].
  rewrite (H a (or_introl eq_refl)), IH; [reflexivity|]. intros b Hb. apply H. now right.
Qed.

(** One range of [selectionToggleBlockClasses]: the step returns, keeps
    what holds of [apply] and [blocks], and leaves the selections alone. *)
Lemma eachBlock_collect_step css addClasses l rest blockContainer range st :
  collected addClasses l st ->
  exists st',
    eachBlock_range css (toggle_collect addClasses) (l :: rest) blockContainer range st = Ret st'
    /\ collected addClasses l st'
    /\ windowSelection (snd st') = windowSelection (snd st)
    /\ frameSelections (snd st') = frameSelections (snd st).
Proof.
  intros Hc. destruct st as [[apply blocks] w]. unfold eachBlock_range. cbn [snd fst].
  destruct Hc as [Hwf [Hl [Hbl Hap]]]. cbn [snd fst] in *.
  assert (Hwrap : exists st',
    (let* (wrapper, w') := elementWrapInner (l :: rest) blockContainer w in
     toggle_collect addClasses wrapper (apply, blocks, w')) = Ret st'
    /\ collected addClasses l st'
    /\ windowSelection (snd st') = windowSelection w
    /\ frameSelections (snd st') = frameSelections w).
  { destruct (elementWrapInner_spec l rest blockContainer w Hwf Hl)
      as [w1 [E [Hwf1 [Hs [Hf [Hfr [Hcls Hold]]]]]]].
    rewrite E. cbn [bind]. rewrite toggle_collect_spec.
    eexists. split; [reflexivity|]. split; [|split; assumption].
    apply collected_push; [|exact Hfr].
    repeat split; cbn [snd fst]; try apply Hwf1.
    - destruct (Hold l (elem_in_ids _ _ Hl)) as [-> _]. exact Hl.
    - rewrite Forall_forall in *. intros b Hb.
      destruct (Hold b (elem_in_ids _ _ (Hbl b Hb))) as [-> _]. now apply Hbl.
    - rewrite Hap. apply existsb_ext_in. intros b Hb. unfold missing_class.
      rewrite Forall_forall in Hbl.
      destruct (Hold b (elem_in_ids _ _ (Hbl b Hb))) as [_ Hsame].
      apply existsb_ext_in. intros c _. now rewrite Hsame. }
  destruct (elementClosestBlock css (document w) [startContainer range] (l :: rest))
    as [sb|] eqn:Es; [|exact Hwrap].
  destruct (elementClosestBlock css (document w) [endContainer range] (l :: rest))
    as [eb|] eqn:Ee; [|exact Hwrap].
  destruct (for_each_collect addClasses l
              (if jq_is sb eb then sb
               else jq_add (document w)
                      (jq_add (document w)
                         (flat_map (fun i => jq_nextUntil (document w) i eb) sb) sb) eb)
              ((apply, blocks), w)) as [st' [E1 [E2 E3]]].
  - exact (conj Hwf (conj Hl (conj Hbl Hap))).
  - apply Forall_forall. intros b Hb. cbn [snd].
    eapply eachBlock_blocks_elem; eauto. apply Hwf.
  - exists st'. split; [exact E1|]. split; [exact E2|]. rewrite E3. auto.
Qed.

Lemma jq_mem_In j l : In j l -> jq_mem j l = true.
Proof.
  intros H. unfold jq_mem. apply existsb_exists. exists j. split; [exact H | apply Nat.eqb_refl].
Qed.

Lemma existsb_eqb_In (c : string) (l : list string) :
  existsb (String.eqb c) l = true <-> In c l.
Proof.
  rewrite existsb_exists. split.
  - intros [x [Hx E]]. apply String.eqb_eq in E. now subst.
  - intros H. exists c. split; [exact H | apply String.eqb_refl].
Qed.

(** The blocks [selectionToggleBlockClasses] collects are the blocks
    [selectionEachBlock] calls any callback with: the run that only records
    the blocks goes the same way. *)
Lemma for_each_records addClasses : forall bl apply blocks w st',
  for_each (toggle_collect addClasses) bl ((apply, blocks), w) = Ret st' ->
  for_each (with_blocks no_callback) bl ((tt, blocks), w) = Ret ((tt, snd (fst st')), snd st').
Proof.
  induction bl as [|b bl IH]; intros apply blocks w st' H; cbn [for_each] in *.
  - now inversion H.
  - rewrite toggle_collect_spec in H. cbn [bind] in H.
    unfold with_blocks at 1, no_callback at 1. cbn [bind fst snd].
    now apply (IH _ _ _ _ H).
Qed.

Lemma eachBlock_records css addClasses limitElement blockContainer range apply blocks w st' :
  eachBlock_range css (toggle_collect addClasses) limitElement blockContainer range
                  ((apply, blocks), w) = Ret st' ->
  eachBlock_range css (with_blocks no_callback) limitElement blockContainer range
                  ((tt, blocks), w) = Ret ((tt, snd (fst st')), snd st')
  /\ (snd st' = w \/ exists x, elementWrapInner limitElement blockContainer w = Ret (x, snd st')).
Proof.
  unfold eachBlock_range. cbn [snd fst]. intros H.
  assert (Hwrap :
    (let* (wrapper, w') := elementWrapInner limitElement blockContainer w in
     toggle_collect addClasses wrapper (apply, blocks, w')) = Ret st' ->
    (let* (wrapper, w') := elementWrapInner limitElement blockContainer w in
     with_blocks no_callback wrapper (tt, blocks, w')) = Ret ((tt, snd (fst st')), snd st')
    /\ (snd st' = w
        \/ exists x, elementWrapInner limitElement blockContainer w = Ret (x, snd st'))).
  { destruct (elementWrapInner limitElement blockContainer w) as [[wrapper w1]| |];
      cbn [bind]; try discriminate.
    rewrite toggle_collect_spec. intros E. inversion E; subst. cbn [fst snd].
    split; [reflexivity|]. right. now exists wrapper. }
  destruct (elementClosestBlock css (document w) [startContainer range] limitElement)
    as [sb|]; [|now apply Hwrap].
  destruct (elementClosestBlock css (document w) [endContainer range] limitElement)
    as [eb|]; [|now apply Hwrap].
  split; [now apply (for_each_records addClasses _ apply)|].
  left. clear Hwrap. revert H.
  generalize (if jq_is sb eb then sb
              else jq_add (document w)
                     (jq_add (document w)
                        (flat_map (fun i => jq_nextUntil (document w) i eb) sb) sb) eb) as bl.
  intros bl. revert apply blocks.
  induction bl as [|b bl IH]; intros apply blocks H; cbn [for_each] in H.
  - now inversion H.
  - rewrite toggle_collect_spec in H. cbn [bind] in H. now apply (IH _ _ H).
Qed.

Lemma eachRange_records css addClasses limitElement blockContainer : forall fuel i apply blocks w st',
  eachRange_from (fun st : (bool * jq) * World => getAllRanges (snd st) Win)
    (eachBlock_range css (toggle_collect addClasses) limitElement blockContainer)
    fuel i ((apply, blocks), w) = Ret st' ->
  eachRange_from (fun st : (unit * jq) * World => getAllRanges (snd st) Win)
    (eachBlock_range css (with_blocks no_callback) limitElement blockContainer)
    fuel i ((tt, blocks), w) = Ret ((tt, snd (fst st')), snd st').
Proof.
  induction fuel as [|fuel IH]; intros i apply blocks w st' H; cbn [eachRange_from snd] in *;
    [discriminate|].
  destruct (nth_error (getAllRanges w Win) i) as [r|]; [|now inversion H].
  destruct (eachBlock_range css (toggle_collect addClasses) limitElement blockContainer r
              ((apply, blocks), w)) as [[[ap1 bl1] w1]| |] eqn:E; cbn [bind] in H;
    try discriminate.
  rewrite (proj1 (eachBlock_records _ _ _ _ _ _ _ _ _ E)). cbn [bind fst snd].
  now apply (IH _ _ _ _ _ H).
Qed.

(** When every range has its blocks, nothing is wrapped and the blocks
    recorded are the blocks of the ranges, range after range. *)
Lemma eachBlock_records_blocks css limitElement blockContainer range acc w :
  has_blocks css (document w) limitElement range ->
  eachBlock_range css (with_blocks no_callback) limitElement blockContainer range
                  ((tt, acc), w)
  = Ret ((tt, acc ++ blocks_between css (document w) limitElement range), w).
Proof.
  intros [Hs He]. unfold eachBlock_range, blocks_between. cbn [snd fst].
  destruct (elementClosestBlock css (document w) [startContainer range] limitElement)
    as [sb|]; [|congruence].
  destruct (elementClosestBlock css (document w) [endContainer range] limitElement)
    as [eb|]; [|congruence].
  rewrite for_each_with_blocks.
  assert (N : forall bl (st : unit * World), for_each no_callback bl st = Ret st).
  { induction bl as [|b bl IH]; intros st; [reflexivity|]. cbn [for_each].
    unfold no_callback at 1. cbn [bind]. apply IH. }
  rewrite N. reflexivity.
Qed.

Lemma eachRange_records_blocks css limitElement blockContainer w :
  (forall r, In r (getAllRanges w Win) -> has_blocks css (document w) limitElement r) ->
  forall n i acc fuel,
    List.length (getAllRanges w Win) - i <= n -> n < fuel ->
    eachRange_from (fun st : (unit * jq) * World => getAllRanges (snd st) Win)
      (eachBlock_range css (with_blocks no_callback) limitElement blockContainer)
      fuel i ((tt, acc), w)
    = Ret ((tt, acc ++ flat_map (blocks_between css (document w) limitElement)
                         (skipn i (getAllRanges w Win))), w).
Proof.
  intros Hall. induction n as [|n IH]; intros i acc fuel Hn Hf;
    (destruct fuel as [|fuel]; [lia|]); cbn [eachRange_from snd fst].
  - assert (N : nth_error (getAllRanges w Win) i = None) by (apply nth_error_None; lia).
    rewrite N, skipn_all2 by lia. cbn. now rewrite app_nil_r.
  - destruct (nth_error (getAllRanges w Win) i) as [r|] eqn:N.
    + rewrite (eachBlock_records_blocks _ _ _ _ _ _ (Hall r (nth_error_In _ _ N))).
      cbn [bind]. rewrite IH by lia. rewrite (skipn_cons_nth _ _ _ N).
      cbn [flat_map]. now rewrite <- app_assoc.
    + apply nth_error_None in N. rewrite skipn_all2 by lia. cbn. now rewrite app_nil_r.
Qed.

Lemma eachBlock_collect_kept css addClasses l rest blockContainer range w0 st :
  collected addClasses l st -> kept_classes w0 st ->
  exists st',
    eachBlock_range css (toggle_collect addClasses) (l :: rest) blockContainer range st = Ret st'
    /\ (collected addClasses l st' /\ kept_classes w0 st')
    /\ getAllRanges (snd st') Win = getAllRanges (snd st) Win.
Proof.
  intros Hc Hk.
  destruct (eachBlock_collect_step css addClasses l rest blockContainer range st Hc)
    as [st' [E1 [E2 [E3 E4]]]].
  exists st'. split; [exact E1|]. split; [|unfold getAllRanges; simpl; now rewrite E3].
  split; [exact E2|].
  destruct st as [[apply blocks] w].
  destruct (proj2 (eachBlock_records _ _ _ _ _ _ _ _ _ E1)) as [Hw | [x Hx]]; cbn [snd] in *.
  - intros j Hj. rewrite Hw. now apply Hk.
  - destruct Hc as [Hwf [Hl _]]. cbn [snd] in *.
    destruct (elementWrapInner_spec l rest blockContainer w Hwf Hl)
      as [w1 [E [_ [_ [_ [_ [_ Hold]]]]]]].
    rewrite E in Hx. injection Hx as _ Hw1.
    intros j Hj. destruct (Hk j Hj) as [K1 K2]. cbn [snd] in *.
    rewrite <- Hw1.
    destruct (Hold j (elem_in_ids _ _ K1)) as [O1 O2].
    split; [now rewrite O1|]. intros c. now rewrite O2.
Qed.

(** C2 (amended).  In a document of distinct nodes with the limit element
    in it, and for class names without white space,
    [selectionToggleBlockClasses] returns when given one round of the loop
    more than there are ranges.  The blocks it collects are the blocks
    [selectionEachBlock] calls its callback with, range after range: when
    both ends of every range have a block below the limit element, nothing
    is wrapped and these are, for each range in turn, its start block, the
    element siblings up to its end block, and its end block.  While
    it collects them, no element of the page changes its classes, and
    [apply] becomes true exactly when one of the collected blocks lacks,
    then, one of the classes to add: the decision is made on the classes the
    blocks have before anything is taken away.  After that the classes to
    remove are taken from every collected block, and then the classes to add
    are put on every collected block when [apply] is true and taken from
    every collected block when it is false.  So afterwards every collected
    block carries every class to add, or none of them carries any; no
    collected block carries a class to remove, unless that class is also a
    class to add and was put on; and the other classes of the blocks are as
    before. *)
Theorem selectionToggleBlockClasses_union :
  forall (css_display : node -> string) (addClasses removeClasses : list string)
         (l : NodeRef) (rest : jq) (blockContainer : option string) (w : World),
    wf_doc w -> elem_in (document w) l = true ->
    Forall (fun c => is_class_token c = true) addClasses ->
    Forall (fun c => is_class_token c = true) removeClasses ->
    exists blocks w1 w',
      selectionEachBlock css_display (with_blocks no_callback) (l :: rest) blockContainer
                         (S (rangeCount (windowSelection w))) ((tt, []), w)
      = Ret ((tt, blocks), w1)
      /\ ((forall r, In r (getAllRanges w Win) ->
                     has_blocks css_display (document w) (l :: rest) r) ->
          w1 = w
          /\ blocks = flat_map (blocks_between css_display (document w) (l :: rest))
                               (getAllRanges w Win))
      /\ selectionToggleBlockClasses css_display addClasses removeClasses (l :: rest)
                                     blockContainer (S (rangeCount (windowSelection w))) w
         = Ret w'
      /\ (forall j c, elem_in (document w) j = true ->
            hasClass (document w1) j c = hasClass (document w) j c)
      /\ let apply := existsb (missing_class (document w1) addClasses) blocks in
         w' = set_document w1
                (let stripped :=
                   jq_removeClass (join_space removeClasses) blocks (document w1) in
                 if apply then jq_addClass (join_space addClasses) blocks stripped
                 else jq_removeClass (join_space addClasses) blocks stripped)
         /\ (apply = true <->
             exists b c, In b blocks /\ In c addClasses /\ hasClass (document w1) b c = false)
         /\ (forall b, In b blocks -> elem_in (document w') b = true)
         /\ (forall b c, In b blocks -> In c addClasses ->
               hasClass (document w') b c = apply)
         /\ (forall b c, In b blocks -> In c removeClasses ->
               ~ (apply = true /\ In c addClasses) -> hasClass (document w') b c = false)
         /\ (forall b c, In b blocks -> ~ In c addClasses -> ~ In c removeClasses ->
               hasClass (document w') b c = hasClass (document w1) b c).
Proof.
  intros css addClasses removeClasses l rest blockContainer w Hwf Hl Hadd Hrem.
  destruct (eachRange_from_total
              (fun st : (bool * jq) * World => getAllRanges (snd st) Win)
              (eachBlock_range css (toggle_collect addClasses) (l :: rest) blockContainer)
              (fun st => collected addClasses l st /\ kept_classes w st)) with
    (n := rangeCount (windowSelection w)) (i := 0) (s := ((false, @nil NodeRef), w))
    (fuel := S (rangeCount (windowSelection w)))
    as [[[apply blocks] w1] [Hrun [[Hc Hk] _]]].
  - intros r a [Ha Hb]. now apply eachBlock_collect_kept.
  - split; [|intros j Hj; auto].
    repeat split; try apply Hwf; try exact Hl; constructor.
  - unfold getAllRanges, rangeCount. simpl. lia.
  - lia.
  - pose proof (eachRange_records _ _ _ _ _ _ _ _ _ _ Hrun) as Hlog. cbn [fst snd] in Hlog.
    destruct Hc as [[ND1 _] [_ [Hbl Hap]]]. cbn [fst snd] in *.
    rewrite Forall_forall in Hbl.
    destruct (jq_removeClass_spec removeClasses blocks (document w1) ND1) as [R1 [R2 R3]].
    set (dr := jq_removeClass (join_space removeClasses) blocks (document w1)) in *.
    assert (NDr : NoDup (ids dr)) by now rewrite R1.
    destruct (jq_addClass_spec addClasses blocks dr NDr) as [A1 [A2 A3]].
    destruct (jq_removeClass_spec addClasses blocks dr NDr) as [B1 [B2 B3]].
    rewrite (words_join _ Hadd) in A3, B3. rewrite (words_join _ Hrem) in R3.
    exists blocks, w1,
      (set_document w1 (if apply then jq_addClass (join_space addClasses) blocks dr
                        else jq_removeClass (join_space addClasses) blocks dr)).
    split; [exact Hlog|]. split.
    { intros Hall.
      pose proof (eachRange_records_blocks css (l :: rest) blockContainer w Hall
                    (rangeCount (windowSelection w)) 0 []
                    (S (rangeCount (windowSelection w)))) as Hb.
      rewrite Hb in Hlog; [|unfold getAllRanges, rangeCount; simpl; lia | lia].
      injection Hlog as Hbl' Hw1. split; [now symmetry|]. now rewrite <- Hbl'. }
    split.
    { unfold selectionToggleBlockClasses.
      unfold selectionEachBlock, selectionEachRange in *. cbn [js_or rangy_getSelection snd] in *.
      rewrite Hrun. cbn [bind]. fold dr. now destruct apply. }
    split; [intros j c Hj; apply (Hk j Hj)|].
    cbv zeta. rewrite <- Hap. fold dr.
    split; [reflexivity|]. split.
    { rewrite Hap. rewrite existsb_exists. split.
      - intros [b [Hb Hm]]. unfold missing_class in Hm. apply existsb_exists in Hm.
        destruct Hm as [c [Hc Hn]]. apply negb_true_iff in Hn. eauto.
      - intros [b [c [Hb [Hc Hn]]]]. exists b. split; [exact Hb|].
        unfold missing_class. apply existsb_exists. exists c. split; [exact Hc|].
        now apply negb_true_iff. }
    split.
    { intros b Hb. cbn [document set_document].
      destruct apply; [rewrite A2 | rewrite B2]; rewrite R2; now apply Hbl. }
    split.
    { intros b c Hb Hc. cbn [document set_document].
      pose proof (proj2 (existsb_eqb_In c addClasses) Hc) as Ec.
      destruct apply.
      - rewrite A3, R2, (jq_mem_In b blocks Hb), (Hbl b Hb), Ec. apply orb_true_r.
      - rewrite B3, (jq_mem_In b blocks Hb), Ec. apply andb_false_r. }
    split.
    { intros b c Hb Hc Hno. cbn [document set_document].
      pose proof (proj2 (existsb_eqb_In c removeClasses) Hc) as Ec.
      assert (Hr : hasClass dr b c = false).
      { rewrite R3, (jq_mem_In b blocks Hb), Ec. apply andb_false_r. }
      destruct apply.
      - rewrite A3, Hr. simpl.
        destruct (existsb (String.eqb c) addClasses) eqn:Ea.
        + exfalso. apply Hno. split; [reflexivity | now apply existsb_eqb_In].
        + apply andb_false_r.
      - rewrite B3, Hr. reflexivity. }
    { intros b c Hb Ha Hr. cbn [document set_document].
      assert (Ea : existsb (String.eqb c) addClasses = false).
      { destruct (existsb (String.eqb c) addClasses) eqn:Q; [|reflexivity].
        exfalso. apply Ha. now apply existsb_eqb_In. }
      assert (Er : existsb (String.eqb c) removeClasses = false).
      { destruct (existsb (String.eqb c) removeClasses) eqn:Q; [|reflexivity].
        exfalso. apply Hr. now apply existsb_eqb_In. }
      destruct apply.
      - rewrite A3, R3, Ea, Er, !andb_false_r. simpl. now rewrite orb_false_r, andb_true_r.
      - rewrite B3, R3, Ea, Er, !andb_false_r. simpl. now rewrite !andb_true_r. }
Qed.

Lemma one_highlighted_wf : wf_doc one_highlighted.
Proof.
  split; [distinct_ids|]. simpl. repeat (constructor; [lia|]). constructor.
Defined.

Lemma selectionToggleBlockClasses_union_witness :
  exists blocks w1 w',
    selectionEachBlock ua_display (with_blocks no_callback) [1] (Some "div")
                       (S (rangeCount (windowSelection one_highlighted)))
                       ((tt, []), one_highlighted)
    = Ret ((tt, blocks), w1)
    /\ ((forall r, In r (getAllRanges one_highlighted Win) ->
                   has_blocks ua_display (document one_highlighted) [1] r) ->
        w1 = one_highlighted
        /\ blocks = flat_map (blocks_between ua_display (document one_highlighted) [1])
                             (getAllRanges one_highlighted Win))
    /\ selectionToggleBlockClasses ua_display ["hl"] ["old"] [1] (Some "div")
                                   (S (rangeCount (windowSelection one_highlighted)))
                                   one_highlighted
       = Ret w'
    /\ (forall j c, elem_in (document one_highlighted) j = true ->
          hasClass (document w1) j c = hasClass (document one_highlighted) j c)
    /\ let apply := existsb (missing_class (document w1) ["hl"]) blocks in
       w' = set_document w1
              (let stripped := jq_removeClass (join_space ["old"]) blocks (document w1) in
               if apply then jq_addClass (join_space ["hl"]) blocks stripped
               else jq_removeClass (join_space ["hl"]) blocks stripped)
       /\ (apply = true <->
           exists b c, In b blocks /\ In c ["hl"] /\ hasClass (document w1) b c = false)
       /\ (forall b, In b blocks -> elem_in (document w') b = true)
       /\ (forall b c, In b blocks -> In c ["hl"] -> hasClass (document w') b c = apply)
       /\ (forall b c, In b blocks -> In c ["old"] ->
             ~ (apply = true /\ In c ["hl"]) -> hasClass (document w') b c = false)
       /\ (forall b c, In b blocks -> ~ In c ["hl"] -> ~ In c ["old"] ->
             hasClass (document w') b c = hasClass (document w1) b c).
Proof.
  apply (selectionToggleBlockClasses_union ua_display ["hl"] ["old"] 1 [] (Some "div")
           one_highlighted one_highlighted_wf eq_refl).
  - repeat constructor.
  - repeat constructor.
Defined.

(** C2, as stated, fails where it has the decision made after the classes to
    remove are taken away.  Two paragraphs both carry the class [a], which is
    both to add and to remove.  Once [a] is taken away both blocks lack a
    class to add, yet [a] is not put on: the decision was made before, when
    no block lacked it. *)
Lemma selectionToggleBlockClasses_decides_before_strip :
  exists w1 w',
    selectionEachBlock ua_display (with_blocks no_callback) [1] (Some "div") 3
                       ((tt, []), both_marked)
    = Ret ((tt, [2; 4]), w1)
    /\ selectionToggleBlockClasses ua_display ["a"] ["a"] [1] (Some "div") 3 both_marked
       = Ret w'
    /\ existsb (missing_class (document w1) ["a"]) [2; 4] = false
    /\ existsb (missing_class (jq_removeClass (join_space ["a"]) [2; 4] (document w1)) ["a"])
               [2; 4] = true
    /\ hasClass (document w') 2 "a" = false
    /\ hasClass (document w') 4 "a" = false.
Proof.
  eexists. eexists. split; [vm_compute; reflexivity|]. split; [vm_compute; reflexivity|].
  repeat split; vm_compute; reflexivity.
Qed.

(** The same input evaluated: both paragraphs are collected, the second
    lacks [hl], so [hl] is put on both; [old] is taken away. *)
Example selectionToggleBlockClasses_one_highlighted :
  exists w',
    selectionToggleBlockClasses ua_display ["hl"] ["old"] [1] (Some "div") 3 one_highlighted
    = Ret w'
    /\ render_html (outerHTML (document w'))
       = ("<body><div><p class=" ++ dquote ++ "hl" ++ dquote ++ ">one</p><p class="
          ++ dquote ++ "hl" ++ dquote ++ ">two</p></div></body>")%string.
Proof.
  eexists. split; vm_compute; reflexivity.
Qed.

(** ** Renaming elements *)

Lemma locate_of_In i : forall n, In i (ids n) -> exists p, locate i n = Some p.
Proof.
  induction n as [j d | j t c a ks IH] using node_induction; intros H; simpl in *.
  - destruct H as [->|[]]. rewrite Nat.eqb_refl. eauto.
  - destruct (j =? i) eqn:E; [eauto|]. destruct H as [->|H]; [now rewrite Nat.eqb_refl in E|].
    destruct (first_some (map (locate i) ks)) as [[k q]|] eqn:F; [eauto|].
    exfalso. apply in_flat_map in H. destruct H as [child [Hc Hi]].
    rewrite Forall_forall in IH. destruct (IH child Hc Hi) as [p Hp].
    pose proof (first_some_None _ F (locate i child)) as N.
    rewrite N in Hp; [discriminate|]. apply in_map_iff. eauto.
Qed.

Lemma rename_tags_absent els t : forall n,
  (forall i, In i els -> ~ In i (ids n)) -> rename_tags els t n = n.
Proof.
  induction n as [j d | j tg c a ks IH] using node_induction; intros H; simpl; [reflexivity|].
  assert (E : jq_mem j els = false).
  { apply not_true_is_false. intros F. unfold jq_mem in F. apply existsb_exists in F.
    destruct F as [x [Hx Q]]. apply Nat.eqb_eq in Q. subst x. apply (H j Hx). now left. }
  rewrite E. f_equal.
  rewrite Forall_forall in IH. rewrite <- (map_id ks) at 2. apply map_ext_in.
  intros child Hc. apply IH; [exact Hc|]. intros i Hi Hin. apply (H i Hi). right.
  apply in_flat_map. eauto.
Qed.

Lemma list_modify_as_map {A : Type} (g r : A -> A) : forall (l : list A) k a,
  nth_error l k = Some a -> g a = r a ->
  (forall j b, j <> k -> nth_error l j = Some b -> r b = b) ->
  list_modify k g l = map r l.
Proof.
  induction l as [|x l IH]; intros [|k] a H Hg Hr; simpl in H; try discriminate; simpl.
  - inversion H; subst. rewrite Hg. f_equal. rewrite <- (map_id l) at 1.
    apply map_ext_in. intros b Hb. apply In_nth_error in Hb. destruct Hb as [j Hj].
    symmetry. apply (Hr (S j) b); [discriminate | exact Hj].
  - rewrite (Hr 0 x); [|discriminate|reflexivity]. f_equal.
    apply (IH k a H Hg). intros j b Hj Hb. apply (Hr (S j) b); [lia | exact Hb].
Qed.

Lemma modify_at_rename i t : forall d p,
  NoDup (ids d) -> locate i d = Some p ->
  modify_at p (set_tag t) d = rename_tags [i] t d.
Proof.
  induction d as [j s | j tg c a ks IH] using node_induction; intros p ND L; simpl in L.
  - destruct (j =? i); inversion L; subst. reflexivity.
  - destruct (j =? i) eqn:E.
    + inversion L; subst. apply Nat.eqb_eq in E. subst j. simpl.
      rewrite Nat.eqb_refl. simpl. f_equal.
      rewrite <- (map_id ks) at 1. apply map_ext_in. intros child Hc.
      symmetry. apply rename_tags_absent. intros x [<-|[]] Hin.
      simpl in ND. inversion ND as [|? ? Hn _]; subst. apply Hn.
      apply in_flat_map. eauto.
    + destruct (first_some (map (locate i) ks)) as [[k q]|] eqn:F; [|discriminate].
      inversion L; subst. apply first_some_Some in F. destruct F as [F Fb].
      rewrite nth_error_map in F. destruct (nth_error ks k) as [child|] eqn:N; [|discriminate].
      simpl in F. inversion F as [F'].
      simpl. unfold jq_mem. simpl. rewrite E. simpl. f_equal.
      simpl in ND. inversion ND as [|? ? _ ND']; subst.
      rewrite Forall_forall in IH.
      apply (list_modify_as_map _ _ ks k child N).
      * apply IH; [eapply nth_error_In; eauto | | exact F'].
        eapply NoDup_flat_map_each; eauto. eapply nth_error_In; eauto.
      * intros j' b Hj Hb. apply rename_tags_absent. intros x [<-|[]] Hin.
        apply Hj. apply (NoDup_flat_map_nth ids ks ND' j' k b child i Hb N Hin).
        eapply locate_in_ids; eauto.
Qed.

Lemma modify_node_rename i t d :
  NoDup (ids d) -> modify_node i (set_tag t) d = rename_tags [i] t d.
Proof.
  intros ND. unfold modify_node. destruct (locate i d) as [p|] eqn:L.
  - now apply modify_at_rename.
  - symmetry. apply rename_tags_absent. intros x [<-|[]] Hin.
    destruct (locate_of_In i d Hin) as [p Hp]. congruence.
Qed.

Lemma rename_tags_ids els t : forall n, ids (rename_tags els t n) = ids n.
Proof.
  induction n as [j d | j tg c a ks IH] using node_induction; simpl; [reflexivity|].
  f_equal. induction IH as [|k ks Hk _ IHks]; simpl; [reflexivity|]. now rewrite Hk, IHks.
Qed.

Lemma rename_tags_cons i els t : forall n,
  rename_tags els t (rename_tags [i] t n) = rename_tags (i :: els) t n.
Proof.
  induction n as [j d | j tg c a ks IH] using node_induction; simpl; [reflexivity|].
  f_equal.
  - unfold jq_mem. simpl. destruct (j =? i); simpl; [|reflexivity].
    now destruct (existsb (Nat.eqb j) els).
  - rewrite map_map. apply map_ext_in. rewrite Forall_forall in IH. exact IH.
Qed.

Lemma rename_tags_nil t : forall n, rename_tags [] t n = n.
Proof. intros n. apply rename_tags_absent. intros i []. Qed.

(** [elementChangeTag] renames exactly the elements of the set. *)
Lemma elementChangeTag_renames t els w :
  NoDup (ids (document w)) ->
  elementChangeTag els t w = set_document w (rename_tags els t (document w)).
Proof.
  unfold elementChangeTag. intros ND. f_equal. revert ND.
  generalize (document w) as d. clear w.
  induction els as [|i els IH]; intros d ND; simpl.
  - now rewrite rename_tags_nil.
  - rewrite (modify_node_rename i t d ND). rewrite IH.
    + apply rename_tags_cons.
    + now rewrite rename_tags_ids.
Qed.

(** ** Markup of parsed nodes, and rewriting a node in place *)

Lemma instantiate_elem t c a ks f :
  instantiate (MElem t c a ks) f
  = (let '(ks', f') := parse ks (S f) in (Elem f t c a ks', f')).
Proof. reflexivity. Qed.

(** The nodes a markup string is parsed into have that markup. *)
Lemma outer_instantiate : forall m f, outer (fst (instantiate m f)) = m.
Proof.
  induction m as [s | t c a ks IH] using markup_induction; intros f; [reflexivity|].
  rewrite instantiate_elem.
  assert (H : forall g, map outer (fst (parse ks g)) = ks).
  { clear f. induction IH as [|k ks Hk _ IHks]; intros g; simpl; [reflexivity|].
    specialize (Hk g). destruct (instantiate k g) as [n f1]. simpl in Hk.
    specialize (IHks f1). destruct (parse ks f1) as [ns f2]. simpl in *. now rewrite Hk, IHks. }
  specialize (H (S f)). destruct (parse ks (S f)) as [ks' f']. simpl in *. now rewrite H.
Qed.

Lemma outer_parse : forall h f, map outer (fst (parse h f)) = h.
Proof.
  induction h as [|m h IH]; intros f; simpl; [reflexivity|].
  pose proof (outer_instantiate m f) as Hm. destruct (instantiate m f) as [n f1].
  specialize (IH f1). destruct (parse h f1) as [ns f2]. simpl in *. now rewrite Hm, IH.
Qed.

Lemma nth_error_list_modify {A : Type} (g : A -> A) : forall (l : list A) k j,
  nth_error (list_modify k g l) j
  = if j =? k then option_map g (nth_error l j) else nth_error l j.
Proof.
  induction l as [|x l IH]; intros [|k] [|j]; simpl; try reflexivity.
  - now destruct (j =? k).
  - apply IH.
Qed.

Lemma node_at_modify_at_same f : forall p d n,
  node_at p d = Some n -> node_at p (modify_at p f d) = Some (f n).
Proof.
  induction p as [|k p IH]; intros d n H; simpl in *.
  - now inversion H.
  - destruct (nth_error (kids d) k) as [child|] eqn:N; [|discriminate].
    rewrite kids_set_kids.
    assert (El : is_element d = true).
    { destruct d; [destruct k; discriminate | reflexivity]. }
    rewrite El, nth_error_list_modify, Nat.eqb_refl, N. simpl. now apply IH.
Qed.

Lemma node_id_set_kids ks n : node_id (set_kids ks n) = node_id n.
Proof. destruct n; reflexivity. Qed.

Lemma locate_modify_at_self i f :
  (forall n, node_id (f n) = node_id n) ->
  forall d p, locate i d = Some p -> locate i (modify_at p f d) = Some p.
Proof.
  intros Hf. induction d as [j s | j t c a ks IH] using node_induction; intros p L.
  - simpl in L. destruct (j =? i) eqn:E; inversion L; subst. simpl.
    destruct (f (Text j s)) eqn:F; simpl;
      pose proof (Hf (Text j s)) as Hid; rewrite F in Hid; simpl in Hid; subst;
      now rewrite E.
  - simpl in L. destruct (j =? i) eqn:E.
    + inversion L; subst. simpl.
      destruct (f (Elem j t c a ks)) eqn:F; simpl;
        pose proof (Hf (Elem j t c a ks)) as Hid; rewrite F in Hid; simpl in Hid; subst;
        now rewrite E.
    + destruct (first_some (map (locate i) ks)) as [[k q]|] eqn:F; [|discriminate].
      inversion L; subst. apply first_some_Some in F. destruct F as [F Fb].
      rewrite nth_error_map in F. destruct (nth_error ks k) as [child|] eqn:N; [|discriminate].
      simpl in F. inversion F as [F'].
      simpl. rewrite E.
      rewrite (first_some_found _ k q); [reflexivity| |].
      * rewrite nth_error_map, nth_error_list_modify, Nat.eqb_refl, N. simpl. f_equal.
        rewrite Forall_forall in IH. apply IH; [eapply nth_error_In; eauto | exact F'].
      * intros j' Hj'. rewrite nth_error_map, nth_error_list_modify.
        assert (Q : (j' =? k) = false) by (apply Nat.eqb_neq; lia). rewrite Q.
        rewrite <- nth_error_map. now apply Fb.
Qed.

Lemma getNode_modify_node i f d n :
  (forall n, node_id (f n) = node_id n) ->
  getNode d i = Some n -> getNode (modify_node i f d) i = Some (f n).
Proof.
  intros Hf G. unfold getNode in *. unfold modify_node.
  destruct (locate i d) as [p|] eqn:L; [|discriminate].
  rewrite (locate_modify_at_self i f Hf d p L). now apply node_at_modify_at_same.
Qed.

(** ** [selectionChangeTags] *)

(** What is pushed is what is found, the limit element left out. *)
Lemma push_unless_limit_filter limitElement : forall found result,
  push_unless_limit limitElement result found
  = result ++ filter (fun x => negb (jq_is limitElement [x])) found.
Proof.
  unfold push_unless_limit.
  induction found as [|x found IH]; intros result; simpl.
  - now rewrite app_nil_r.
  - rewrite IH. destruct (jq_is limitElement [x]); simpl; [reflexivity|].
    now rewrite <- app_assoc.
Qed.

(** One round of the loop. *)
Lemma find_scan_round steps d sel limitElement endNode startNode result :
  find_scan steps d sel limitElement endNode startNode result
  = let result := result ++ found_at d sel limitElement startNode in
    if startNode =? endNode then Ret result
    else
      match elements_only (following_siblings d startNode) with
      | next :: _ =>
          if List.length (jq_has d (jq_prevAll d (node_id next)) endNode) =? 0 then
            match steps with
            | S steps' => find_scan steps' d sel limitElement endNode (node_id next) result
            | 0 => OutOfFuel
            end
          else Ret result
      | [] => Ret result
      end.
Proof.
  assert (E : jq_is [endNode] [startNode] = (startNode =? endNode)).
  { unfold jq_is, jq_mem. simpl. rewrite !orb_false_r. apply Nat.eqb_sym. }
  assert (R : push_unless_limit limitElement
                (if negb (jq_is limitElement [startNode])
                 then push_unless_limit limitElement
                        (push_unless_limit limitElement result (jq_filter d sel [startNode]))
                        (jq_parentsUntil d startNode limitElement sel)
                 else push_unless_limit limitElement result (jq_filter d sel [startNode]))
                (jq_find d startNode sel)
              = result ++ found_at d sel limitElement startNode).
  { unfold found_at. rewrite !filter_app.
    destruct (negb (jq_is limitElement [startNode]));
      rewrite !push_unless_limit_filter; simpl; now rewrite <- ?app_assoc. }
  destruct steps; cbn [find_scan]; rewrite R, E; cbv zeta;
    unfold jq_next; destruct (elements_only (following_siblings d startNode)); reflexivity.
Qed.

Lemma filter_first {A : Type} (f : A -> bool) : forall (l : list A) x rest,
  filter f l = x :: rest ->
  exists m, nth_error l m = Some x /\ filter f (skipn (S m) l) = rest.
Proof.
  induction l as [|a l IH]; intros x rest H; simpl in H; [discriminate|].
  destruct (f a) eqn:F.
  - inversion H; subst. exists 0. split; reflexivity.
  - destruct (IH _ _ H) as [m [H1 H2]]. exists (S m). split; assumption.
Qed.

(** The element sibling after a node: its own following siblings are what
    is left of the node's. *)
Lemma next_element_sibling d s x rest :
  NoDup (ids d) ->
  elements_only (following_siblings d s) = x :: rest ->
  elements_only (following_siblings d (node_id x)) = rest
  /\ List.length (following_siblings d (node_id x)) < List.length (following_siblings d s).
Proof.
  intros ND H.
  assert (F : exists p q par, parent_path p = Some q /\ node_at q d = Some par
                /\ following_siblings d s = skipn (S (child_index p)) (kids par)).
  { unfold following_siblings in H |- *. unfold parentNode in H |- *.
    destruct (locate s d) as [p|] eqn:L; [|discriminate].
    destruct (parent_path p) as [q|] eqn:Q; [|discriminate].
    destruct (node_at q d) as [par|] eqn:P; [|discriminate].
    exists p, q, par. auto. }
  destruct F as [p [q [par [Q [P F]]]]]. rewrite F in H |- *.
  unfold elements_only in H.
  destruct (filter_first _ _ _ _ H) as [m [H1 H2]].
  rewrite nth_error_skipn in H1. rewrite skipn_skipn in H2.
  rewrite (sibling_following d ND q par P _ _ H1).
  split.
  - unfold elements_only. rewrite <- H2. f_equal. f_equal. lia.
  - assert (S (child_index p) + m < List.length (kids par)).
    { apply nth_error_Some. congruence. }
    rewrite !length_skipn. lia.
Qed.

(** The loop ends, and what it finds is what its rounds find on the nodes
    it goes through. *)
Lemma find_scan_scanned d sel limitElement endNode :
  NoDup (ids d) ->
  forall steps startNode result,
    List.length (following_siblings d startNode) <= steps ->
    find_scan steps d sel limitElement endNode startNode result
    = Ret (result ++ flat_map (found_at d sel limitElement) (scanned d endNode startNode)).
Proof.
  intros ND. induction steps as [|steps IH]; intros s result Hlen;
    rewrite find_scan_round; cbv zeta; unfold scanned; cbn [flat_map];
    destruct (s =? endNode); cbn [flat_map]; rewrite ?app_nil_r; try reflexivity;
    destruct (elements_only (following_siblings d s)) as [|x rest] eqn:E;
    cbn [scan_on flat_map]; rewrite ?app_nil_r; try reflexivity;
    destruct (List.length (jq_has d (jq_prevAll d (node_id x)) endNode) =? 0);
    cbn [flat_map]; rewrite ?app_nil_r; try reflexivity.
  - destruct (following_siblings d s); [discriminate E | simpl in Hlen; lia].
  - destruct (next_element_sibling d s x rest ND E) as [H1 H2].
    rewrite IH by lia. unfold scanned. rewrite H1. cbn [flat_map].
    now rewrite <- app_assoc.
Qed.

(** The search in one range. *)
Lemma find_in_range sel limitElement w range l result :
  NoDup (ids (document w)) ->
  range_scanned (document w) range = Some l ->
  (let d := document w in
   let* s := deref w (startContainer range) in
   let* startNode := first_non_text (s :: ancestors d (startContainer range)) in
   let* e := deref w (endContainer range) in
   let* endNode := first_non_text (e :: ancestors d (endContainer range)) in
   let* result :=
     find_scan (List.length (following_siblings d (node_id startNode))) d sel limitElement
               (node_id endNode) (node_id startNode) result in
   Ret (result, w))
  = Ret (result ++ flat_map (found_at (document w) sel limitElement) l, w).
Proof.
  intros ND H. unfold range_scanned, scan_node in H. unfold deref. cbv zeta.
  destruct (getNode (document w) (startContainer range)) as [s|]; [|discriminate].
  destruct (first_non_text (s :: ancestors (document w) (startContainer range)))
    as [a| |] eqn:A; try discriminate.
  destruct (getNode (document w) (endContainer range)) as [e|]; [|discriminate].
  destruct (first_non_text (e :: ancestors (document w) (endContainer range)))
    as [b| |] eqn:B; try discriminate.
  inversion H; subst. cbn [bind]. rewrite A. cbn [bind]. rewrite B. cbn [bind].
  now rewrite (find_scan_scanned _ _ _ _ ND) by lia.
Qed.

Lemma find_from sel limitElement w :
  NoDup (ids (document w)) ->
  Forall (fun r => range_scanned (document w) r <> None) (getAllRanges w Win) ->
  forall n i result fuel,
    List.length (getAllRanges w Win) - i <= n -> n < fuel ->
    eachRange_from (fun st : jq * World => getAllRanges (snd st) Win)
      (fun range st =>
         let d := document (snd st) in
         let* s := deref (snd st) (startContainer range) in
         let* startNode := first_non_text (s :: ancestors d (startContainer range)) in
         let* e := deref (snd st) (endContainer range) in
         let* endNode := first_non_text (e :: ancestors d (endContainer range)) in
         let* result :=
           find_scan (List.length (following_siblings d (node_id startNode))) d sel limitElement
                     (node_id endNode) (node_id startNode) (fst st) in
         Ret (result, snd st))
      fuel i (result, w)
    = Ret (result ++ selection_found (document w) sel limitElement
                       (skipn i (getAllRanges w Win)), w).
Proof.
  intros ND Hall. induction n as [|n IH]; intros i result fuel Hn Hf;
    (destruct fuel as [|fuel]; [lia|]); cbn [eachRange_from snd fst].
  - assert (N : nth_error (getAllRanges w Win) i = None) by (apply nth_error_None; lia).
    rewrite N, skipn_all2 by lia. cbn. now rewrite app_nil_r.
  - destruct (nth_error (getAllRanges w Win) i) as [r|] eqn:N.
    + rewrite Forall_forall in Hall.
      destruct (range_scanned (document w) r) as [l|] eqn:R;
        [|exfalso; apply (Hall r (nth_error_In _ _ N)); exact R].
      pose proof (find_in_range sel limitElement w r l result ND R) as F.
      cbv zeta in F. rewrite F. cbn [bind].
      rewrite IH by lia. rewrite (skipn_cons_nth _ _ _ N).
      unfold selection_found at 2. cbn [flat_map]. rewrite R.
      now rewrite <- app_assoc.
    + apply nth_error_None in N. rewrite skipn_all2 by lia. cbn. now rewrite app_nil_r.
Qed.

(** [selectionFindWrappingAndInnerElements] leaves the page as it is and
    returns what is found for the ranges of the selection. *)
Lemma find_all sel limitElement fuel w :
  NoDup (ids (document w)) ->
  Forall (fun r => range_scanned (document w) r <> None) (getAllRanges w Win) ->
  rangeCount (windowSelection w) < fuel ->
  selectionFindWrappingAndInnerElements sel limitElement fuel w
  = Ret (selection_found (document w) sel limitElement (getAllRanges w Win), w).
Proof.
  intros ND Hall Hf. unfold selectionFindWrappingAndInnerElements, selectionEachRange.
  change (js_or None (rangy_getSelection (snd (@nil NodeRef, w)))) with (Some Win).
  exact (find_from sel limitElement w ND Hall (List.length (getAllRanges w Win)) 0 [] fuel
           ltac:(lia) Hf).
Qed.

(** No sibling holds a sibling. *)
Lemma no_sibling_has d q par m x j b :
  NoDup (ids d) -> node_at q d = Some par ->
  nth_error (kids par) m = Some x -> nth_error (kids par) j = Some b ->
  jq_has d (jq_prevAll d (node_id x)) (node_id b) = [].
Proof.
  intros ND P Hx Hb. unfold jq_has, jq_prevAll, preceding_siblings.
  rewrite (sibling_locate d ND q par P _ _ Hx), (sibling_parent d ND q par P _ _ Hx).
  unfold child_index. rewrite last_last.
  assert (G : forall y, In y (rev (firstn m (kids par))) ->
                        strictly_contains d (node_id y) (node_id b) = false).
  { intros y Hy. apply in_rev in Hy. apply In_nth_error in Hy. destruct Hy as [k Hk].
    assert (Hk' : nth_error (kids par) k = Some y).
    { rewrite nth_error_firstn in Hk. destruct (k <? m); [exact Hk | discriminate]. }
    unfold strictly_contains.
    rewrite (sibling_locate d ND q par P _ _ Hk'), (sibling_locate d ND q par P _ _ Hb).
    rewrite !length_app. simpl. rewrite Nat.ltb_irrefl. apply andb_false_r. }
  induction (rev (firstn m (kids par))) as [|y l IH]; [reflexivity|].
  unfold elements_only in *. simpl. destruct (is_element y); simpl.
  - rewrite (G y (or_introl eq_refl)). apply IH. intros z Hz. apply G. now right.
  - apply IH. intros z Hz. apply G. now right.
Qed.

Lemma scan_on_siblings d q par j b :
  NoDup (ids d) -> node_at q d = Some par ->
  nth_error (kids par) j = Some b -> is_element b = true ->
  forall l off,
    (forall k x, nth_error l k = Some x -> nth_error (kids par) (off + k) = Some x) ->
    off <= j -> nth_error l (j - off) = Some b ->
    scan_on d (node_id b) (elements_only l)
    = map node_id (elements_only (firstn (S (j - off)) l)).
Proof.
  intros ND P Hb Eb. induction l as [|x l IH]; intros off Hl Hoff Hj.
  - destruct (j - off); discriminate.
  - assert (Hx : nth_error (kids par) off = Some x).
    { rewrite <- (Nat.add_0_r off). now apply Hl. }
    assert (Hl' : forall k y, nth_error l k = Some y -> nth_error (kids par) (S off + k) = Some y).
    { intros k y Hy. replace (S off + k) with (off + S k) by lia. now apply Hl. }
    destruct (Nat.eq_dec off j) as [->|Hne].
    + rewrite Nat.sub_diag in Hj |- *. simpl in Hj. inversion Hj; subst x.
      unfold elements_only. cbn [firstn filter]. rewrite Eb. cbn [scan_on map].
      rewrite (no_sibling_has d q par j b j b ND P Hb Hb). cbn [List.length Nat.eqb].
      now rewrite Nat.eqb_refl.
    + assert (Hj' : nth_error l (j - S off) = Some b).
      { replace (j - off) with (S (j - S off)) in Hj by lia. exact Hj. }
      replace (S (j - off)) with (S (S (j - S off))) by lia.
      specialize (IH (S off) Hl' ltac:(lia) Hj').
      unfold elements_only in *. cbn [firstn filter].
      change (firstn (S (j - S off)) l) with (firstn (S (j - S off)) l) in IH.
      destruct (is_element x) eqn:Ex.
      * cbn [scan_on map].
        rewrite (no_sibling_has d q par off x j b ND P Hx Hb). cbn [List.length Nat.eqb].
        assert (D : (node_id x =? node_id b) = false).
        { apply Nat.eqb_neq. apply (sibling_ids_differ d ND q par P off j x b Hx Hb Hne). }
        rewrite D. f_equal. exact IH.
      * exact IH.
Qed.

(** Between two children of one parent the loop goes through the element
    children from the first to the second. *)
Lemma scanned_siblings d q par i j a b :
  NoDup (ids d) -> node_at q d = Some par ->
  nth_error (kids par) i = Some a -> nth_error (kids par) j = Some b ->
  i <= j -> is_element b = true ->
  scanned d (node_id b) (node_id a)
  = node_id a :: map node_id (elements_only (firstn (j - i) (skipn (S i) (kids par)))).
Proof.
  intros ND P Ha Hb Hij Eb. unfold scanned. f_equal.
  destruct (Nat.eq_dec i j) as [->|Hne].
  - assert (a = b) by congruence. subst. now rewrite Nat.eqb_refl, Nat.sub_diag.
  - assert (D : (node_id a =? node_id b) = false).
    { apply Nat.eqb_neq. apply (sibling_ids_differ d ND q par P i j a b Ha Hb Hne). }
    rewrite D, (sibling_following d ND q par P _ _ Ha).
    rewrite (scan_on_siblings d q par j b ND P Hb Eb (skipn (S i) (kids par)) (S i)).
    + do 3 f_equal. lia.
    + intros k x Hk. now rewrite nth_error_skipn in Hk.
    + lia.
    + rewrite nth_error_skipn. replace (S i + (j - S i)) with j by lia. exact Hb.
Qed.

Lemma changeTags_renames parser changeTo changeFrom limitElement fuel w w1 w2 elements :
  selectionSave false w = Ret w1 ->
  selectionFindWrappingAndInnerElements changeFrom limitElement fuel w1 = Ret (elements, w2) ->
  elements <> [] -> NoDup (ids (document w2)) ->
  selectionChangeTags parser changeTo changeFrom limitElement fuel w
  = Ret (selectionRestore (set_document w2 (rename_tags elements changeTo (document w2)))).
Proof.
  intros Hsave Hfind Hne ND. unfold selectionChangeTags. rewrite Hsave. cbn [bind].
  rewrite Hfind. cbn [bind].
  destruct elements as [|e els]; [congruence|]. cbn [List.length Nat.eqb negb bind].
  now rewrite elementChangeTag_renames.
Qed.

Lemma changeTags_wraps parser changeTo changeFrom limitElement fuel w w1 w2 l n :
  selectionSave false w = Ret w1 ->
  selectionFindWrappingAndInnerElements changeFrom limitElement fuel w1 = Ret ([], w2) ->
  jq_first limitElement = Some l -> getNode (document w2) l = Some n ->
  selectionChangeTags parser changeTo changeFrom limitElement fuel w
  = Ret (selectionRestore
           (set_fresh
              (set_document w2
                 (modify_node l
                    (set_kids (fst (parse (parser (tag_of n) changeTo (innerHTML n)) (fresh w2))))
                    (document w2)))
              (snd (parse (parser (tag_of n) changeTo (innerHTML n)) (fresh w2))))).
Proof.
  intros Hsave Hfind Hl Hn. unfold selectionChangeTags. rewrite Hsave. cbn [bind].
  rewrite Hfind. cbn [bind List.length Nat.eqb negb]. rewrite Hl. cbn [nonnull bind].
  unfold deref. rewrite Hn. cbn [bind].
  now destruct (parse (parser (tag_of n) changeTo (innerHTML n)) (fresh w2)).
Qed.

(** The limit element after its content is set: the same element, with the
    children the parser gives. *)
Lemma limit_rewritten (w : World) l n ks (f : nat) :
  getNode (document w) l = Some n -> is_element n = true ->
  exists n',
    getNode (document (set_fresh (set_document w (modify_node l (set_kids ks) (document w))) f)) l
    = Some n'
    /\ tag_of n' = tag_of n /\ classes_of n' = classes_of n /\ attrs_of n' = attrs_of n
    /\ kids n' = ks.
Proof.
  intros Hn He. exists (set_kids ks n). cbn [document set_fresh set_document].
  split; [apply getNode_modify_node; [apply node_id_set_kids | exact Hn]|].
  destruct n; [discriminate|]. simpl. auto.
Qed.

(** C4 (amended).  The selection is saved first.  For every range of the
    selection the loop of [selectionFindWrappingAndInnerElements] goes
    through the nodes [scanned]: from the element of the start container on
    through the following element siblings, up to the element of the end
    container when that is one of them; for each such node it takes the
    node, its ancestors below the limit element and its descendants, those
    whose tag is in [changeFrom] (without regard to case), never the limit
    element.  When something is found, exactly the elements found get the tag
    [changeTo] and keep identity, classes, attributes and children.  When
    nothing is found, the content of the limit element is what the HTML
    parser makes of [changeTo]'s start tag, the former content and
    [changeTo]'s end tag: one new [changeTo] element around the former
    content when the parser nests them.  The selection is restored
    afterwards.  With [world] selected in [<p>Hello <b>world</b></p>],
    changing [b] to [i] gives [<p>Hello <i>world</i></p>], and changing [em]
    to [i] gives [<p><i>Hello <b>world</b></i></p>] with such a parser. *)
Theorem selectionChangeTags_renames_or_wraps :
  (forall (parser : HtmlParser) (changeTo : string) (changeFrom : list string)
          (limitElement : jq) (fuel : nat) (w w1 : World),
      selectionSave false w = Ret w1 ->
      NoDup (ids (document w1)) ->
      Forall (fun r => range_scanned (document w1) r <> None) (getAllRanges w1 Win) ->
      rangeCount (windowSelection w1) < fuel ->
      let found :=
        selection_found (document w1) changeFrom limitElement (getAllRanges w1 Win) in
      selectionFindWrappingAndInnerElements changeFrom limitElement fuel w1 = Ret (found, w1)
      /\ (found <> [] ->
          selectionChangeTags parser changeTo changeFrom limitElement fuel w
          = Ret (selectionRestore
                   (set_document w1 (rename_tags found changeTo (document w1)))))
      /\ (found = [] ->
          forall l n, jq_first limitElement = Some l ->
                      getNode (document w1) l = Some n -> is_element n = true ->
          exists w3 n',
            selectionChangeTags parser changeTo changeFrom limitElement fuel w
            = Ret (selectionRestore w3)
            /\ getNode (document w3) l = Some n'
            /\ tag_of n' = tag_of n /\ classes_of n' = classes_of n
            /\ attrs_of n' = attrs_of n
            /\ map outer (kids n') = parser (tag_of n) changeTo (innerHTML n)
            /\ (nests parser (tag_of n) changeTo (innerHTML n) ->
                map outer (kids n') = [MElem changeTo [] [] (innerHTML n)])))
  /\ (forall d v, scanned d v v = [v])
  /\ (forall d q par i j a b,
        NoDup (ids d) -> node_at q d = Some par ->
        nth_error (kids par) i = Some a -> nth_error (kids par) j = Some b ->
        i <= j -> is_element b = true ->
        scanned d (node_id b) (node_id a)
        = node_id a
          :: map node_id (elements_only (firstn (j - i) (skipn (S i) (kids par)))))
  /\ (forall parser,
        exists w', selectionChangeTags parser "i" ["b"] [1] 2 hello_world = Ret w'
                   /\ markup_at w' 1 = Some "<p>Hello <i>world</i></p>")
  /\ (forall parser w1 n,
        selectionSave false hello_world = Ret w1 -> getNode (document w1) 1 = Some n ->
        nests parser "p" "i" (innerHTML n) ->
        exists w', selectionChangeTags parser "i" ["em"] [1] 2 hello_world = Ret w'
                   /\ markup_at w' 1 = Some "<p><i>Hello <b>world</b></i></p>").
Proof.
  split; [|split; [|split; [|split]]].
  - intros parser changeTo changeFrom limitElement fuel w w1 Hsave ND Hall Hf found.
    pose proof (find_all changeFrom limitElement fuel w1 ND Hall Hf) as Hfind.
    fold found in Hfind. split; [exact Hfind|]. split.
    + intros Hne. now apply (changeTags_renames _ _ _ _ _ _ w1 w1 found).
    + intros Hnil l n Hl Hn He. rewrite Hnil in Hfind.
      rewrite (changeTags_wraps parser changeTo _ _ _ _ w1 w1 l n Hsave Hfind Hl Hn).
      pose proof (outer_parse (parser (tag_of n) changeTo (innerHTML n)) (fresh w1)) as Hp.
      destruct (limit_rewritten w1 l n
                  (fst (parse (parser (tag_of n) changeTo (innerHTML n)) (fresh w1)))
                  (snd (parse (parser (tag_of n) changeTo (innerHTML n)) (fresh w1))) Hn He)
        as [n' [G [H1 [H2 [H3 H4]]]]].
      eexists. exists n'. split; [reflexivity|]. split; [exact G|].
      rewrite H4, Hp. unfold nests. auto 10.
  - intros d v. unfold scanned. now rewrite Nat.eqb_refl.
  - apply scanned_siblings.
  - intros parser. eexists. split; vm_compute; reflexivity.
  - intros parser w1 n Hsave Hn Hnests.
    assert (Hfind : selectionFindWrappingAndInnerElements ["em"] [1] 2 w1 = Ret ([], w1)).
    { vm_compute in Hsave. inversion Hsave; subst w1. vm_compute. reflexivity. }
    rewrite (changeTags_wraps parser "i" _ _ _ _ w1 w1 1 n Hsave Hfind eq_refl Hn).
    unfold nests in Hnests.
    vm_compute in Hsave. inversion Hsave; subst w1.
    vm_compute in Hn. inversion Hn; subst n.
    eexists. split; [reflexivity|].
    cbn [tag_of]. rewrite Hnests. vm_compute. reflexivity.
Qed.

(** In [bold_run] the selection goes from the first [b] element to the
    last: the two [b] elements and the [B] element inside the [i] element
    between them are found, and renamed. *)
Lemma selectionChangeTags_renames_or_wraps_witness :
  exists w1,
    selectionSave false bold_run = Ret w1
    /\ selectionFindWrappingAndInnerElements ["b"] [1] 2 w1 = Ret ([2; 8; 6], w1)
    /\ selectionChangeTags void_aware "strong" ["b"] [1] 2 bold_run
       = Ret (selectionRestore (set_document w1 (rename_tags [2; 8; 6] "strong" (document w1))))
    /\ exists w', selectionChangeTags void_aware "strong" ["b"] [1] 2 bold_run = Ret w'
                  /\ markup_at w' 1
                     = Some "<p><strong>x</strong><i><strong>y</strong></i><strong>z</strong></p>".
Proof.
  eexists. split; [vm_compute; reflexivity|].
  destruct (proj1 selectionChangeTags_renames_or_wraps void_aware "strong" ["b"] [1] 2
              bold_run _ ltac:(vm_compute; reflexivity) ltac:(distinct_ids)
              ltac:(repeat constructor; vm_compute; discriminate)
              ltac:(vm_compute; lia)) as [F [R _]].
  split; [exact F|]. split; [apply R; vm_compute; discriminate|].
  eexists. split; vm_compute; reflexivity.
Defined.

(** C4, as stated, fails for a tag that cannot hold content: with [world]
    selected in [<p>Hello <b>world</b></p>] and no [em] element around,
    [selectionChangeTags('img', ['em'], p)] puts an empty [img] element before
    the content of the paragraph; the content is in no new element. *)
Lemma selectionChangeTags_void_tag :
  exists w' n',
    selectionChangeTags void_aware "img" ["em"] [1] 2 hello_world = Ret w'
    /\ getNode (document w') 1 = Some n'
    /\ map outer (kids n')
       = [MElem "img" [] [] []; MText "Hello "; MElem "b" [] [] [MText "world"]]
    /\ (forall inner, map outer (kids n') <> [MElem "img" [] [] inner]).
Proof.
  eexists. eexists. split; [vm_compute; reflexivity|].
  split; [vm_compute; reflexivity|]. split; [vm_compute; reflexivity|].
  intros inner. vm_compute. discriminate.
Qed.

(** ** Cutting a node at a position *)

Lemma concat_cons (x : string) (l : list string) :
  String.concat EmptyString (x :: l) = (x ++ String.concat EmptyString l)%string.
Proof. destruct l; simpl; [now rewrite string_app_nil_r | reflexivity]. Qed.

Lemma concat_app (l1 l2 : list string) :
  String.concat EmptyString (l1 ++ l2)
  = (String.concat EmptyString l1 ++ String.concat EmptyString l2)%string.
Proof.
  induction l1 as [|x l1 IH]; [reflexivity|].
  change ((x :: l1) ++ l2) with (x :: (l1 ++ l2)).
  now rewrite !concat_cons, IH, string_app_assoc.
Qed.

Lemma str_take_drop k : forall s, (str_take k s ++ str_drop k s)%string = s.
Proof.
  induction k as [|k IH]; intros [|c s]; simpl; try reflexivity. now rewrite IH.
Qed.

Lemma text_of_app l1 l2 : text_of (l1 ++ l2) = (text_of l1 ++ text_of l2)%string.
Proof. unfold text_of. now rewrite map_app, concat_app. Qed.

Lemma text_of_cons n l : text_of (n :: l) = (textContent n ++ text_of l)%string.
Proof. unfold text_of. simpl map. apply concat_cons. Qed.

Lemma textContent_kids n : is_element n = true -> textContent n = text_of (kids n).
Proof. destruct n; [discriminate | reflexivity]. Qed.

Lemma split_node_spec : forall p n fr l r f,
  split_node true p n fr = (l, r, f) ->
  node_id l = node_id n /\ same_element l n /\ same_element r n
  /\ (textContent l ++ textContent r)%string = textContent n.
Proof.
  assert (Here : forall k n fr l r f,
    match n with
    | Text i d => (Text i (str_take k d), Text fr (str_drop k d), S fr)
    | Elem i t c a ks => (Elem i t c a (firstn k ks), Elem fr t c a (skipn k ks), S fr)
    end = (l, r, f) ->
    node_id l = node_id n /\ same_element l n /\ same_element r n
    /\ (textContent l ++ textContent r)%string = textContent n).
  { intros k n fr l r f H. destruct n as [i d | i t c a ks]; inversion H; subst; clear H.
    - repeat split. simpl. apply str_take_drop.
    - repeat split. simpl. fold (text_of (firstn k ks)) (text_of (skipn k ks)) (text_of ks).
      now rewrite <- text_of_app, firstn_skipn. }
  induction p as [|k p IH]; intros n fr l r f H.
  - exact (Here 0 n fr l r f H).
  - destruct p as [|k' p'].
    + exact (Here k n fr l r f H).
    + destruct n as [i d | i t c a ks]; [exact (Here k (Text i d) fr l r f H)|].
      change (split_node true (k :: k' :: p') (Elem i t c a ks) fr)
        with (match nth_error ks k with
              | None => (Elem i t c a (firstn k ks), Elem fr t c a (skipn k ks), S fr)
              | Some child =>
                  let '(l, r, f) := split_node true (k' :: p') child (S fr) in
                  (Elem i t c a (firstn k ks ++ [l]), Elem fr t c a (r :: skipn (S k) ks), f)
              end) in H.
      remember (k' :: p') as p0.
      destruct (nth_error ks k) as [child|] eqn:N;
        [|exact (Here k (Elem i t c a ks) fr l r f H)].
      destruct (split_node true p0 child (S fr)) as [[l' r'] f'] eqn:Sp.
      inversion H; subst l r f; clear H.
      destruct (IH child (S fr) l' r' f' Sp) as [_ [_ [_ Ht]]].
      repeat split.
      change (text_of (firstn k ks ++ [l']) ++ text_of (r' :: skipn (S k) ks)
              = text_of ks)%string.
      destruct (nth_error_split_at ks k child N) as [_ E].
      transitivity (text_of (firstn k ks ++ child :: skipn (S k) ks)); [|now rewrite <- E].
      rewrite !text_of_app, !text_of_cons. change (text_of []) with EmptyString.
      rewrite string_app_nil_r, <- Ht. now rewrite !string_app_assoc.
Qed.

(** ** Rewriting the children of one element *)

Lemma list_modify_list_modify {A : Type} (g1 g2 : A -> A) : forall (l : list A) k,
  list_modify k g2 (list_modify k g1 l) = list_modify k (fun a => g2 (g1 a)) l.
Proof.
  induction l as [|x l IH]; intros [|k]; simpl; try reflexivity. now rewrite IH.
Qed.

Lemma list_modify_ext {A : Type} (g1 g2 : A -> A) : forall (l : list A) k,
  (forall a, nth_error l k = Some a -> g1 a = g2 a) ->
  list_modify k g1 l = list_modify k g2 l.
Proof.
  induction l as [|x l IH]; intros [|k] H; simpl; try reflexivity.
  - now rewrite (H x eq_refl).
  - f_equal. apply IH. exact H.
Qed.

Lemma set_kids_set_kids a b n : set_kids a (set_kids b n) = set_kids a n.
Proof. destruct n; reflexivity. Qed.

Lemma modify_at_ext g1 g2 : forall p d,
  (forall n, node_at p d = Some n -> g1 n = g2 n) ->
  modify_at p g1 d = modify_at p g2 d.
Proof.
  induction p as [|k p IH]; intros d H; simpl.
  - now apply H.
  - f_equal. apply list_modify_ext. intros child N. apply IH. intros n Hn.
    apply H. simpl. now rewrite N.
Qed.

Lemma modify_at_modify_at g1 g2 : forall p d,
  modify_at p g2 (modify_at p g1 d) = modify_at p (fun n => g2 (g1 n)) d.
Proof.
  induction p as [|k p IH]; intros d; simpl; [reflexivity|].
  rewrite kids_set_kids, set_kids_set_kids. destruct (is_element d) eqn:E.
  - rewrite list_modify_list_modify. f_equal. apply list_modify_ext. intros a _. apply IH.
  - destruct d; [reflexivity | discriminate].
Qed.

Lemma with_children_again q X Y d :
  with_children q Y (with_children q X d) = with_children q Y d.
Proof.
  unfold with_children. rewrite modify_at_modify_at. apply modify_at_ext.
  intros n _. apply set_kids_set_kids.
Qed.

Lemma with_children_rewrite q (F : list node -> list node) X d lim :
  node_at q d = Some lim -> is_element lim = true ->
  modify_at q (fun c => set_kids (F (kids c)) c) (with_children q X d)
  = with_children q (F X) d.
Proof.
  intros Hq He. unfold with_children. rewrite modify_at_modify_at. apply modify_at_ext.
  intros n Hn. rewrite Hq in Hn. inversion Hn; subst n.
  rewrite kids_set_kids, He. apply set_kids_set_kids.
Qed.

Lemma node_at_with_children q X d lim :
  node_at q d = Some lim -> node_at q (with_children q X d) = Some (set_kids X lim).
Proof. apply node_at_modify_at_same. Qed.

Lemma locate_with_children i q X d :
  locate i d = Some q -> locate i (with_children q X d) = Some q.
Proof. apply locate_modify_at_self. intros n. apply node_id_set_kids. Qed.

Lemma locate_root i n : node_id n = i -> locate i n = Some [].
Proof. intros <-. destruct n; simpl; now rewrite Nat.eqb_refl. Qed.

(** A child that keeps its place and identity is found where it was. *)
Lemma locate_child_with_children i k x : forall q d lim X,
  locate i d = Some (q ++ [k]) -> node_at q d = Some lim ->
  firstn k X = firstn k (kids lim) -> nth_error X k = Some x -> node_id x = i ->
  locate i (with_children q X d) = Some (q ++ [k]).
Proof.
  unfold with_children.
  induction q as [|a q IH]; intros d lim X L Hq HX Hk Hx.
  - simpl in Hq. inversion Hq; subst lim. simpl in *.
    destruct d as [j s | j t c at_ ks]; simpl in L.
    { destruct (j =? i); discriminate. }
    destruct (j =? i) eqn:E; [discriminate|]. simpl. rewrite E.
    destruct (first_some (map (locate i) ks)) as [[k' p]|] eqn:F; [|discriminate].
    inversion L; subst k' p. apply first_some_Some in F. destruct F as [_ Fb].
    rewrite (first_some_found (map (locate i) X) k []); [reflexivity| |].
    + rewrite nth_error_map, Hk. simpl. f_equal. now apply locate_root.
    + intros j' Hj'. specialize (Fb j' Hj'). rewrite nth_error_map in *.
      assert (Q : nth_error X j' = nth_error ks j').
      { assert (A : forall l : list node, nth_error (firstn k l) j' = nth_error l j').
        { intros l. rewrite nth_error_firstn.
          destruct (Nat.ltb_spec j' k); [reflexivity | lia]. }
        now rewrite <- (A X), <- (A ks), HX. }
      now rewrite Q.
  - simpl in Hq. destruct (nth_error (kids d) a) as [child|] eqn:N; [|discriminate].
    destruct d as [j s | j t c at_ ks]; [destruct a; discriminate|]. simpl in N, L.
    destruct (j =? i) eqn:E; [discriminate|].
    destruct (first_some (map (locate i) ks)) as [[k' p]|] eqn:F; [|discriminate].
    inversion L; subst k' p. apply first_some_Some in F. destruct F as [F Fb].
    rewrite nth_error_map, N in F. simpl in F. inversion F as [F'].
    simpl. rewrite E.
    rewrite (first_some_found _ a (q ++ [k])); [reflexivity| |].
    + rewrite nth_error_map, nth_error_list_modify, Nat.eqb_refl, N. simpl. f_equal.
      eapply IH; eauto.
    + intros j' Hj'. rewrite nth_error_map, nth_error_list_modify.
      assert (Q : (j' =? a) = false) by (apply Nat.eqb_neq; lia). rewrite Q.
      rewrite <- nth_error_map. now apply Fb.
Qed.

(** ** Extracting up to the end of a block *)

Lemma list_set_as_modify {A : Type} (g : A -> A) : forall (l : list A) k a,
  nth_error l k = Some a -> list_set k (g a) l = list_modify k g l.
Proof.
  induction l as [|x l IH]; intros [|k] a H; simpl in *; try discriminate.
  - now inversion H.
  - f_equal. now apply IH.
Qed.

Lemma extract_in_same_child a s0 e0 n child fr :
  s0 <> [] -> e0 <> [] -> nth_error (kids n) a = Some child ->
  extract_in (a :: s0) (a :: e0) n fr
  = (let '(c', frag, pos, f) := extract_in s0 e0 child fr in
     (set_kids (list_set a c' (kids n)) n, frag, a :: pos, f)).
Proof.
  intros Hs He N. destruct s0 as [|x s0]; [congruence|]. destruct e0 as [|y e0]; [congruence|].
  cbn [extract_in]. rewrite N, Nat.eqb_refl. reflexivity.
Qed.

Lemma extract_in_start_inside i s0 b n ci fr :
  s0 <> [] -> nth_error (kids n) i = Some ci ->
  extract_in (i :: s0) [b] n fr
  = (let '(l, r, f) := split_node true s0 ci fr in
     (set_kids (firstn i (kids n) ++ l :: skipn b (kids n)) n,
      r :: firstn (b - S i) (skipn (S i) (kids n)), [S i], f)).
Proof.
  intros Hs N. destruct s0 as [|x s0]; [congruence|].
  cbn [extract_in]. rewrite N. reflexivity.
Qed.

(** Both ends of the range below the element at [q]: the extraction takes
    place in that element. *)
Lemma extract_in_prefix s' e' : s' <> [] -> e' <> [] ->
  forall q d lim fr,
    node_at q d = Some lim ->
    extract_in (q ++ s') (q ++ e') d fr
    = (let '(lim', frag, pos, f) := extract_in s' e' lim fr in
       (modify_at q (fun _ => lim') d, frag, q ++ pos, f)).
Proof.
  intros Hs He. induction q as [|a q IH]; intros d lim fr Hq.
  - simpl in Hq. inversion Hq; subst. simpl.
    now destruct (extract_in s' e' lim fr) as [[[lim' frag] pos] f].
  - simpl in Hq. destruct (nth_error (kids d) a) as [child|] eqn:N; [|discriminate].
    change ((a :: q) ++ s') with (a :: (q ++ s')).
    change ((a :: q) ++ e') with (a :: (q ++ e')).
    rewrite (extract_in_same_child a (q ++ s') (q ++ e') d child fr); auto.
    + rewrite (IH child lim fr Hq).
      destruct (extract_in s' e' lim fr) as [[[lim' frag] pos] f]. simpl.
      f_equal. f_equal. f_equal. f_equal. now apply list_set_as_modify.
    + intros F. apply app_eq_nil in F. tauto.
    + intros F. apply app_eq_nil in F. tauto.
Qed.

(** ** Clearing the formatting of a selection *)

Lemma common_prefix_refl : forall p, common_prefix p p = p.
Proof. induction p as [|x p IH]; simpl; [reflexivity|]. now rewrite Nat.eqb_refl, IH. Qed.

Lemma proper_prefixes_snoc : forall p x,
  proper_prefixes (p ++ [x]) = proper_prefixes p ++ [p].
Proof.
  induction p as [|a p IH]; intros x; simpl; [reflexivity|].
  now rewrite IH, map_app.
Qed.

Lemma snoc_not_nil {A : Type} (l : list A) (a : A) : l ++ [a] <> [].
Proof. intros H. apply app_eq_nil in H. destruct H; discriminate. Qed.

(** From a node below the limit node, the loop climbs to the child of the
    limit node that contains it. *)
Lemma child_of_limit_chain d limit q k : forall rest cn,
  NoDup (ids d) -> locate limit d = Some q ->
  node_at (q ++ k :: rest) d = Some cn ->
  child_of_limit limit
    (cn :: flat_map (fun p => option_list (node_at p d))
                    (rev (proper_prefixes (q ++ k :: rest))))
  = node_at (q ++ [k]) d.
Proof.
  intros rest. induction rest as [|x rest IH] using rev_ind; intros cn ND L H.
  - rewrite proper_prefixes_snoc, rev_app_distr. cbn [rev app flat_map].
    destruct (locate_sound _ _ _ L) as [lim [Hl Hi]]. rewrite Hl. cbn [option_list app].
    cbn [child_of_limit]. rewrite Hi, Nat.eqb_refl. cbn [negb]. now rewrite H.
  - assert (E : q ++ k :: rest ++ [x] = (q ++ k :: rest) ++ [x])
      by now rewrite <- app_assoc.
    rewrite E in *. rewrite node_at_app in H.
    destruct (node_at (q ++ k :: rest) d) as [m|] eqn:M; [|discriminate].
    rewrite proper_prefixes_snoc, rev_app_distr. cbn [rev app flat_map].
    rewrite M. cbn [option_list app]. cbn [child_of_limit].
    destruct (node_id m =? limit) eqn:Q.
    + apply Nat.eqb_eq in Q. pose proof (locate_unique _ _ _ ND M) as U.
      rewrite Q, L in U. inversion U as [U'].
      apply (f_equal (@List.length nat)) in U'. rewrite length_app in U'. simpl in U'. lia.
    + cbn [negb]. now apply IH.
Qed.

Lemma collapseAfter_child w i q k lim :
  locate i (document w) = Some (q ++ [k]) -> node_at q (document w) = Some lim ->
  collapseAfter i w = Ret (collapsed_at (node_id lim, S k)).
Proof.
  intros L Hq. unfold collapseAfter, point_after, parentNode, parent_path, child_index.
  rewrite L. destruct (q ++ [k]) eqn:E; [now apply snoc_not_nil in E|]. rewrite <- E.
  now rewrite removelast_last, last_last, Hq.
Qed.

Lemma insertNode_into w limit q lim o ns :
  locate limit (document w) = Some q -> node_at q (document w) = Some lim ->
  is_element lim = true ->
  exists r',
    insertNode (collapsed_at (limit, o)) ns w
    = Ret (r', set_fresh (set_document w
             (with_children q (firstn o (kids lim) ++ ns ++ skipn o (kids lim)) (document w)))
             (fresh w)).
Proof.
  intros L Hq He. unfold insertNode, boundary_pos. cbn [collapsed_at startContainer startOffset fst snd].
  rewrite L. unfold insert_nodes_at.
  destruct (q ++ [o]) eqn:E; [now apply snoc_not_nil in E|]. rewrite <- E.
  rewrite removelast_last, last_last, Hq.
  destruct lim as [|i t c a ks]; [discriminate|].
  assert (M : modify_at q (fun c0 => set_kids (firstn o (kids c0) ++ ns ++ skipn o (kids c0)) c0) (document w)
              = with_children q (firstn o ks ++ ns ++ skipn o ks) (document w)).
  { unfold with_children. apply modify_at_ext. intros x Hn. rewrite Hq in Hn.
    now inversion Hn. }
  rewrite M. cbn [kids].
  destruct (collapsed _); [|eexists; reflexivity].
  destruct (boundary_of_pos _ _); eexists; reflexivity.
Qed.

Lemma point_after_child d i q k lim :
  locate i d = Some (q ++ [k]) -> node_at q d = Some lim ->
  point_after d i = Some (node_id lim, S k).
Proof.
  intros L Hq. unfold point_after, parentNode, parent_path, child_index.
  rewrite L. destruct (q ++ [k]) eqn:E; [now apply snoc_not_nil in E|]. rewrite <- E.
  now rewrite removelast_last, last_last, Hq.
Qed.

Lemma extractContents_collapsed r w content r1 w1 :
  extractContents r w = Ret (content, r1, w1) -> fragmentToHtml content <> [] ->
  exists c o, r1 = collapsed_at (c, o).
Proof.
  unfold extractContents. intros H Hc. destruct (collapsed r).
  - inversion H; subst. now contradiction Hc.
  - destruct (boundary_pos _ _ _) as [s|]; [|discriminate].
    destruct (boundary_pos _ _ _) as [e|]; [|discriminate].
    destruct (extract_in _ _ _ _) as [[[d' frag] pos] f].
    destruct (boundary_of_pos d' pos) as [[c o]|]; [|discriminate].
    inversion H; subst. now exists c, o.
Qed.

Lemma firstn_length_nth {A : Type} k (ks : list A) b :
  nth_error ks k = Some b -> List.length (firstn k ks) = k.
Proof.
  intros N. apply firstn_length_le. apply Nat.lt_le_incl. apply nth_error_Some. congruence.
Qed.

Lemma firstn_S_snoc {A : Type} k (pre : list A) l tl :
  List.length pre = k -> firstn (S k) (pre ++ l :: tl) = pre ++ [l].
Proof.
  intros <-. induction pre as [|x pre IH]; [reflexivity|]. simpl in *. now rewrite IH.
Qed.

Lemma skipn_S_snoc {A : Type} k (pre : list A) l tl :
  List.length pre = k -> skipn (S k) (pre ++ l :: tl) = tl.
Proof.
  intros <-. induction pre as [|x pre IH]; [reflexivity|]. simpl in *. now rewrite IH.
Qed.

Lemma firstn_snoc {A : Type} k (pre tl : list A) :
  List.length pre = k -> firstn k (pre ++ tl) = pre.
Proof. intros <-. induction pre as [|x pre IH]; [reflexivity|]. simpl. now rewrite IH. Qed.

Lemma nth_error_snoc {A : Type} k (pre : list A) l tl :
  List.length pre = k -> nth_error (pre ++ l :: tl) k = Some l.
Proof. intros <-. induction pre as [|x pre IH]; [reflexivity|]. exact IH. Qed.



(** The selected [<b>B</b>] comes back as the bare text [B] between the
    two halves of its paragraph; the paragraph after it stays where it
    was. *)
Example selectionClearFormatting_flattens :
  exists w',
    selectionClearFormatting (Some 1) None bold_b_selected = Ret w'
    /\ render_html (serialize [document w'])
       = "<body><div><p>A</p>B<p>C</p><p>D</p></div></body>".
Proof. eexists. split; vm_compute; reflexivity. Qed.

(** ** Replacing within valid tags *)

(** C3: the code does not do what the claim says for a selection that is
    handed in.  The start, end and selected elements are those of the
    selection of the window, and the direct replacement is made there.
    With [div] as the only valid tag and the handed-in selection inside a
    [p]: when the window has no selection the call throws a [TypeError];
    when the caret of the window is inside the [div] the html goes into
    the [div], directly, and the [p] and the handed-in selection stay as
    they are.  For the selection of the window the same range does split
    the [p]. *)
Theorem selectionReplaceWithinValidTags_ignores_selection :
  selectionReplaceWithinValidTags bold_x ["div"] (Some (Frame 0)) 5 frame_only
  = Throws "TypeError"
  /\ (exists w',
        selectionReplaceWithinValidTags bold_x ["div"] (Some (Frame 0)) 5 window_and_frame
        = Ret (RArray [], w')
        /\ render_html (serialize [document w'])
           = "<body><div>x<b>x</b>y</div><p>ABC</p></body>"
        /\ get_sel w' (Frame 0) = get_sel window_and_frame (Frame 0))
  /\ (exists inserted w',
        selectionReplaceWithinValidTags bold_x ["div"] None 5 window_only
        = Ret (RJq inserted, w')
        /\ render_html (serialize [document w'])
           = "<body><div>xy</div><p>A</p><b>x</b><p>C</p></body>").
Proof.
  split; [vm_compute; reflexivity|]. split.
  - eexists. repeat split; vm_compute; reflexivity.
  - do 2 eexists. split; vm_compute; reflexivity.
Qed.

(** * Further properties of [selection.js] *)

(** ** The saved selection *)

(** Once a call of [selectionSave] has returned, a selection is saved, and
    a further [selectionSave()] without [overwrite] does nothing: the page
    and the saved selection stay as they are. *)
Theorem selectionSave_keeps_first : forall overwrite w w1,
  selectionSave overwrite w = Ret w1 ->
  selectionSaved w1 = true /\ selectionSave false w1 = Ret w1.
Proof.
  intros overwrite w w1 H. unfold selectionSave in H.
  assert (S1 : selectionSaved w1 = true).
  { destruct (savedSelection w) as [old|] eqn:E.
    - destruct overwrite.
      + destruct (rangy_saveSelection w) as [[infos w']| |]; try discriminate.
        cbn [bind] in H. inversion H; subst. reflexivity.
      + inversion H; subst. unfold selectionSaved. now rewrite E.
    - destruct (rangy_saveSelection w) as [[infos w']| |]; try discriminate.
      cbn [bind] in H. inversion H; subst. reflexivity. }
  split; [exact S1|]. unfold selectionSaved in S1. unfold selectionSave.
  destruct (savedSelection w1); [reflexivity | discriminate].
Qed.

Lemma selectionSave_keeps_first_witness :
  exists w1, selectionSave false b_selected = Ret w1
             /\ selectionSaved w1 = true /\ selectionSave false w1 = Ret w1.
Proof.
  eexists. split; [vm_compute; reflexivity|].
  apply (selectionSave_keeps_first false b_selected). vm_compute. reflexivity.
Defined.

Lemma set_saved_same w : savedSelection w = None -> set_saved w None = w.
Proof. destruct w; simpl. now intros ->. Qed.

(** After [selectionRestore] and after [selectionDestroy] no selection is
    saved; without a saved selection both leave the page alone, so a second
    call, of either, changes nothing.  [selectionChangeTags] ends with
    [selectionRestore]: when it returns no selection is saved, also when
    one had been saved before the call. *)
Theorem selectionRestore_forgets : forall w,
  selectionSaved (selectionRestore w) = false
  /\ selectionSaved (selectionDestroy w) = false
  /\ (selectionSaved w = false -> selectionRestore w = w /\ selectionDestroy w = w)
  /\ selectionRestore (selectionRestore w) = selectionRestore w
  /\ selectionDestroy (selectionRestore w) = selectionRestore w
  /\ selectionRestore (selectionDestroy w) = selectionDestroy w
  /\ selectionDestroy (selectionDestroy w) = selectionDestroy w
  /\ (forall parser changeTo changeFrom limitElement fuel w',
        selectionChangeTags parser changeTo changeFrom limitElement fuel w = Ret w' ->
        selectionSaved w' = false).
Proof.
  intros w.
  assert (A : forall v, selectionSaved (selectionRestore v) = false).
  { intros v. unfold selectionRestore, selectionSaved.
    destruct (savedSelection v) eqn:E; [reflexivity | now rewrite E]. }
  assert (R : selectionSaved (selectionRestore w) = false).
  { unfold selectionRestore, selectionSaved.
    destruct (savedSelection w) eqn:E; [reflexivity | now rewrite E]. }
  assert (D : selectionSaved (selectionDestroy w) = false).
  { unfold selectionDestroy, selectionSaved. now destruct (savedSelection w). }
  assert (N : forall v, selectionSaved v = false -> selectionRestore v = v /\ selectionDestroy v = v).
  { intros v. unfold selectionSaved, selectionRestore, selectionDestroy.
    destruct (savedSelection v) eqn:E; [discriminate|]. intros _.
    split; [reflexivity | now apply set_saved_same]. }
  split; [exact R|]. split; [exact D|]. split; [apply N|].
  destruct (N _ R) as [R1 R2]. destruct (N _ D) as [D1 D2].
  repeat (split; [assumption|]).
  intros parser changeTo changeFrom limitElement fuel w' H. unfold selectionChangeTags in H.
  destruct (selectionSave false w) as [w1| |]; try discriminate. cbn [bind] in H.
  destruct (selectionFindWrappingAndInnerElements _ _ _ _) as [[els w2]| |];
    try discriminate. cbn [bind] in H.
  match type of H with
  | bind ?m _ = _ => destruct m as [w3| |]; try discriminate
  end.
  cbn [bind] in H. inversion H; subst. apply A.
Qed.

Lemma selectionRestore_forgets_witness :
  exists w', selectionChangeTags void_aware "i" ["b"] [1] 2 hello_world = Ret w'
             /\ selectionSaved w' = false.
Proof.
  eexists. split; [vm_compute; reflexivity|].
  apply (proj2 (proj2 (proj2 (proj2 (proj2 (proj2 (proj2
           (selectionRestore_forgets hello_world))))))) void_aware "i" ["b"] [1] 2).
  vm_compute. reflexivity.
Defined.

(** ** Nothing selected *)

Lemma set_document_same w : set_document w (document w) = w.
Proof. now destruct w. Qed.

Lemma js_or_selection selection w :
  js_or selection (rangy_getSelection w) = Some (selection_or_window selection).
Proof. now destruct selection. Qed.

Lemma selectionEachRange_no_range {L : Type}
    (callback : Range -> L * World -> outcome (L * World)) selection fuel (l : L) w :
  getAllRanges w (selection_or_window selection) = [] ->
  selectionEachRange callback selection (S fuel) (l, w) = Ret (l, w).
Proof.
  intros H. unfold selectionEachRange. cbn [snd]. rewrite js_or_selection.
  cbn [eachRange_from snd]. now rewrite H.
Qed.

(** When the selection has no range, the functions that go through its
    ranges do nothing: no callback is called, nothing is replaced, found,
    constrained or toggled, and the page stays as it is. *)
Theorem no_range_nothing_happens :
  forall (selection : option SelRef) (w : World) (fuel : nat),
    getAllRanges w (selection_or_window selection) = [] ->
    (forall (L : Type) (callback : Range -> L * World -> outcome (L * World)) (l : L),
        selectionEachRange callback selection (S fuel) (l, w) = Ret (l, w))
    /\ (forall content, selectionReplace content selection (S fuel) w = Ret ([], w))
    /\ selectionGetElements selection (S fuel) w = Ret ([], w)
    /\ (forall element, selectionConstrain element selection w = Ret w)
    /\ (forall limitNode, selectionClearFormatting limitNode selection w = Ret w)
    /\ (forall content validTagNames,
          selectionReplaceWithinValidTags content validTagNames selection fuel w
          = Ret (RUndefined, w))
    /\ (selection = None ->
        forall (css_display : node -> string) (limitElement : jq)
               (blockContainer : option string),
          (forall (L : Type) (callback : NodeRef -> L * World -> outcome (L * World)) (l : L),
              selectionEachBlock css_display callback limitElement blockContainer
                                 (S fuel) (l, w)
              = Ret (l, w))
          /\ (forall addClasses removeClasses,
                selectionToggleBlockClasses css_display addClasses removeClasses limitElement
                                            blockContainer (S fuel) w
                = Ret w)
          /\ (forall sel, selectionFindWrappingAndInnerElements sel limitElement (S fuel) w
                          = Ret ([], w))).
Proof.
  intros selection w fuel H.
  pose proof (js_or_selection selection w) as J.
  split; [intros L callback l; now apply selectionEachRange_no_range|].
  split; [intros content; now apply selectionEachRange_no_range|].
  split; [now apply selectionEachRange_no_range|].
  unfold getAllRanges in H.
  split; [|split; [|split]].
  - intros element. unfold selectionConstrain. rewrite J. unfold getAllRanges.
    now rewrite H.
  - intros limitNode. unfold selectionClearFormatting. rewrite J. cbn [nonnull bind].
    unfold rangeCount. now rewrite H.
  - intros content validTagNames. unfold selectionReplaceWithinValidTags. rewrite J.
    cbn [nonnull bind]. unfold rangeCount. now rewrite H.
  - intros -> css limitElement blockContainer.
    assert (E : forall (L : Type) (cb : Range -> L * World -> outcome (L * World)) (l : L),
               selectionEachRange cb None (S fuel) (l, w) = Ret (l, w))
      by (intros L cb l; now apply selectionEachRange_no_range).
    split; [|split].
    + intros L callback l. apply E.
    + intros addClasses removeClasses.
      unfold selectionToggleBlockClasses, selectionEachBlock.
      rewrite E. cbn [bind]. unfold jq_removeClass. cbn [fold_left].
      now rewrite set_document_same.
    + intros sel. apply E.
Qed.

Lemma no_range_nothing_happens_witness :
  selectionReplace bold_x None 1 nothing_selected = Ret ([], nothing_selected)
  /\ selectionClearFormatting None None nothing_selected = Ret nothing_selected
  /\ selectionToggleBlockClasses ua_display ["hl"] [] [0] None 1 nothing_selected
     = Ret nothing_selected.
Proof.
  destruct (no_range_nothing_happens None nothing_selected 0 eq_refl)
    as [_ [H2 [_ [_ [H5 [_ H7]]]]]].
  split; [apply H2 | split; [apply H5 | apply (H7 eq_refl ua_display [0] None)]].
Defined.

(** With nothing selected (no range, no anchor, no focus) the functions that
    read the first range or the anchor and focus nodes throw:
    [selectionGetElement()] and [selectionReplaceSplittingSelectedElement]
    an [INDEX_SIZE_ERR] from [getRangeAt(0)], [selectionAtEndOfElement] and
    [selectionAtStartOfElement] a [TypeError] from the property access on
    [null]; [selectionGetStartElement] and [selectionGetEndElement] return
    [null]. *)
Theorem nothing_selected_throws :
  forall (w : World) (fuel : nat),
    windowSelection w = emptySelection ->
    selectionGetElement None w = Throws "INDEX_SIZE_ERR"
    /\ (forall content,
          selectionReplaceSplittingSelectedElement content None fuel w
          = Throws "INDEX_SIZE_ERR")
    /\ selectionAtEndOfElement w = Throws "TypeError"
    /\ selectionAtStartOfElement w = Throws "TypeError"
    /\ selectionGetStartElement w = Ret None
    /\ selectionGetEndElement w = Ret None.
Proof.
  intros w fuel H.
  unfold selectionGetElement, selectionReplaceSplittingSelectedElement,
    selectionAtEndOfElement, selectionAtStartOfElement, selectionGetStartElement,
    selectionGetEndElement, getRangeAt, rangy_getSelection.
  cbn [js_or nonnull bind get_sel]. rewrite H.
  repeat split; reflexivity.
Qed.

Lemma nothing_selected_throws_witness :
  selectionAtEndOfElement nothing_selected = Throws "TypeError"
  /\ selectionGetElement None nothing_selected = Throws "INDEX_SIZE_ERR".
Proof.
  destruct (nothing_selected_throws nothing_selected 0 eq_refl) as [H1 [_ [H3 _]]].
  split; [exact H3 | exact H1].
Defined.

(** ** Placing the caret at an edge of an element *)

Lemma length_list_set {A : Type} (a : A) : forall (l : list A) k,
  List.length (list_set k a l) = List.length l.
Proof. induction l as [|x l IH]; intros [|k]; simpl; auto. Qed.

Lemma get_set_sel w s v : sel_exists w s -> get_sel (set_sel w s v) s = v.
Proof.
  destruct s as [|k]; simpl; [reflexivity|]. intros H. now apply nth_list_set.
Qed.

Lemma sel_exists_set_sel w s v s' : sel_exists w s' -> sel_exists (set_sel w s v) s'.
Proof.
  destruct s as [|k], s' as [|k']; simpl; auto. now rewrite length_list_set.
Qed.

Lemma document_set_sel w s v : document (set_sel w s v) = document w.
Proof. now destruct s. Qed.

Lemma fresh_set_sel w s v : fresh (set_sel w s v) = fresh w.
Proof. now destruct s. Qed.

Lemma addRange_ranges w s r :
  sel_exists w s -> getAllRanges (addRange s r w) s = getAllRanges w s ++ [r].
Proof.
  intros H. unfold getAllRanges, addRange. rewrite (get_set_sel _ _ _ H).
  apply ranges_selection_of.
Qed.

Lemma select_edges sel start : forall (element : jq) (w : World),
  sel_exists w sel ->
  (forall i, In i element -> getNode (document w) i <> None) ->
  let w' := fold_left
              (fun w i =>
                 match getNode (document w) i with
                 | Some n => addRange sel (collapse (selectNodeContents n) start) w
                 | None => w
                 end) element w in
  sel_exists w' sel /\ document w' = document w /\ fresh w' = fresh w
  /\ Forall2 (fun i r => exists n, getNode (document w) i = Some n
                                   /\ r = collapsed_at (i, if start then 0 else node_length n))
             element (skipn (List.length (getAllRanges w sel)) (getAllRanges w' sel))
  /\ firstn (List.length (getAllRanges w sel)) (getAllRanges w' sel) = getAllRanges w sel.
Proof.
  induction element as [|i element IH]; intros w Hs Hin; cbn [fold_left].
  - split; [exact Hs|]. split; [reflexivity|]. split; [reflexivity|].
    rewrite skipn_all, firstn_all. split; [constructor | reflexivity].
  - destruct (getNode (document w) i) as [n|] eqn:G; [|now destruct (Hin i (or_introl eq_refl))].
    set (r := collapse (selectNodeContents n) start).
    assert (Hs1 : sel_exists (addRange sel r w) sel) by now apply sel_exists_set_sel.
    assert (Hd1 : document (addRange sel r w) = document w) by apply document_set_sel.
    destruct (IH (addRange sel r w) Hs1) as [I1 [I2 [I3 [I4 I5]]]].
    { intros j Hj. rewrite Hd1. apply Hin. now right. }
    cbv zeta in *. rewrite (addRange_ranges w sel r Hs) in I4, I5.
    rewrite length_app in I4, I5. cbn [List.length] in I4, I5.
    set (old := getAllRanges w sel) in *.
    set (all := getAllRanges (fold_left _ _ _) sel) in *.
    split; [exact I1|]. split; [now rewrite I2|].
    split; [rewrite I3; apply fresh_set_sel|].
    assert (Hall : all = (old ++ [r]) ++ skipn (List.length old + 1) all).
    { rewrite <- I5 at 1. apply eq_sym, firstn_skipn. }
    split.
    + rewrite Hall, <- (app_assoc old [r]), skipn_app, skipn_all, Nat.sub_diag. cbn [app skipn].
      constructor.
      * exists n. split; [exact G|]. unfold r.
        pose proof (getNode_id _ _ _ G) as Hi. unfold selectNodeContents, collapse.
        rewrite Hi. now destruct start.
      * rewrite Hd1 in I4. exact I4.
    + rewrite Hall, <- (app_assoc old [r]), firstn_app, firstn_all, Nat.sub_diag. cbn [firstn].
      apply app_nil_r.
Qed.

(** [selectionSelectEdge] (and so [selectionSelectStart] and
    [selectionSelectEnd]) replaces the ranges of the selection by one
    collapsed range for each element of the set, in the order of the set:
    at offset 0 of the element for the start, at the length of the element
    (its number of child nodes, or of characters for a text node) for the
    end.  The document is not changed. *)
Theorem selectionSelectEdge_collapsed_ranges :
  forall (element : jq) (selection : option SelRef) (start : bool) (w : World),
    sel_exists w (selection_or_window selection) ->
    (forall i, In i element -> getNode (document w) i <> None) ->
    exists w',
      selectionSelectEdge element selection start w = Ret w'
      /\ document w' = document w
      /\ Forall2 (fun i r => exists n, getNode (document w) i = Some n
                                       /\ r = collapsed_at (i, if start then 0 else node_length n))
                 element (getAllRanges w' (selection_or_window selection)).
Proof.
  intros element selection start w Hs Hin.
  set (sel := selection_or_window selection) in *.
  unfold selectionSelectEdge. rewrite js_or_selection. fold sel. cbn [nonnull bind].
  eexists. split; [reflexivity|].
  assert (Hs0 : sel_exists (removeAllRanges sel w) sel) by now apply sel_exists_set_sel.
  assert (Hd0 : document (removeAllRanges sel w) = document w) by apply document_set_sel.
  destruct (select_edges sel start element (removeAllRanges sel w) Hs0)
    as [_ [I2 [_ [I4 _]]]].
  { intros i Hi. rewrite Hd0. now apply Hin. }
  cbv zeta in *.
  assert (R0 : getAllRanges (removeAllRanges sel w) sel = []).
  { unfold getAllRanges, removeAllRanges. now rewrite (get_set_sel _ _ _ Hs). }
  rewrite R0 in I4. cbn [List.length skipn] in I4. rewrite Hd0 in I4, I2.
  split; [exact I2 | exact I4].
Qed.

Lemma selectionSelectEdge_collapsed_ranges_witness :
  exists w',
    selectionSelectEdge [1] None false b_selected = Ret w'
    /\ document w' = document b_selected
    /\ Forall2 (fun i r => exists n, getNode (document b_selected) i = Some n
                                     /\ r = collapsed_at (i, node_length n))
               [1] (getAllRanges w' Win).
Proof.
  destruct (selectionSelectEdge_collapsed_ranges [1] None false b_selected I)
    as [w' [H1 [H2 H3]]].
  - intros i [<-|[]]. discriminate.
  - exists w'. auto.
Defined.

Lemma compare_pos_refl : forall p, compare_pos p p = Eq.
Proof. induction p as [|x p IH]; simpl; [reflexivity|]. now rewrite Nat.compare_refl. Qed.

Lemma isBackwards_same_point d a o rs :
  isBackwards d (mkSelection (Some a) o (Some a) o rs) = false.
Proof.
  unfold isBackwards, comparePoints, boundary_pos. cbn.
  destruct (locate a d); [now rewrite compare_pos_refl | reflexivity].
Qed.

Lemma caret_selection e n start w :
  getNode (document w) e = Some n ->
  exists w',
    selectionSelectEdge [e] None start w = Ret w'
    /\ document w' = document w
    /\ windowSelection w'
       = (let o := if start then 0 else node_length n in
          mkSelection (Some e) o (Some e) o [collapsed_at (e, o)]).
Proof.
  intros G. unfold selectionSelectEdge. cbn [js_or rangy_getSelection nonnull bind fold_left].
  cbn [removeAllRanges set_sel document]. rewrite G. eexists. split; [reflexivity|].
  split; [reflexivity|]. pose proof (getNode_id _ _ _ G) as Hi.
  unfold addRange, selectNodeContents, collapse. cbn. rewrite Hi. now destruct start.
Qed.

(** After [selectionSelectStart(element)] the caret is at offset 0 of the
    element: [selectionAtStartOfElement] answers by the previous sibling
    alone (true when there is none or its inner markup is empty), and for
    an element node [selectionGetStartElement] and [selectionGetEndElement]
    both give that element. *)
Theorem selectionSelectStart_then_at_start :
  forall (e : NodeRef) (n : node) (w : World),
    getNode (document w) e = Some n ->
    exists w',
      selectionSelectStart [e] None w = Ret w'
      /\ selectionAtStartOfElement w'
         = Ret (absent_or_empty (previousSibling (document w) e))
      /\ (is_element n = true ->
          selectionGetStartElement w' = Ret (Some [e])
          /\ selectionGetEndElement w' = Ret (Some [e])).
Proof.
  intros e n w G. destruct (caret_selection e n true w G) as [w' [H1 [H2 H3]]].
  cbv zeta in H3. exists w'. split; [exact H1|].
  assert (D : deref w' e = Ret n) by (unfold deref; now rewrite H2, G).
  assert (B : isBackwards (document w') (windowSelection w') = false)
    by (rewrite H3; apply isBackwards_same_point).
  split.
  - rewrite (selectionAtStartOfElement_forwards w' e n B); [|now rewrite H3 | exact D].
    now rewrite H3, H2.
  - intros He. unfold selectionGetStartElement, selectionGetEndElement.
    cbn [rangy_getSelection nonnull bind get_sel]. rewrite B. rewrite H3.
    cbn [anchorNode focusNode nonnull bind]. rewrite D. cbn [bind].
    rewrite nodeType_text, He. split; reflexivity.
Qed.

Lemma selectionSelectStart_then_at_start_witness :
  exists w',
    selectionSelectStart [1] None b_selected = Ret w'
    /\ selectionAtStartOfElement w' = Ret true
    /\ selectionGetStartElement w' = Ret (Some [1]).
Proof.
  destruct (selectionSelectStart_then_at_start 1 (Elem 1 "p" [] [] [Text 2 "ABC"])
              b_selected eq_refl) as [w' [H1 [H2 H3]]].
  exists w'. split; [exact H1|]. split; [exact H2 | exact (proj1 (H3 eq_refl))].
Defined.

(** After [selectionSelectEnd(element)] the caret is at the end of the
    element, at the offset that is its number of child nodes (of characters
    for a text node).  [selectionAtEndOfElement] compares that offset with
    the number of characters of the text of the element: it answers true
    only when the two numbers agree and there is no next sibling, or one
    whose inner markup is empty. *)
Theorem selectionSelectEnd_then_at_end :
  forall (e : NodeRef) (n : node) (w : World),
    getNode (document w) e = Some n ->
    exists w',
      selectionSelectEnd [e] None w = Ret w'
      /\ selectionAtEndOfElement w'
         = Ret ((node_length n =? String.length (textContent n))
                && absent_or_empty (nextSibling (document w) e)).
Proof.
  intros e n w G. destruct (caret_selection e n false w G) as [w' [H1 [H2 H3]]].
  cbv zeta in H3. exists w'. split; [exact H1|].
  assert (D : deref w' e = Ret n) by (unfold deref; now rewrite H2, G).
  assert (B : isBackwards (document w') (windowSelection w') = false)
    by (rewrite H3; apply isBackwards_same_point).
  unfold selectionAtEndOfElement. cbn [rangy_getSelection nonnull bind get_sel].
  rewrite B, H3. cbn [focusNode anchorOffset nonnull bind]. rewrite D. cbn [bind].
  rewrite H2. destruct (node_length n =? String.length (textContent n)); cbn [negb andb];
    [now destruct (absent_or_empty _) | reflexivity].
Qed.

(** The caret at the end of [<p>ABC</p>] (one child, three characters) is
    not reported as at the end. *)
Lemma selectionSelectEnd_then_at_end_witness :
  exists w',
    selectionSelectEnd [1] None b_selected = Ret w'
    /\ selectionAtEndOfElement w' = Ret false.
Proof.
  destruct (selectionSelectEnd_then_at_end 1 (Elem 1 "p" [] [] [Text 2 "ABC"])
              b_selected eq_refl) as [w' [H1 H2]].
  exists w'. split; [exact H1 | exact H2].
Defined.

(** ** Start and end of the selection *)

Lemma compare_pos_antisym : forall a b, compare_pos a b = CompOpp (compare_pos b a).
Proof.
  induction a as [|x a IH]; intros [|y b]; simpl; try reflexivity.
  rewrite (Nat.compare_antisym y x). destruct (y ?= x); simpl; auto.
Qed.

Lemma compare_pos_Eq : forall a b, compare_pos a b = Eq -> a = b.
Proof.
  induction a as [|x a IH]; intros [|y b]; simpl; intros H; try discriminate; auto.
  destruct (x ?= y) eqn:E; try discriminate.
  apply Nat.compare_eq in E. subst. f_equal. now apply IH.
Qed.

(** [selectionGetStartElement] and [selectionGetEndElement] do not depend on
    the direction in which the selection was made: with anchor and focus
    exchanged they give the same elements. *)
Theorem start_and_end_element_whatever_the_direction :
  forall (w : World) (a f : NodeRef),
    anchorNode (windowSelection w) = Some a ->
    focusNode (windowSelection w) = Some f ->
    getNode (document w) a <> None ->
    getNode (document w) f <> None ->
    let w' := set_sel w Win (reversed (windowSelection w)) in
    selectionGetStartElement w' = selectionGetStartElement w
    /\ selectionGetEndElement w' = selectionGetEndElement w.
Proof.
  intros w a f Ha Hf Ga Gf w'.
  unfold selectionGetStartElement, selectionGetEndElement.
  cbn [rangy_getSelection nonnull bind get_sel]. subst w'.
  cbn [set_sel windowSelection document reversed anchorNode focusNode].
  unfold deref. cbn [document]. unfold isBackwards.
  cbn [reversed anchorNode focusNode anchorOffset focusOffset].
  rewrite Ha, Hf. cbn [nonnull bind].
  unfold comparePoints, boundary_pos. unfold getNode in Ga, Gf.
  destruct (locate a (document w)) as [pa|] eqn:La; [|congruence].
  destruct (locate f (document w)) as [pf|] eqn:Lf; [|congruence].
  set (ao := anchorOffset (windowSelection w)). set (fo := focusOffset (windowSelection w)).
  rewrite (compare_pos_antisym (pf ++ [fo]) (pa ++ [ao])).
  destruct (compare_pos (pa ++ [ao]) (pf ++ [fo])) eqn:C; cbn [CompOpp]; try (split; reflexivity).
  apply compare_pos_Eq in C. apply app_inj_tail in C. destruct C as [C _]. subst pf.
  destruct (locate_sound _ _ _ La) as [m [Hm Hi]].
  destruct (locate_sound _ _ _ Lf) as [m' [Hm' Hi']].
  assert (E : f = a) by congruence. rewrite E. split; reflexivity.
Qed.

Lemma start_and_end_element_whatever_the_direction_witness :
  selectionGetStartElement (set_sel abc_backwards Win (reversed (windowSelection abc_backwards)))
  = selectionGetStartElement abc_backwards.
Proof.
  apply (start_and_end_element_whatever_the_direction abc_backwards 2 2 eq_refl eq_refl);
    discriminate.
Defined.

(** ** The elements of the ranges *)

Lemma selectionGetElement_returns r w :
  commonAncestorContainer (document w) r <> None ->
  exists j, selectionGetElement (Some r) w = Ret j.
Proof.
  intros H. unfold selectionGetElement. cbn [bind].
  destruct (commonAncestorContainer (document w) r); [eexists; reflexivity | congruence].
Qed.

Lemma getElements_from sel w :
  (forall r, In r (getAllRanges w sel) -> commonAncestorContainer (document w) r <> None) ->
  forall n i acc fuel,
    List.length (getAllRanges w sel) - i <= n -> n < fuel ->
    exists es,
      eachRange_from (fun st : list (option NodeRef) * World => getAllRanges (snd st) sel)
        (fun range st =>
           let* e := selectionGetElement (Some range) (snd st) in
           Ret (fst st ++ [jq_first e], snd st))
        fuel i (acc, w)
      = Ret (acc ++ es, w)
      /\ Forall2 (fun r e => exists j, selectionGetElement (Some r) w = Ret j /\ e = jq_first j)
                 (skipn i (getAllRanges w sel)) es.
Proof.
  intros Hin. induction n as [|n IH]; intros i acc fuel Hn Hf;
    (destruct fuel as [|fuel]; [lia|]); cbn [eachRange_from snd fst].
  - assert (N : nth_error (getAllRanges w sel) i = None) by (apply nth_error_None; lia).
    rewrite N. exists []. rewrite app_nil_r. split; [reflexivity|].
    rewrite skipn_all2 by lia. constructor.
  - destruct (nth_error (getAllRanges w sel) i) as [r|] eqn:N.
    + destruct (selectionGetElement_returns r w (Hin r (nth_error_In _ _ N))) as [j Hj].
      rewrite Hj. cbn [bind].
      destruct (IH (S i) (acc ++ [jq_first j]) fuel) as [es [E1 E2]]; [lia | lia |].
      exists (jq_first j :: es). rewrite E1, <- app_assoc. split; [reflexivity|].
      rewrite (skipn_cons_nth _ _ _ N). constructor; [now exists j | exact E2].
    + exists []. rewrite app_nil_r. split; [reflexivity|].
      apply nth_error_None in N. rewrite skipn_all2 by lia. constructor.
Qed.

(** [selectionGetElements] does not change the page, and its result has one
    entry for each range of the selection, in the order of the ranges: the
    first element of what [selectionGetElement] gives for that range. *)
Theorem selectionGetElements_one_per_range :
  forall (selection : option SelRef) (w : World) (fuel : nat),
    (forall r, In r (getAllRanges w (selection_or_window selection)) ->
               commonAncestorContainer (document w) r <> None) ->
    List.length (getAllRanges w (selection_or_window selection)) < fuel ->
    exists es,
      selectionGetElements selection fuel w = Ret (es, w)
      /\ Forall2 (fun r e => exists j, selectionGetElement (Some r) w = Ret j /\ e = jq_first j)
                 (getAllRanges w (selection_or_window selection)) es.
Proof.
  intros selection w fuel Hin Hf.
  destruct (getElements_from _ w Hin (List.length (getAllRanges w (selection_or_window selection)))
              0 [] fuel) as [es [E1 E2]]; [lia | exact Hf |].
  exists es. split; [|exact E2].
  unfold selectionGetElements, selectionEachRange. cbn [snd].
  rewrite js_or_selection. exact E1.
Qed.

Lemma selectionGetElements_one_per_range_witness :
  exists es,
    selectionGetElements None 3 two_ranges = Ret (es, two_ranges)
    /\ Forall2 (fun r e => exists j, selectionGetElement (Some r) two_ranges = Ret j
                                     /\ e = jq_first j)
               [mkRange 2 0 2 1; mkRange 4 0 4 1] es.
Proof.
  apply (selectionGetElements_one_per_range None two_ranges 3).
  - intros r [<-|[<-|[]]]; discriminate.
  - simpl. lia.
Defined.

(** ** Looking for elements around the selection *)

Lemma descendants_node_at : forall n m, In m (descendants n) -> exists p, node_at p n = Some m.
Proof.
  induction n as [i s | i t c a ks IH] using node_induction; intros m H; simpl in H.
  - contradiction.
  - apply in_flat_map in H. destruct H as [k [Hk Hm]].
    apply In_nth_error in Hk. destruct Hk as [j Hj].
    rewrite Forall_forall in IH.
    destruct Hm as [<-|Hm].
    + exists [j]. simpl. now rewrite Hj.
    + destruct (IH k (nth_error_In _ _ Hj) m Hm) as [p Hp].
      exists (j :: p). simpl. now rewrite Hj.
Qed.

Lemma push_unless_limit_keeps (P : NodeRef -> Prop) limitElement : forall found result,
  Forall (fun x => ~ In x limitElement /\ P x) result ->
  Forall P found ->
  Forall (fun x => ~ In x limitElement /\ P x) (push_unless_limit limitElement result found).
Proof.
  unfold push_unless_limit.
  induction found as [|x found IH]; intros result Hr Hf; cbn [fold_left]; [exact Hr|].
  inversion Hf; subst. apply IH; [|assumption].
  destruct (jq_is limitElement [x]) eqn:E; [exact Hr|].
  apply Forall_app. split; [exact Hr|]. constructor; [|constructor].
  split; [|assumption]. intros Hx. unfold jq_is in E.
  assert (T : existsb (fun i => jq_mem i [x]) limitElement = true).
  { apply existsb_exists. exists x. split; [exact Hx|]. rewrite jq_mem_single.
    apply Nat.eqb_refl. }
  congruence.
Qed.

Lemma find_scan_keeps d sel limitElement endNode :
  NoDup (ids d) ->
  let P := fun x => exists n, getNode d x = Some n /\ matches sel n = true in
  forall steps startNode result result',
    Forall (fun x => ~ In x limitElement /\ P x) result ->
    find_scan steps d sel limitElement endNode startNode result = Ret result' ->
    Forall (fun x => ~ In x limitElement /\ P x) result'.
Proof.
  intros ND P.
  assert (F1 : forall s, Forall P (jq_filter d sel [s])).
  { intros s. unfold jq_filter. cbn [flat_map]. rewrite app_nil_r.
    destruct (getNode d s) as [n|] eqn:G; [|constructor].
    destruct (matches sel n) eqn:M; [|constructor].
    constructor; [|constructor]. now exists n. }
  assert (F2 : forall s, Forall P (jq_parentsUntil d s limitElement sel)).
  { intros s. unfold jq_parentsUntil. apply Forall_forall. intros x Hx.
    apply in_map_iff in Hx. destruct Hx as [m [<- Hm]].
    apply filter_In in Hm. destruct Hm as [Hm M].
    apply take_until_In in Hm. unfold elements_only in Hm. apply filter_In in Hm.
    destruct Hm as [Hm _]. destruct (ancestors_node_at _ _ _ Hm) as [p Hp].
    exists m. split; [now apply (getNode_unique d p) | exact M]. }
  assert (F3 : forall s, Forall P (jq_find d s sel)).
  { intros s. unfold jq_find. destruct (getNode d s) as [n|] eqn:G; [|constructor].
    apply Forall_forall. intros x Hx.
    apply in_map_iff in Hx. destruct Hx as [m [<- Hm]].
    apply filter_In in Hm. destruct Hm as [Hm M].
    destruct (descendants_node_at _ _ Hm) as [p Hp].
    unfold getNode in G. destruct (locate s d) as [ps|] eqn:L; [|discriminate].
    exists m. split; [|exact M]. apply (getNode_unique d (ps ++ p)); [exact ND|].
    now rewrite node_at_app, G. }
  induction steps as [|steps IH]; intros startNode result result' Hr H;
    cbn [find_scan] in H;
    set (r1 := push_unless_limit limitElement result (jq_filter d sel [startNode])) in H;
    set (r2 := if negb (jq_is limitElement [startNode])
               then push_unless_limit limitElement r1
                      (jq_parentsUntil d startNode limitElement sel)
               else r1) in H;
    set (r3 := push_unless_limit limitElement r2 (jq_find d startNode sel)) in H;
    assert (H3 : Forall (fun x => ~ In x limitElement /\ P x) r3)
      by (apply push_unless_limit_keeps; [|apply F3];
          unfold r2; destruct (negb (jq_is limitElement [startNode]));
          [apply push_unless_limit_keeps; [|apply F2]|];
          apply push_unless_limit_keeps; auto);
    destruct (jq_is [endNode] [startNode]); try (inversion H; subst; exact H3);
    destruct (jq_next d startNode) as [|next rest]; try (inversion H; subst; exact H3);
    destruct (List.length (jq_has d (jq_prevAll d next) endNode) =? 0);
    try (inversion H; subst; exact H3); try discriminate.
  eapply IH; eauto.
Qed.

(** [selectionFindWrappingAndInnerElements] does not change the page, it
    never returns the limit element, and everything it returns is an
    element of the document that matches the selector. *)
Theorem selectionFindWrappingAndInnerElements_finds_matches :
  forall (sel : selector) (limitElement : jq) (fuel : nat) (w w' : World) (result : jq),
    NoDup (ids (document w)) ->
    selectionFindWrappingAndInnerElements sel limitElement fuel w = Ret (result, w') ->
    w' = w
    /\ Forall (fun x => ~ In x limitElement
                        /\ exists n, getNode (document w) x = Some n /\ matches sel n = true)
              result.
Proof.
  intros sel limitElement fuel w w' result ND H.
  unfold selectionFindWrappingAndInnerElements, selectionEachRange in H.
  cbn [snd js_or rangy_getSelection] in H.
  apply (eachRange_from_invariant _ _
           (fun st : jq * World =>
              snd st = w
              /\ Forall (fun x => ~ In x limitElement
                                  /\ exists n, getNode (document w) x = Some n
                                               /\ matches sel n = true) (fst st)))
    in H.
  - exact H.
  - intros r [res v] [res' v'] [Hv Hres] Hcb. cbn [fst snd] in *. subst v.
    destruct (deref w (startContainer r)) as [s| |]; try discriminate. cbn [bind] in Hcb.
    destruct (first_non_text _) as [startNode| |]; try discriminate. cbn [bind] in Hcb.
    destruct (deref w (endContainer r)) as [e| |]; try discriminate. cbn [bind] in Hcb.
    destruct (first_non_text _) as [endNode| |]; try discriminate. cbn [bind] in Hcb.
    destruct (find_scan _ _ _ _ _ _ _) as [found| |] eqn:F; try discriminate.
    cbn [bind] in Hcb. inversion Hcb; subst. split; [reflexivity|].
    eapply find_scan_keeps; eauto.
  - cbn [fst snd]. split; [reflexivity | constructor].
Qed.

Lemma selectionFindWrappingAndInnerElements_finds_matches_witness :
  selectionFindWrappingAndInnerElements ["b"] [1] 2 hello_world = Ret ([3], hello_world)
  /\ Forall (fun x => ~ In x [1]
                      /\ exists n, getNode (document hello_world) x = Some n
                                   /\ matches ["b"] n = true) [3].
Proof.
  split; [vm_compute; reflexivity|].
  apply (selectionFindWrappingAndInnerElements_finds_matches ["b"] [1] 2 hello_world
           hello_world [3]); [distinct_ids | vm_compute; reflexivity].
Defined.

(** ** Constraining the selection to an element *)

Lemma constrain_all_kept e sel : forall (l : list Range) (w : World),
  (forall r, In r l -> commonAncestorContainer (document w) r <> None
                       /\ range_kept (document w) e r = true) ->
  jq_each (constrain_range (Some e) sel) l w = Ret w.
Proof.
  induction l as [|r l IH]; intros w H; cbn [jq_each]; [reflexivity|].
  destruct (H r (or_introl eq_refl)) as [H1 H2].
  rewrite (constrain_range_spec e sel r w H1), H2. cbn [bind].
  apply IH. intros x Hx. apply H. now right.
Qed.

(** Constraining a selection that has been constrained to the same element
    changes nothing any more. *)
Theorem selectionConstrain_twice :
  forall (e : NodeRef) (rest : jq) (selection : option SelRef) (w w1 : World),
    (forall r, In r (getAllRanges w (selection_or_window selection)) ->
               commonAncestorContainer (document w) r <> None) ->
    selectionConstrain (e :: rest) selection w = Ret w1 ->
    selectionConstrain (e :: rest) selection w1 = Ret w1.
Proof.
  intros e rest selection w w1 Hin H. unfold selectionConstrain in *.
  rewrite js_or_selection in *. cbn [jq_first hd_error] in *.
  set (sel := selection_or_window selection) in *.
  destruct (constrain_each e sel (getAllRanges w sel) w Hin) as [w' [H1 [H2 H3]]].
  rewrite H1 in H. inversion H; subst w'. clear H.
  apply constrain_all_kept. intros r Hr. rewrite H3 in Hr. apply filter_In in Hr.
  destruct Hr as [Hr Hk]. rewrite H2. split; [now apply Hin|].
  rewrite forallb_forall in Hk. specialize (Hk r Hr).
  assert (E : range_eqb r r = true) by now apply range_eqb_eq.
  rewrite E in Hk. cbn [negb] in Hk. now rewrite orb_false_r in Hk.
Qed.

Lemma selectionConstrain_twice_witness :
  exists w1,
    selectionConstrain [1] None in_and_out_selected = Ret w1
    /\ selectionConstrain [1] None w1 = Ret w1.
Proof.
  eexists. split; [vm_compute; reflexivity|].
  apply (selectionConstrain_twice 1 [] None in_and_out_selected);
    [|vm_compute; reflexivity].
  intros r [<-|[<-|[]]]; discriminate.
Defined.

Lemma is_prefix_app : forall p q, is_prefix p (p ++ q) = true.
Proof.
  induction p as [|x p IH]; intros q; simpl; [reflexivity|].
  rewrite Nat.eqb_refl. apply IH.
Qed.

Lemma is_prefix_length : forall p q, is_prefix p q = true -> List.length p <= List.length q.
Proof.
  induction p as [|x p IH]; intros [|y q] H; simpl in *; try lia; try discriminate.
  apply andb_prop in H. destruct H as [_ H]. apply IH in H. lia.
Qed.

Lemma select_contents sel : forall (l : list node) (w : World),
  sel_exists w sel ->
  let w' := fold_left (fun w this => addRange sel (selectNodeContents this) w) l w in
  sel_exists w' sel /\ document w' = document w
  /\ getAllRanges w' sel = getAllRanges w sel ++ map selectNodeContents l.
Proof.
  induction l as [|c l IH]; intros w Hs; cbn [fold_left map].
  - now rewrite app_nil_r.
  - destruct (IH (addRange sel (selectNodeContents c) w)) as [I1 [I2 I3]];
      [now apply sel_exists_set_sel|].
    cbv zeta in *. split; [exact I1|]. split; [rewrite I2; apply document_set_sel|].
    now rewrite I3, (addRange_ranges w sel _ Hs), <- app_assoc.
Qed.

Lemma child_range_kept d e n pe k c :
  NoDup (ids d) -> locate e d = Some pe -> node_at pe d = Some n ->
  nth_error (kids n) k = Some c ->
  commonAncestorContainer d (selectNodeContents c) <> None
  /\ range_kept d e (selectNodeContents c) = true.
Proof.
  intros ND Le Hn Hc.
  assert (Hat : node_at (pe ++ [k]) d = Some c).
  { rewrite node_at_app, Hn. simpl. now rewrite Hc. }
  pose proof (locate_unique _ _ _ ND Hat) as Lc.
  assert (C : commonAncestorContainer d (selectNodeContents c) = Some c).
  { unfold commonAncestorContainer, selectNodeContents. cbn [startContainer endContainer].
    now rewrite Lc, common_prefix_refl. }
  split; [congruence|]. unfold range_kept. rewrite C.
  destruct (is_element c) eqn:Ec.
  - apply orb_true_iff. right. unfold strictly_contains. rewrite Le, Lc, is_prefix_app.
    rewrite length_app. simpl. apply Nat.ltb_lt. lia.
  - unfold parentNode, parent_path. rewrite Lc.
    destruct (pe ++ [k]) eqn:E; [now apply snoc_not_nil in E|]. rewrite <- E.
    rewrite removelast_last, Hn. cbn [option_map].
    destruct (locate_sound _ _ _ Le) as [m [Hm Hi]].
    assert (m = n) by congruence. subst m. rewrite Hi, Nat.eqb_refl. reflexivity.
Qed.

(** [selectionSelectInner(element)] selects each child node of the element
    by a range of its own, around the contents of that child.  All these
    ranges lie within the element: constraining the selection to the
    element afterwards keeps every one of them. *)
Theorem selectionSelectInner_stays_inside :
  forall (e : NodeRef) (n : node) (w : World),
    NoDup (ids (document w)) ->
    getNode (document w) e = Some n ->
    exists w',
      selectionSelectInner [e] None w = Ret w'
      /\ document w' = document w
      /\ getAllRanges w' Win = map selectNodeContents (kids n)
      /\ selectionConstrain [e] None w' = Ret w'.
Proof.
  intros e n w ND G. unfold selectionSelectInner.
  cbn [js_or rangy_getSelection nonnull bind flat_map].
  cbn [removeAllRanges set_sel document]. rewrite G, app_nil_r.
  eexists. split; [reflexivity|].
  set (w0 := mkWorld (document w) (fresh w) emptySelection (frameSelections w)
                     (savedSelection w)).
  destruct (select_contents Win (kids n) w0 I) as [_ [I2 I3]]. cbv zeta in *.
  cbn [document] in I2. split; [exact I2|]. split; [exact I3|].
  unfold selectionConstrain. cbn [js_or rangy_getSelection jq_first hd_error].
  apply constrain_all_kept. rewrite I3, I2. intros r Hr. cbn [app] in Hr.
  apply in_map_iff in Hr. destruct Hr as [c [<- Hc]].
  apply In_nth_error in Hc. destruct Hc as [k Hk].
  unfold getNode in G. destruct (locate e (document w)) as [pe|] eqn:Le; [|discriminate].
  exact (child_range_kept (document w) e n pe k c ND Le G Hk).
Qed.

Lemma selectionSelectInner_stays_inside_witness :
  exists w',
    selectionSelectInner [1] None three_blocks = Ret w'
    /\ document w' = document three_blocks
    /\ getAllRanges w' Win = map selectNodeContents (kids three_blocks_div)
    /\ selectionConstrain [1] None w' = Ret w'.
Proof.
  apply (selectionSelectInner_stays_inside 1 three_blocks_div three_blocks);
    [distinct_ids | reflexivity].
Defined.

Lemma point_before_child d i q k lim :
  locate i d = Some (q ++ [k]) -> node_at q d = Some lim ->
  point_before d i = Some (node_id lim, k).
Proof.
  intros L Hq. unfold point_before, parentNode, parent_path, child_index.
  rewrite L. destruct (q ++ [k]) eqn:E; [now apply snoc_not_nil in E|]. rewrite <- E.
  now rewrite removelast_last, last_last, Hq.
Qed.

(** [selectionSelectOuter(element)] selects the element by a range in its
    parent, from just before the element to just after it.  That range does
    not lie within the element: constraining the selection to the element
    afterwards removes it and leaves the selection without a range. *)
Theorem selectionSelectOuter_is_outside :
  forall (e : NodeRef) (q : list nat) (k : nat) (w : World),
    NoDup (ids (document w)) ->
    locate e (document w) = Some (q ++ [k]) ->
    exists par w' w'',
      node_at q (document w) = Some par
      /\ selectionSelectOuter [e] None w = Ret w'
      /\ document w' = document w
      /\ getAllRanges w' Win = [mkRange (node_id par) k (node_id par) (S k)]
      /\ selectionConstrain [e] None w' = Ret w''
      /\ document w'' = document w
      /\ getAllRanges w'' Win = [].
Proof.
  intros e q k w ND Le.
  destruct (locate_sound _ _ _ Le) as [n [Hn Hi]].
  rewrite node_at_app in Hn.
  destruct (node_at q (document w)) as [par|] eqn:Hq; [|discriminate].
  set (r := mkRange (node_id par) k (node_id par) (S k)).
  exists par, (addRange Win r (removeAllRanges Win w)).
  assert (S1 : selectionSelectOuter [e] None w = Ret (addRange Win r (removeAllRanges Win w))).
  { unfold selectionSelectOuter. cbn [js_or rangy_getSelection nonnull bind jq_each].
    unfold selectNode. cbn [removeAllRanges set_sel document].
    rewrite (point_before_child _ _ _ _ _ Le Hq), (point_after_child _ _ _ _ _ Le Hq).
    reflexivity. }
  set (w' := addRange Win r (removeAllRanges Win w)) in *.
  assert (Lp : locate (node_id par) (document w) = Some q) by now apply locate_unique.
  assert (C : commonAncestorContainer (document w) r = Some par).
  { unfold commonAncestorContainer, r. cbn [startContainer endContainer].
    now rewrite Lp, common_prefix_refl. }
  assert (Ep : is_element par = true).
  { simpl in Hn. destruct par; [destruct k; discriminate | reflexivity]. }
  assert (K : range_kept (document w) e r = false).
  { unfold range_kept. rewrite C, Ep. apply orb_false_iff. split.
    - apply Nat.eqb_neq. intros ->. rewrite Lp in Le. inversion Le as [U].
      apply (f_equal (@List.length nat)) in U. rewrite length_app in U. simpl in U. lia.
    - unfold strictly_contains. rewrite Le, Lp.
      destruct (is_prefix (q ++ [k]) q) eqn:P; [|reflexivity].
      apply is_prefix_length in P. rewrite length_app in P. simpl in P. lia. }
  exists (removeRange Win r w').
  split; [reflexivity|]. split; [exact S1|]. split; [reflexivity|].
  split; [reflexivity|]. split.
  - unfold selectionConstrain. cbn [js_or rangy_getSelection jq_first hd_error].
    change (getAllRanges w' Win) with [r]. cbn [jq_each].
    rewrite (constrain_range_spec e Win r w') by (change (document w') with (document w); congruence).
    change (document w') with (document w). rewrite K. reflexivity.
  - split; [reflexivity|]. rewrite ranges_removeRange. change (getAllRanges w' Win) with [r].
    cbn [filter]. assert (E : range_eqb r r = true) by now apply range_eqb_eq.
    now rewrite E.
Qed.

Lemma selectionSelectOuter_is_outside_witness :
  exists par w' w'',
    node_at [] (document b_selected) = Some par
    /\ selectionSelectOuter [1] None b_selected = Ret w'
    /\ document w' = document b_selected
    /\ getAllRanges w' Win = [mkRange (node_id par) 0 (node_id par) 1]
    /\ selectionConstrain [1] None w' = Ret w''
    /\ document w'' = document b_selected
    /\ getAllRanges w'' Win = [].
Proof.
  apply (selectionSelectOuter_is_outside 1 [] 0 b_selected); [distinct_ids | reflexivity].
Defined.

(** ** The caret at the start of an element, in either direction *)

Lemma isBackwards_reversed d s a f :
  anchorNode s = Some a -> focusNode s = Some f ->
  getNode d a <> None -> getNode d f <> None ->
  (isBackwards d s = true -> isBackwards d (reversed s) = false)
  /\ (isBackwards d s = false ->
      isBackwards d (reversed s) = true \/ (a = f /\ anchorOffset s = focusOffset s)).
Proof.
  intros Ha Hf Ga Gf. unfold isBackwards.
  cbn [reversed anchorNode focusNode anchorOffset focusOffset]. rewrite Ha, Hf.
  unfold comparePoints, boundary_pos. unfold getNode in Ga, Gf.
  destruct (locate a d) as [pa|] eqn:La; [|congruence].
  destruct (locate f d) as [pf|] eqn:Lf; [|congruence].
  rewrite (compare_pos_antisym (pf ++ [focusOffset s]) (pa ++ [anchorOffset s])).
  destruct (compare_pos (pa ++ [anchorOffset s]) (pf ++ [focusOffset s])) eqn:C;
    cbn [CompOpp]; split; intros H; try discriminate; auto.
  right. apply compare_pos_Eq in C. apply app_inj_tail in C. destruct C as [C1 C2].
  subst pf. destruct (locate_sound _ _ _ La) as [m [Hm Hi]].
  destruct (locate_sound _ _ _ Lf) as [m' [Hm' Hi']]. split; congruence.
Qed.

(** [selectionAtStartOfElement] looks at the end of the selection that comes
    first in the document: it answers true exactly when the offset there is
    0 and the node there has no previous sibling, or one whose inner markup
    is empty.  (The condition [isBackwards() ? focusOffset : anchorOffset
    !== 0] tests the offset against 0 on both sides, a number being true
    when it is not 0.)  The answer is the same when the selection is made
    in the other direction. *)
Theorem selectionAtStartOfElement_first_end :
  forall (w : World) (a f : NodeRef),
    anchorNode (windowSelection w) = Some a ->
    focusNode (windowSelection w) = Some f ->
    getNode (document w) a <> None ->
    getNode (document w) f <> None ->
    selectionAtStartOfElement w
    = Ret (if isBackwards (document w) (windowSelection w)
           then (focusOffset (windowSelection w) =? 0)
                && absent_or_empty (previousSibling (document w) f)
           else (anchorOffset (windowSelection w) =? 0)
                && absent_or_empty (previousSibling (document w) a))
    /\ selectionAtStartOfElement (set_sel w Win (reversed (windowSelection w)))
       = selectionAtStartOfElement w.
Proof.
  intros w a f Ha Hf Ga Gf.
  assert (Da : exists na, deref w a = Ret na)
    by (unfold deref; destruct (getNode (document w) a); [eexists; reflexivity | congruence]).
  assert (Df : exists nf, deref w f = Ret nf)
    by (unfold deref; destruct (getNode (document w) f); [eexists; reflexivity | congruence]).
  destruct Da as [na Da]. destruct Df as [nf Df].
  assert (F : forall v, document v = document w -> forall x y,
             anchorNode (windowSelection v) = Some x ->
             focusNode (windowSelection v) = Some y ->
             (x = a /\ y = f \/ x = f /\ y = a) ->
             selectionAtStartOfElement v
             = Ret (if isBackwards (document v) (windowSelection v)
                    then (focusOffset (windowSelection v) =? 0)
                         && absent_or_empty (previousSibling (document v) y)
                    else (anchorOffset (windowSelection v) =? 0)
                         && absent_or_empty (previousSibling (document v) x))).
  { intros v Hd x y Hx Hy Hxy.
    assert (Dx : exists nx, deref v x = Ret nx)
      by (unfold deref; rewrite Hd; destruct Hxy as [[-> _]|[-> _]]; eauto).
    assert (Dy : exists ny, deref v y = Ret ny)
      by (unfold deref; rewrite Hd; destruct Hxy as [[_ ->]|[_ ->]]; eauto).
    destruct Dx as [nx Dx]. destruct Dy as [ny Dy].
    destruct (isBackwards (document v) (windowSelection v)) eqn:B.
    - exact (selectionAtStartOfElement_backwards v y ny B Hy Dy).
    - exact (selectionAtStartOfElement_forwards v x nx B Hx Dx). }
  split; [apply (F w eq_refl a f Ha Hf); auto|].
  rewrite (F w eq_refl a f Ha Hf) by auto.
  rewrite (F (set_sel w Win (reversed (windowSelection w))) eq_refl f a Hf Ha) by auto.
  cbn [set_sel document windowSelection].
  cbn [reversed anchorOffset focusOffset].
  destruct (isBackwards_reversed (document w) (windowSelection w) a f Ha Hf Ga Gf) as [B1 B2].
  destruct (isBackwards (document w) (windowSelection w)) eqn:B.
  - rewrite (B1 eq_refl). reflexivity.
  - destruct (B2 eq_refl) as [E | [E1 E2]].
    + rewrite E. reflexivity.
    + rewrite E1, E2.
      destruct (isBackwards (document w) (reversed (windowSelection w))); reflexivity.
Qed.

Lemma selectionAtStartOfElement_first_end_witness :
  selectionAtStartOfElement (set_sel abc_backwards Win (reversed (windowSelection abc_backwards)))
  = selectionAtStartOfElement abc_backwards.
Proof.
  apply (selectionAtStartOfElement_first_end abc_backwards 2 2 eq_refl eq_refl);
    discriminate.
Defined.

(** ** The markup of the selection *)

Lemma clone_ranges_collapsed : forall (rs : list Range) (w : World),
  Forall (fun r => collapsed r = true) rs -> clone_ranges rs w = Ret ([], w).
Proof.
  induction rs as [|r rs IH]; intros w H; cbn [clone_ranges]; [reflexivity|].
  inversion H as [|r' rs' Hr Hrs]; subst. unfold cloneContents. rewrite Hr. cbn [bind].
  now rewrite (IH w Hrs).
Qed.

Lemma collapsed_collapsed_at b : collapsed (collapsed_at b) = true.
Proof. unfold collapsed, collapsed_at. cbn. now rewrite !Nat.eqb_refl. Qed.

Lemma select_edges_collapsed start : forall (element : jq) (w : World),
  Forall (fun r => collapsed r = true) (getAllRanges w Win) ->
  Forall (fun r => collapsed r = true)
    (getAllRanges
       (fold_left
          (fun w i =>
             match getNode (document w) i with
             | Some n => addRange Win (collapse (selectNodeContents n) start) w
             | None => w
             end) element w) Win).
Proof.
  induction element as [|i element IH]; intros w H; cbn [fold_left]; [exact H|].
  apply IH. destruct (getNode (document w) i) as [n|]; [|exact H].
  rewrite (addRange_ranges w Win _ I). apply Forall_app. split; [exact H|].
  constructor; [|constructor]. unfold collapse. destruct start; apply collapsed_collapsed_at.
Qed.

(** A selection whose ranges are all collapsed has no markup:
    [selectionGetHtml] returns the empty string and [selectionIsEmpty]
    returns true, and the page is not changed.  This is the case after
    [selectionSelectEdge], [selectionSelectStart] and [selectionSelectEnd],
    whatever the elements. *)
Theorem collapsed_selection_is_empty :
  (forall (selection : option SelRef) (w : World),
      Forall (fun r => collapsed r = true) (getAllRanges w (selection_or_window selection)) ->
      selectionGetHtml selection w = Ret ([], w)
      /\ (selection = None -> selectionIsEmpty w = Ret (true, w)))
  /\ (forall (element : jq) (start : bool) (w w' : World),
        selectionSelectEdge element None start w = Ret w' ->
        selectionIsEmpty w' = Ret (true, w')).
Proof.
  assert (G : forall selection w,
             Forall (fun r => collapsed r = true)
                    (getAllRanges w (selection_or_window selection)) ->
             selectionGetHtml selection w = Ret ([], w)
             /\ (selection = None -> selectionIsEmpty w = Ret (true, w))).
  { intros selection w H. split.
    - unfold selectionGetHtml, toHtml. rewrite js_or_selection. cbn [nonnull bind].
      now rewrite (clone_ranges_collapsed _ w H).
    - intros ->. unfold selectionIsEmpty, toHtml. cbn [rangy_getSelection nonnull bind].
      cbn [selection_or_window] in H. now rewrite (clone_ranges_collapsed _ w H). }
  split; [exact G|].
  intros element start w w' H. apply (G None); [|reflexivity].
  unfold selectionSelectEdge in H. cbn [js_or rangy_getSelection nonnull bind] in H.
  inversion H; subst w'. apply select_edges_collapsed. constructor.
Qed.

Lemma collapsed_selection_is_empty_witness :
  exists w',
    selectionSelectEdge [1] None true b_selected = Ret w'
    /\ selectionIsEmpty w' = Ret (true, w').
Proof.
  eexists. split; [vm_compute; reflexivity|].
  apply (proj2 collapsed_selection_is_empty [1] true b_selected). vm_compute. reflexivity.
Defined.

(** ** Clearing the formatting keeps the text *)

(** The cut made by [selectionClearFormatting] once the selected content is
    taken out, in the form used below. *)
Lemma clear_formatting_cut :
  forall limitNode selection w sel r content range1 w1 q k rest,
    js_or selection (rangy_getSelection w) = Some sel ->
    getRangeAt w sel 0 = Ret r ->
    extractContents r w = Ret (content, range1, w1) ->
    fragmentToHtml content <> [] ->
    NoDup (ids (document w1)) ->
    locate (match limitNode with Some l => l | None => node_id (document w) end)
           (document w1) = Some q ->
    locate (startContainer range1) (document w1) = Some (q ++ k :: rest) ->
    exists lim blk left right f w',
      node_at q (document w1) = Some lim
      /\ nth_error (kids lim) k = Some blk
      /\ split_node true (rest ++ [startOffset range1]) blk (fresh w1) = (left, right, f)
      /\ node_id left = node_id blk /\ same_element left blk /\ same_element right blk
      /\ (textContent left ++ textContent right)%string = textContent blk
      /\ selectionClearFormatting limitNode selection w = Ret w'
      /\ document w'
         = with_children q
             (firstn k (kids lim)
              ++ left :: Text f (html_text (fragmentToHtml content)) :: right
                 :: skipn (S k) (kids lim))
             (document w1)
      /\ fresh w' = S f.
Proof.
  intros limitNode selection w sel r content range1 w1 q k rest
         Hsel Hget Hext Hne ND Llim Lc.
  set (limit := match limitNode with Some l => l | None => node_id (document w) end) in *.
  destruct (extractContents_collapsed _ _ _ _ _ Hext Hne) as [c [o ->]].
  cbn [collapsed_at startContainer startOffset fst snd] in Lc |- *.
  set (d1 := document w1) in *.
  destruct (locate_sound _ _ _ Llim) as [lim [Hlim Hlid]].
  destruct (locate_sound _ _ _ Lc) as [cn [Hcn Hcid]].
  assert (Hblk : exists blk, node_at (q ++ [k]) d1 = Some blk).
  { change (q ++ k :: rest) with (q ++ [k] ++ rest) in Hcn.
    rewrite app_assoc, node_at_app in Hcn.
    destruct (node_at (q ++ [k]) d1) as [blk|]; [now exists blk | discriminate]. }
  destruct Hblk as [blk Hblk].
  assert (Nblk : nth_error (kids lim) k = Some blk).
  { rewrite node_at_app, Hlim in Hblk. simpl in Hblk.
    destruct (nth_error (kids lim) k); [congruence | discriminate]. }
  assert (Helim : is_element lim = true).
  { destruct lim; [destruct k; discriminate | reflexivity]. }
  destruct (split_node true (rest ++ [o]) blk (fresh w1)) as [[left right] f] eqn:Sp.
  destruct (split_node_spec _ _ _ _ _ _ Sp) as [Hlid' [Hsl [Hsr Htxt]]].
  pose proof (locate_unique _ _ _ ND Hblk) as Lblk.
  exists lim, blk, left, right, f.
  set (ks := kids lim) in *. set (pre := firstn k ks).
  assert (Hpre : List.length pre = k) by exact (firstn_length_nth _ _ _ Nblk).
  assert (Hcount : (0 <? rangeCount (get_sel w sel)) = true).
  { unfold getRangeAt in Hget. unfold rangeCount.
    destruct (ranges (get_sel w sel)); [discriminate | reflexivity]. }
  assert (Hcl : (c =? limit) = false).
  { apply Nat.eqb_neq. intros ->. rewrite Llim in Lc. inversion Lc as [U].
    apply (f_equal (@List.length nat)) in U. rewrite length_app in U. simpl in U. lia. }
  unfold selectionClearFormatting. cbv zeta. fold limit.
  rewrite Hsel. cbn [nonnull bind]. rewrite Hcount, Hget. cbn [bind].
  rewrite Hext. cbn [bind].
  destruct (fragmentToHtml content) as [|m h] eqn:HF; [contradiction|]. rewrite <- HF.
  cbn [bind]. fold d1.
  unfold commonAncestorContainer. cbn [collapsed_at startContainer endContainer fst snd].
  rewrite Lc, common_prefix_refl, Hcn.
  unfold ancestors. rewrite Hcid, Lc.
  rewrite (child_of_limit_chain d1 limit q k rest cn ND Llim Hcn), Hblk.
  unfold setEndAfter. fold d1. rewrite (point_after_child d1 _ q k lim Lblk Hlim).
  cbn [bind].
  set (X2 := pre ++ left :: skipn (S k) ks).
  assert (Hx : extractContents (setEnd d1 (collapsed_at (c, o)) (node_id lim, S k)) w1
               = Ret ([right], collapsed_at (limit, S k),
                      set_fresh (set_document w1 (with_children q X2 d1)) f)).
  { unfold setEnd, point_leb, comparePoints, boundary_pos.
    cbn [collapsed_at startContainer startOffset endContainer endOffset fst snd].
    rewrite Lc, Hlid, Llim. rewrite <- app_assoc, compare_pos_app.
    cbn [app compare_pos].
    assert (Hk : (k ?= S k) = Lt) by (apply Nat.compare_lt_iff; lia). rewrite Hk.
    unfold extractContents, collapsed, boundary_pos.
    cbn [startContainer startOffset endContainer endOffset fst snd].
    rewrite Hcl. cbn [andb]. fold d1. rewrite Lc, Llim.
    rewrite <- app_assoc.
    rewrite (extract_in_prefix ((k :: rest) ++ [o]) [S k] ltac:(discriminate) ltac:(discriminate)
               q d1 lim (fresh w1) Hlim).
    change ((k :: rest) ++ [o]) with (k :: (rest ++ [o])).
    rewrite (extract_in_start_inside k (rest ++ [o]) (S k) lim blk (fresh w1)
               (snoc_not_nil _ _) Nblk).
    rewrite Sp.
    assert (M : modify_at q (fun _ : node => set_kids
                   (firstn k (kids lim) ++ left :: skipn (S k) (kids lim)) lim) d1
                = with_children q X2 d1).
    { unfold with_children. apply modify_at_ext. intros x Hn. rewrite Hlim in Hn.
      inversion Hn; subst x. reflexivity. }
    rewrite M. unfold boundary_of_pos.
    destruct (q ++ [S k]) eqn:E; [now apply snoc_not_nil in E|]. rewrite <- E.
    rewrite removelast_last, last_last.
    rewrite (node_at_with_children q X2 d1 lim Hlim), node_id_set_kids, Hlid.
    now rewrite Nat.sub_diag. }
  rewrite Hx. cbn [bind]. clear Hx.
  set (d2 := with_children q X2 d1).
  set (w2 := set_fresh (set_document w1 d2) f).
  assert (Llim2 : locate limit (document w2) = Some q)
    by exact (locate_with_children limit q X2 d1 Llim).
  assert (Hlim2 : node_at q (document w2) = Some (set_kids X2 lim))
    by exact (node_at_with_children q X2 d1 lim Hlim).
  assert (Lblk2 : locate (node_id blk) (document w2) = Some (q ++ [k])).
  { apply (locate_child_with_children (node_id blk) k left q d1 lim X2 Lblk Hlim).
    - unfold X2. rewrite (firstn_snoc k pre _ Hpre). reflexivity.
    - exact (nth_error_snoc k pre _ _ Hpre).
    - exact Hlid'. }
  rewrite (collapseAfter_child w2 _ q k _ Lblk2 Hlim2). cbn [bind].
  rewrite node_id_set_kids, Hlid.
  destruct (insertNode_into w2 limit q (set_kids X2 lim) (S k) [right] Llim2 Hlim2)
    as [r3 Hins].
  { now destruct lim. }
  rewrite Hins. cbn [bind]. clear Hins.
  assert (Kl : forall X, kids (set_kids X lim) = X).
  { intros X. rewrite kids_set_kids. now rewrite Helim. }
  set (X3 := pre ++ left :: right :: skipn (S k) ks).
  assert (E3 : with_children q (firstn (S k) (kids (set_kids X2 lim)) ++
                 [right] ++ skipn (S k) (kids (set_kids X2 lim))) (document w2)
               = with_children q X3 d1).
  { rewrite Kl. change (document w2) with (with_children q X2 d1).
    rewrite with_children_again. f_equal. unfold X2, X3.
    rewrite (firstn_S_snoc k pre _ _ Hpre), (skipn_S_snoc k pre _ _ Hpre), <- app_assoc.
    reflexivity. }
  rewrite E3. clear E3.
  set (d3 := with_children q X3 d1).
  set (w3 := set_fresh (set_document w2 d3) (fresh w2)).
  assert (Llim3 : locate limit (document w3) = Some q)
    by exact (locate_with_children limit q X3 d1 Llim).
  assert (Hlim3 : node_at q (document w3) = Some (set_kids X3 lim))
    by exact (node_at_with_children q X3 d1 lim Hlim).
  assert (Lblk3 : locate (node_id blk) (document w3) = Some (q ++ [k])).
  { apply (locate_child_with_children (node_id blk) k left q d1 lim X3 Lblk Hlim).
    - unfold X3. rewrite (firstn_snoc k pre _ Hpre). reflexivity.
    - exact (nth_error_snoc k pre _ _ Hpre).
    - exact Hlid'. }
  rewrite (collapseAfter_child w3 _ q k _ Lblk3 Hlim3). cbn [bind].
  rewrite node_id_set_kids, Hlid.
  set (T := Text (fresh w3) (html_text (fragmentToHtml content))).
  set (w3' := set_fresh w3 (S (fresh w3))).
  destruct (insertNode_into w3' limit q (set_kids X3 lim) (S k) [T] Llim3 Hlim3)
    as [r5 Hins].
  { now destruct lim. }
  rewrite Hins. cbn [bind]. clear Hins.
  eexists. repeat (split; [eassumption || reflexivity|]).
  split.
  - cbn [document set_fresh set_document]. rewrite Kl.
    change (document w3') with (with_children q X3 d1).
    rewrite with_children_again. f_equal. unfold X3, T.
    change (fresh w3) with f.
    rewrite (firstn_S_snoc k pre _ _ Hpre), (skipn_S_snoc k pre _ _ Hpre), <- app_assoc.
    reflexivity.
  - reflexivity.
Qed.

Lemma str_take_app : forall (s1 s2 : string) k,
  String.length s1 = k -> str_take k (s1 ++ s2)%string = s1.
Proof.
  induction s1 as [|c s1 IH]; intros s2 k <-; simpl.
  - now destruct s2.
  - now rewrite IH.
Qed.

Lemma str_drop_app : forall (s1 s2 : string) k,
  String.length s1 = k -> str_drop k (s1 ++ s2)%string = s2.
Proof.
  induction s1 as [|c s1 IH]; intros s2 k <-; simpl.
  - now destruct s2.
  - now apply IH.
Qed.

Lemma str_take_length : forall k s, k <= String.length s -> String.length (str_take k s) = k.
Proof.
  induction k as [|k IH]; intros [|c s] H; simpl in *; try reflexivity; try lia.
  rewrite IH; [reflexivity | lia].
Qed.

Lemma str_drop_add : forall a c s, str_drop (a + c) s = str_drop c (str_drop a s).
Proof.
  induction a as [|a IH]; intros c s; simpl; [reflexivity|].
  destruct s as [|x s]; [now destruct c | apply IH].
Qed.

Lemma str_drop_length : forall k s, String.length (str_drop k s) = String.length s - k.
Proof.
  induction k as [|k IH]; intros [|c s]; simpl; try reflexivity; try lia. apply IH.
Qed.

(** Taking the characters from [a] to [b] out of a string and putting them
    back at [a] gives the string. *)
Lemma cut_and_paste a b s :
  a <= b -> a <= String.length s ->
  let rest := (str_take a s ++ str_drop b s)%string in
  (str_take a rest ++ str_take (b - a) (str_drop a s) ++ str_drop a rest)%string = s.
Proof.
  intros Hab Ha rest. subst rest.
  rewrite (str_take_app _ _ a (str_take_length a s Ha)).
  rewrite (str_drop_app _ _ a (str_take_length a s Ha)).
  replace b with (a + (b - a)) at 2 by lia. rewrite str_drop_add.
  now rewrite str_take_drop, str_take_drop.
Qed.

Lemma taken_not_empty a b s :
  a < b -> a < String.length s -> str_take (b - a) (str_drop a s) <> EmptyString.
Proof.
  intros Hab Ha. pose proof (str_drop_length a s) as L.
  destruct (str_drop a s) as [|c r]; simpl in L; [lia|].
  destruct (b - a) as [|m] eqn:E; [lia | discriminate].
Qed.

Lemma modify_at_app g : forall p p' d,
  modify_at (p ++ p') g d = modify_at p (modify_at p' g) d.
Proof.
  induction p as [|k p IH]; intros p' d; simpl; [reflexivity|].
  f_equal. apply list_modify_ext. intros a _. apply IH.
Qed.

Lemma ids_modify_at_text p d i s s' :
  node_at p d = Some (Text i s) -> ids (modify_at p (fun _ => Text i s') d) = ids d.
Proof.
  intros H. destruct (labels_modify_at p d (Text i s) H) as [pre [post [E1 E2]]].
  rewrite !ids_labels, (E2 (fun _ => Text i s')), E1. reflexivity.
Qed.

Lemma split_node_inside k x tl i t c a ks fr child :
  nth_error ks k = Some child ->
  split_node true (k :: x :: tl) (Elem i t c a ks) fr
  = (let '(l, r, f) := split_node true (x :: tl) child (S fr) in
     (Elem i t c a (firstn k ks ++ [l]), Elem fr t c a (r :: skipn (S k) ks), f)).
Proof.
  intros N.
  change (split_node true (k :: x :: tl) (Elem i t c a ks) fr)
    with (match nth_error ks k with
          | None => (Elem i t c a (firstn k ks), Elem fr t c a (skipn k ks), S fr)
          | Some child =>
              let '(l, r, f) := split_node true (x :: tl) child (S fr) in
              (Elem i t c a (firstn k ks ++ [l]), Elem fr t c a (r :: skipn (S k) ks), f)
          end).
  now rewrite N.
Qed.

(** The text of a document around one of its nodes. *)
Lemma text_around : forall p n m,
  node_at p n = Some m ->
  exists X Y,
    textContent n = (X ++ textContent m ++ Y)%string
    /\ (forall g, textContent (modify_at p g n) = (X ++ textContent (g m) ++ Y)%string)
    /\ (forall i s o fr l r f,
          split_node true (p ++ [o]) (modify_at p (fun _ => Text i s) n) fr = (l, r, f) ->
          textContent l = (X ++ str_take o s)%string
          /\ textContent r = (str_drop o s ++ Y)%string).
Proof.
  induction p as [|k p IH]; intros n m H.
  - simpl in H. inversion H; subst m. exists EmptyString, EmptyString.
    split; [now rewrite string_app_nil_r|]. split.
    + intros g. simpl. now rewrite string_app_nil_r.
    + intros i s o fr l r f Hs. simpl in Hs. inversion Hs; subst.
      simpl. now rewrite string_app_nil_r.
  - simpl in H. destruct (nth_error (kids n) k) as [child|] eqn:N; [|discriminate].
    destruct n as [j t | j t c a ks]; [destruct k; discriminate|]. simpl in N.
    destruct (IH child m H) as [X [Y [E1 [E2 E3]]]].
    destruct (list_modify_split (fun x => x) ks k child N) as [Hks _].
    exists (text_of (firstn k ks) ++ X)%string, (Y ++ text_of (skipn (S k) ks))%string.
    split; [|split].
    + change (textContent (Elem j t c a ks)) with (text_of ks).
      rewrite Hks at 1. rewrite text_of_app, text_of_cons, E1.
      now rewrite !string_app_assoc.
    + intros g. cbn [modify_at kids set_kids].
      change (textContent (Elem j t c a (list_modify k (modify_at p g) ks)))
        with (text_of (list_modify k (modify_at p g) ks)).
      rewrite (proj2 (list_modify_split (modify_at p g) ks k child N)).
      rewrite text_of_app, text_of_cons, E2. now rewrite !string_app_assoc.
    + intros i s o fr l r f Hs.
      cbn [modify_at kids set_kids] in Hs.
      rewrite (proj2 (list_modify_split (modify_at p (fun _ => Text i s)) ks k child N)) in Hs.
      set (pre := firstn k ks) in *. set (post := skipn (S k) ks) in *.
      set (child' := modify_at p (fun _ => Text i s) child) in *.
      assert (Hpre : List.length pre = k) by exact (firstn_length_nth _ _ _ N).
      change ((k :: p) ++ [o]) with (k :: (p ++ [o])) in Hs.
      destruct (p ++ [o]) as [|x tl] eqn:Ep; [now apply snoc_not_nil in Ep|].
      rewrite (split_node_inside k x tl j t c a _ fr child'
                 (nth_error_snoc k pre child' post Hpre)) in Hs.
      rewrite <- Ep in Hs.
      destruct (split_node true (p ++ [o]) child' (S fr)) as [[l1 r1] f1] eqn:Sp.
      inversion Hs; subst l r f. clear Hs.
      destruct (E3 i s o (S fr) l1 r1 f1 Sp) as [T1 T2].
      change (match pre ++ child' :: post with [] => [] | _ :: l0 => skipn k l0 end)
        with (skipn (S k) (pre ++ child' :: post)).
      rewrite (firstn_snoc k pre _ Hpre), (skipn_S_snoc k pre _ _ Hpre).
      split.
      * change (textContent (Elem j t c a (pre ++ [l1]))) with (text_of (pre ++ [l1])).
        rewrite text_of_app, text_of_cons, T1. unfold text_of at 2. simpl.
        now rewrite string_app_nil_r, !string_app_assoc.
      * change (textContent (Elem fr t c a (r1 :: post))) with (text_of (r1 :: post)).
        rewrite text_of_cons, T2. now rewrite !string_app_assoc.
Qed.

Lemma html_text_single i s :
  s <> EmptyString ->
  fragmentToHtml [Text i s] <> [] /\ html_text (fragmentToHtml [Text i s]) = s.
Proof.
  intros H. destruct s as [|c s]; [congruence|].
  split; [discriminate | reflexivity].
Qed.

Lemma reassemble (P A Xb u T0 v Yb B Sx dat : string) :
  (u ++ T0 ++ v)%string = dat ->
  (P ++ A ++ Xb ++ u ++ T0 ++ v ++ Yb ++ B ++ Sx)%string
  = (P ++ A ++ Xb ++ dat ++ Yb ++ B ++ Sx)%string.
Proof. intros <-. now rewrite !string_app_assoc. Qed.

(** For a selection inside one text node that lies below the limit node,
    [selectionClearFormatting] returns and the text of the document is the
    same afterwards as before: the block is cut and the selected characters
    are moved between the two parts, nothing is lost and nothing is
    repeated. *)
Theorem selectionClearFormatting_keeps_text :
  forall (limitNode : option NodeRef) (selection : option SelRef) (w : World)
         (c : NodeRef) (a b : nat) (dat : string) (q : list nat) (k : nat) (rest : list nat),
    getRangeAt w (selection_or_window selection) 0 = Ret (mkRange c a c b) ->
    NoDup (ids (document w)) ->
    locate c (document w) = Some (q ++ k :: rest) ->
    getNode (document w) c = Some (Text c dat) ->
    a < b -> b <= String.length dat ->
    locate (match limitNode with Some l => l | None => node_id (document w) end)
           (document w) = Some q ->
    exists w',
      selectionClearFormatting limitNode selection w = Ret w'
      /\ textContent (document w') = textContent (document w).
Proof.
  intros limitNode selection w c a b dat q k rest Hget ND Lc Gc Hab Hb Llim.
  set (limit := match limitNode with Some l => l | None => node_id (document w) end) in *.
  set (d := document w) in *. set (pc := q ++ k :: rest) in *.
  set (dat' := (str_take a dat ++ str_drop b dat)%string).
  set (T := str_take (b - a) (str_drop a dat)).
  set (g0 := fun _ : node => Text c dat').
  set (d1 := modify_at pc g0 d).
  set (w1 := set_fresh (set_document w d1) (S (fresh w))).
  assert (Hc : node_at pc d = Some (Text c dat)) by (unfold getNode in Gc; now rewrite Lc in Gc).
  assert (Hc1 : node_at pc d1 = Some (Text c dat'))
    by exact (node_at_modify_at_same g0 pc d _ Hc).
  assert (HT : T <> EmptyString) by (apply taken_not_empty; lia).
  destruct (html_text_single (fresh w) T HT) as [Hne HTT].
  (* the selected characters are taken out *)
  assert (Hext : extractContents (mkRange c a c b) w
                 = Ret ([Text (fresh w) T], collapsed_at (c, a), w1)).
  { unfold extractContents, collapsed, boundary_pos.
    cbn [startContainer startOffset endContainer endOffset]. fold d. rewrite Lc.
    assert (E : (a =? b) = false) by (apply Nat.eqb_neq; lia).
    rewrite Nat.eqb_refl, E. cbn [andb].
    rewrite (extract_in_prefix [a] [b] ltac:(discriminate) ltac:(discriminate)
               pc d (Text c dat) (fresh w) Hc).
    cbn [extract_in]. fold dat' T. fold g0. fold d1.
    unfold boundary_of_pos.
    destruct (pc ++ [a]) eqn:E2; [now apply snoc_not_nil in E2|]. rewrite <- E2.
    now rewrite removelast_last, last_last, Hc1. }
  (* the page after that *)
  assert (ND1 : NoDup (ids d1)) by (unfold d1, g0; now rewrite (ids_modify_at_text pc d c dat dat' Hc)).
  destruct (locate_sound _ _ _ Llim) as [lim [Hlim Hlid]].
  assert (Hd1 : d1 = modify_at q (modify_at (k :: rest) g0) d) by apply modify_at_app.
  assert (Hlim1 : node_at q d1 = Some (modify_at (k :: rest) g0 lim)).
  { rewrite Hd1. now apply node_at_modify_at_same. }
  assert (Llim1 : locate limit d1 = Some q).
  { rewrite <- Hlid. rewrite <- (node_id_set_kids
      (list_modify k (modify_at rest g0) (kids lim)) lim).
    exact (locate_unique q d1 _ ND1 Hlim1). }
  assert (Lc1 : locate c d1 = Some pc) by exact (locate_unique pc d1 _ ND1 Hc1).
  destruct (clear_formatting_cut limitNode selection w (selection_or_window selection)
              (mkRange c a c b) [Text (fresh w) T] (collapsed_at (c, a)) w1 q k rest
              (js_or_selection selection w) Hget Hext Hne ND1 Llim1 Lc1)
    as [lim1 [blk1 [left [right [f [w' [Hl1 [Hb1 [Sp [_ [_ [_ [_ [Hrun [Hdoc _]]]]]]]]]]]]]]].
  exists w'. split; [exact Hrun|].
  cbn [document w1 set_fresh set_document collapsed_at startOffset snd fresh] in Hl1, Sp, Hdoc.
  rewrite HTT in Hdoc.
  (* the limit node and the block, before and after *)
  assert (El : lim1 = modify_at (k :: rest) g0 lim) by congruence. subst lim1.
  unfold pc in Hc. rewrite node_at_app, Hlim in Hc. cbn [node_at] in Hc.
  destruct (nth_error (kids lim) k) as [blk|] eqn:Nblk; [|discriminate].
  assert (Helim : is_element lim = true).
  { destruct lim; [destruct k; discriminate | reflexivity]. }
  set (ks := kids lim) in *.
  assert (Hpre : List.length (firstn k ks) = k) by exact (firstn_length_nth _ _ _ Nblk).
  assert (Kl : kids (modify_at (k :: rest) g0 lim)
               = firstn k ks ++ modify_at rest g0 blk :: skipn (S k) ks).
  { cbn [modify_at]. rewrite kids_set_kids, Helim. fold ks.
    exact (proj2 (list_modify_split (modify_at rest g0) ks k blk Nblk)). }
  rewrite Kl in Hb1, Hdoc.
  rewrite (nth_error_snoc k _ _ _ Hpre) in Hb1. inversion Hb1; subst blk1. clear Hb1.
  rewrite (firstn_snoc k _ _ Hpre), (skipn_S_snoc k _ _ _ Hpre) in Hdoc.
  (* the texts *)
  destruct (text_around q d lim Hlim) as [P [Sx [EP1 [EP2 _]]]].
  destruct (text_around rest blk (Text c dat) Hc) as [Xb [Yb [EB1 [_ EB3]]]].
  destruct (EB3 c dat' a (S (fresh w)) left right f Sp) as [TL TR].
  rewrite Hdoc. unfold with_children. rewrite Hd1, modify_at_modify_at, EP2, EP1.
  cbn [modify_at]. rewrite set_kids_set_kids.
  rewrite (textContent_kids (set_kids _ lim)) by now destruct lim.
  rewrite kids_set_kids, Helim, (textContent_kids lim Helim). fold ks.
  assert (Eks : text_of ks
                = (text_of (firstn k ks) ++ textContent blk ++ text_of (skipn (S k) ks))%string).
  { rewrite (proj1 (list_modify_split (fun x => x) ks k blk Nblk)) at 1.
    now rewrite text_of_app, text_of_cons. }
  rewrite !text_of_app, !text_of_cons, Eks, TL, TR, EB1. cbn [textContent].
  rewrite !string_app_assoc.
  apply reassemble. exact (cut_and_paste a b dat ltac:(lia) ltac:(lia)).
Qed.

Lemma selectionClearFormatting_keeps_text_witness :
  exists w',
    selectionClearFormatting None None b_selected = Ret w'
    /\ textContent (document w') = textContent (document b_selected).
Proof.
  apply (selectionClearFormatting_keeps_text None None b_selected 2 1 2 "ABC" [] 0 [0]);
    try reflexivity; try (simpl; lia).
  distinct_ids.
Defined.

(** ** Changing tags with nothing selected *)

(** With nothing selected and no selection saved, [selectionChangeTags]
    finds no element, whatever [changeFrom] is, and so gives the limit
    element a new content: what the HTML parser makes of the start tag of
    [changeTo], the former content and the end tag of [changeTo].  When the
    parser nests them, the whole former content ends up inside one new
    [changeTo] element.  Nothing is selected afterwards, and no selection is
    left saved. *)
Theorem selectionChangeTags_nothing_selected :
  forall (parser : HtmlParser) (changeTo : string) (changeFrom : list string)
         (l : NodeRef) (rest : jq) (fuel : nat) (w : World) (n : node),
    windowSelection w = emptySelection ->
    savedSelection w = None ->
    getNode (document w) l = Some n ->
    is_element n = true ->
    exists w' n',
      selectionChangeTags parser changeTo changeFrom (l :: rest) (S fuel) w = Ret w'
      /\ getNode (document w') l = Some n'
      /\ tag_of n' = tag_of n /\ classes_of n' = classes_of n /\ attrs_of n' = attrs_of n
      /\ map outer (kids n') = parser (tag_of n) changeTo (innerHTML n)
      /\ (nests parser (tag_of n) changeTo (innerHTML n) ->
          map outer (kids n') = [MElem changeTo [] [] (innerHTML n)])
      /\ windowSelection w' = emptySelection
      /\ selectionSaved w' = false.
Proof.
  intros parser changeTo changeFrom l rest fuel w n Hsel Hsaved Hn He.
  set (w1 := set_saved (set_sel w Win emptySelection) (Some [])).
  assert (Hsave : selectionSave false w = Ret w1).
  { unfold selectionSave. rewrite Hsaved.
    unfold rangy_saveSelection, getAllRanges. cbn [get_sel]. rewrite Hsel. reflexivity. }
  assert (Hfind : selectionFindWrappingAndInnerElements changeFrom (l :: rest) (S fuel) w1
                  = Ret ([], w1)).
  { unfold selectionFindWrappingAndInnerElements.
    now apply selectionEachRange_no_range. }
  assert (Hn1 : getNode (document w1) l = Some n) by exact Hn.
  rewrite (changeTags_wraps parser changeTo _ _ _ _ w1 w1 l n Hsave Hfind eq_refl Hn1).
  pose proof (outer_parse (parser (tag_of n) changeTo (innerHTML n)) (fresh w1)) as Hp.
  destruct (limit_rewritten w1 l n
              (fst (parse (parser (tag_of n) changeTo (innerHTML n)) (fresh w1)))
              (snd (parse (parser (tag_of n) changeTo (innerHTML n)) (fresh w1))) Hn1 He)
    as [n' [G [H1 [H2 [H3 H4]]]]].
  eexists. exists n'. split; [reflexivity|].
  unfold selectionRestore. cbn [savedSelection set_fresh set_document w1 set_saved].
  unfold rangy_restoreSelection. cbn [rev restoreRanges document set_document set_sel].
  cbn [document set_fresh set_document w1 set_saved set_sel] in G.
  split; [exact G|]. rewrite H4, Hp. unfold nests. cbn. auto 10.
Qed.

Lemma selectionChangeTags_nothing_selected_witness :
  exists w' n',
    selectionChangeTags void_aware "i" ["b"] [1] 1 nothing_selected = Ret w'
    /\ getNode (document w') 1 = Some n'
    /\ tag_of n' = "p" /\ classes_of n' = [] /\ attrs_of n' = []
    /\ map outer (kids n') = [MElem "i" [] [] [MText "ABC"]]
    /\ (nests void_aware "p" "i" [MText "ABC"] ->
        map outer (kids n') = [MElem "i" [] [] [MText "ABC"]])
    /\ windowSelection w' = emptySelection
    /\ selectionSaved w' = false.
Proof.
  exact (selectionChangeTags_nothing_selected void_aware "i" ["b"] 1 [] 0 nothing_selected
           (Elem 1 "p" [] [] [Text 2 "ABC"]) eq_refl eq_refl eq_refl eq_refl).
Defined.

(** ** Toggling classes leaves the other nodes alone *)

(** [selectionToggleBlockClasses] changes classes of the collected blocks
    only: once the blocks are collected (the content of the limit element
    may have been wrapped for that), no node is added or removed, and every
    node that is not one of the collected blocks keeps exactly its
    classes. *)
Theorem selectionToggleBlockClasses_only_the_blocks :
  forall (css_display : node -> string) (addClasses removeClasses : list string)
         (l : NodeRef) (rest : jq) (blockContainer : option string) (w : World),
    wf_doc w -> elem_in (document w) l = true ->
    exists apply blocks w1 w',
      selectionEachBlock css_display (toggle_collect addClasses) (l :: rest) blockContainer
                         (S (rangeCount (windowSelection w))) ((false, []), w)
      = Ret ((apply, blocks), w1)
      /\ selectionToggleBlockClasses css_display addClasses removeClasses (l :: rest)
                                     blockContainer (S (rangeCount (windowSelection w))) w
         = Ret w'
      /\ ids (document w') = ids (document w1)
      /\ (forall j, elem_in (document w') j = elem_in (document w1) j)
      /\ (forall j x, ~ In j blocks ->
            hasClass (document w') j x = hasClass (document w1) j x)
      /\ windowSelection w' = windowSelection w
      /\ savedSelection w' = savedSelection w1.
Proof.
  intros css addClasses removeClasses l rest blockContainer w Hwf Hl.
  destruct (eachRange_from_total
              (fun st : (bool * jq) * World => getAllRanges (snd st) Win)
              (eachBlock_range css (toggle_collect addClasses) (l :: rest) blockContainer)
              (fun st => collected addClasses l st
                         /\ windowSelection (snd st) = windowSelection w)) with
    (n := rangeCount (windowSelection w)) (i := 0) (s := ((false, @nil NodeRef), w))
    (fuel := S (rangeCount (windowSelection w)))
    as [[[apply blocks] w1] [Hrun [[Hc Hw] _]]].
  - intros r a [Ha Hwa].
    destruct (eachBlock_collect_step css addClasses l rest blockContainer r a Ha)
      as [a' [E1 [E2 [E3 E4]]]].
    exists a'. split; [exact E1|]. split; [split; [exact E2 | congruence]|].
    unfold getAllRanges. simpl. now rewrite E3.
  - split; [|reflexivity]. repeat split; try apply Hwf; try exact Hl; constructor.
  - unfold getAllRanges, rangeCount. simpl. lia.
  - lia.
  - destruct Hc as [[ND1 _] _]. cbn [fst snd] in *.
    destruct (jq_removeClass_spec removeClasses blocks (document w1) ND1) as [R1 [R2 R3]].
    set (dr := jq_removeClass (join_space removeClasses) blocks (document w1)) in *.
    assert (NDr : NoDup (ids dr)) by now rewrite R1.
    destruct (jq_addClass_spec addClasses blocks dr NDr) as [A1 [A2 A3]].
    destruct (jq_removeClass_spec addClasses blocks dr NDr) as [B1 [B2 B3]].
    exists apply, blocks, w1,
      (set_document w1 (if apply then jq_addClass (join_space addClasses) blocks dr
                        else jq_removeClass (join_space addClasses) blocks dr)).
    split; [exact Hrun|]. split.
    { unfold selectionToggleBlockClasses.
      unfold selectionEachBlock, selectionEachRange in *. cbn [js_or rangy_getSelection snd] in *.
      rewrite Hrun. cbn [bind]. fold dr. now destruct apply. }
    cbn [document set_document windowSelection savedSelection].
    split; [destruct apply; congruence|].
    split; [intros j; destruct apply; [rewrite A2 | rewrite B2]; apply R2|].
    split; [|split; [exact Hw | reflexivity]].
    intros j x Hj.
    assert (M : jq_mem j blocks = false).
    { destruct (jq_mem j blocks) eqn:E; [|reflexivity]. exfalso. apply Hj.
      unfold jq_mem in E. apply existsb_exists in E. destruct E as [y [Hy Ey]].
      apply Nat.eqb_eq in Ey. now subst. }
    destruct apply; [rewrite A3 | rewrite B3]; rewrite R3, M; cbn [andb negb];
      [now rewrite orb_false_r, andb_true_r | now rewrite !andb_true_r].
Qed.

Lemma selectionToggleBlockClasses_only_the_blocks_witness :
  exists apply blocks w1 w',
    selectionEachBlock ua_display (toggle_collect ["hl"]) [1] None 3 ((false, []), one_highlighted)
    = Ret ((apply, blocks), w1)
    /\ selectionToggleBlockClasses ua_display ["hl"] ["old"] [1] None 3 one_highlighted = Ret w'
    /\ ids (document w') = ids (document w1)
    /\ (forall j, elem_in (document w') j = elem_in (document w1) j)
    /\ (forall j x, ~ In j blocks -> hasClass (document w') j x = hasClass (document w1) j x)
    /\ windowSelection w' = windowSelection one_highlighted
    /\ savedSelection w' = savedSelection w1.
Proof.
  exact (selectionToggleBlockClasses_only_the_blocks ua_display ["hl"] ["old"] 1 [] None
           one_highlighted one_highlighted_wf eq_refl).
Defined.

(** ** Constraining to nothing *)

(** [selectionConstrain] with an empty set of elements compares each range
    with [undefined]: at the first range whose common ancestor container
    is an element, or a text node with a parent, [jQuery.contains] is
    called with [undefined] and throws a [TypeError]. *)
Theorem selectionConstrain_to_nothing_throws :
  forall (selection : option SelRef) (w : World) (r : Range) (rs : list Range) (cac : node),
    getAllRanges w (selection_or_window selection) = r :: rs ->
    commonAncestorContainer (document w) r = Some cac ->
    (is_element cac = false -> parentNode (document w) (node_id cac) <> None) ->
    selectionConstrain [] selection w = Throws "TypeError".
Proof.
  intros selection w r rs cac Hr Hc Hp. unfold selectionConstrain.
  rewrite js_or_selection, Hr. cbn [jq_first hd_error jq_each].
  unfold constrain_range. rewrite Hc, nodeType_text.
  destruct (is_element cac) eqn:E; cbn [negb].
  - reflexivity.
  - unfold jq_parent. cbn [flat_map]. rewrite app_nil_r.
    destruct (parentNode (document w) (node_id cac)) as [par|]; [|now destruct (Hp eq_refl)].
    reflexivity.
Qed.

Lemma selectionConstrain_to_nothing_throws_witness :
  selectionConstrain [] None b_selected = Throws "TypeError".
Proof.
  apply (selectionConstrain_to_nothing_throws None b_selected (mkRange 2 1 2 2) []
           (Text 2 "ABC") eq_refl eq_refl).
  discriminate.
Defined.

(** ** Setting the selection *)

(** After [selectionSet(range)] the selection of the window holds that
    range and no other, the document is as before, and the functions that
    read the selection see the range: [selectionGetElement()] gives what it
    gives for the range, and [selectionEachRange] calls a callback that
    leaves the selection alone exactly once, with the range. *)
Theorem selectionSet_single_range :
  forall (range : Range) (w : World),
    getAllRanges (selectionSet range w) Win = [range]
    /\ document (selectionSet range w) = document w
    /\ selectionGetElement None (selectionSet range w) = selectionGetElement (Some range) w
    /\ (forall (L : Type) (callback : Range -> L * World -> outcome (L * World))
               (l l' : L) (w' : World) (fuel : nat),
          callback range (l, selectionSet range w) = Ret (l', w') ->
          getAllRanges w' Win = [range] ->
          selectionEachRange callback None (S (S fuel)) (l, selectionSet range w)
          = Ret (l', w')).
Proof.
  intros range w. split; [reflexivity|]. split; [reflexivity|]. split; [reflexivity|].
  intros L callback l l' w' fuel Hcb Hr. unfold selectionEachRange.
  cbn [snd js_or rangy_getSelection eachRange_from].
  change (getAllRanges (selectionSet range w) Win) with [range]. cbn [nth_error].
  rewrite Hcb. cbn [bind snd]. now rewrite Hr.
Qed.

Lemma selectionSet_single_range_witness :
  selectionEachRange inspect_range None 2 (tt, selectionSet (mkRange 2 0 2 3) b_selected)
  = Ret (tt, selectionSet (mkRange 2 0 2 3) b_selected).
Proof.
  apply (proj2 (proj2 (proj2 (selectionSet_single_range (mkRange 2 0 2 3) b_selected)))
           unit inspect_range tt tt _ 0); reflexivity.
Defined.
